(** * Ottawa housing stress: the ward pipeline of [build_tableau_files.py]

    A shallow embedding of the spatial-join and aggregation pipeline
    ([detect_ward_id_field], [assign_ward_to_points], [affordability_band]
    and the data-frame steps of [main]) together with the properties the
    specification states about it.

    Numbers are IEEE 754 binary64 values, as numpy and Python have them:
    the [spec_float] type of the standard library with precision 53 and
    maximal exponent 1024.  A missing cell of a pandas float column is the
    NaN value. *)

From Stdlib Require Import ZArith QArith Lqa List Bool String Ascii Lia.
From Stdlib Require Import QArith.Qpower Sorting.Permutation Sorting.Sorted DecimalString DecimalPos.
From Stdlib Require Import Structures.OrderedTypeEx.
From Stdlib Require Import Floats.SpecFloat.
Import ListNotations.

Local Open Scope Z_scope.

(** ** Binary64 numbers *)

Module B64.

Definition prec : Z := 53.
Definition emax : Z := 1024.

Definition float := spec_float.

Definition nan : float := S754_nan.
Definition pinf : float := S754_infinity false.
Definition ninf : float := S754_infinity true.
Definition pzero : float := S754_zero false.

(** [float(n)] for a Python integer, rounding to nearest even. *)
Definition of_Z (n : Z) : float := binary_normalize prec emax n 0 false.

Definition add : float -> float -> float := SFadd prec emax.
Definition sub : float -> float -> float := SFsub prec emax.
Definition div : float -> float -> float := SFdiv prec emax.
Definition ltb : float -> float -> bool := SFltb.
Definition leb : float -> float -> bool := SFleb.

(** [pd.isna] on a float cell. *)
Definition isna (x : float) : bool :=
  match x with S754_nan => true | _ => false end.

Definition valid (x : float) : bool := valid_binary prec emax x.

Definition is_finite (x : float) : bool :=
  match x with
  | S754_zero _ | S754_finite _ _ _ => true
  | _ => false
  end.

Definition is_zero (x : float) : bool :=
  match x with S754_zero _ => true | _ => false end.

Definition sign (x : float) : bool :=
  match x with
  | S754_zero s | S754_infinity s | S754_finite s _ _ => s
  | S754_nan => false
  end.

(** The rational number a finite float stands for (0 for the others). *)
Definition to_Q (x : float) : Q :=
  match x with
  | S754_finite s m e =>
      let v := (inject_Z (Zpos m) * Qpower 2 e)%Q in
      if s then Qopp v else v
  | _ => 0%Q
  end.

(** The value in units of [2^-1074], the smallest positive binary64. *)
Definition scaled (x : float) : Z :=
  match x with
  | S754_finite s m e =>
      let v := Zpos m * 2 ^ (e + 1074) in if s then - v else v
  | _ => 0
  end.

End B64.

Abbreviation float := B64.float.

(** NaN, or a number whose sign bit is [s]. *)
Definition signed_or_nan (s : bool) (x : float) : Prop :=
  x = B64.nan \/ (B64.isna x = false /\ B64.sign x = s).

(** ** Affordability bands *)

Local Open Scope string_scope.

Definition band_unknown : string := "Unknown".
Definition band_more_affordable : string := "More Affordable (<4x)".
Definition band_stretched : string := "Stretched (4–6x)".
Definition band_high_risk : string := "High Risk (6–8x)".
Definition band_severe_risk : string := "Severe Risk (8x+)".

(** [affordability_band(ratio)]: the comparisons are Python's [float < int],
    which compares the exact values. *)
Definition affordability_band (ratio : float) : string :=
  if B64.isna ratio then band_unknown
  else if B64.ltb ratio (B64.of_Z 4) then band_more_affordable
  else if B64.ltb ratio (B64.of_Z 6) then band_stretched
  else if B64.ltb ratio (B64.of_Z 8) then band_high_risk
  else band_severe_risk.

Local Close Scope string_scope.
Local Open Scope list_scope.

(** ** Python values and integer parsing *)

(** The JSON values found in GeoJSON properties.  A JSON number with a
    fraction or exponent is a Python float, whose text always holds a
    [.], an exponent, [inf] or [nan]: it is written here as the [PStr] of
    that text, which [int] rejects in the same way.  Strings are byte
    strings; digits outside ASCII are not modelled. *)
Inductive pyval :=
| PNone
| PBool (b : bool)
| PInt (z : Z)
| PStr (s : string).

(** [str(v)] *)
Definition py_str (v : pyval) : string :=
  match v with
  | PNone => "None"
  | PBool true => "True"
  | PBool false => "False"
  | PInt z => NilZero.string_of_int (Z.to_int z)
  | PStr s => s
  end%string.

(** Python's ASCII white space: tab, line feed, vertical tab, form feed,
    carriage return, the four separators 28..31 and the space.  White
    space outside ASCII, which [str.strip] removes as well, is not
    modelled. *)
Definition is_space (c : ascii) : bool :=
  let n := nat_of_ascii c in
  ((9 <=? n) && (n <=? 13) || (28 <=? n) && (n <=? 32))%nat.

Fixpoint lstrip (s : string) : string :=
  match s with
  | EmptyString => EmptyString
  | String c rest => if is_space c then lstrip rest else s
  end.

Fixpoint string_rev_append (s acc : string) : string :=
  match s with
  | EmptyString => acc
  | String c rest => string_rev_append rest (String c acc)
  end.

Definition string_rev (s : string) : string := string_rev_append s EmptyString.

Definition rstrip (s : string) : string := string_rev (lstrip (string_rev s)).

(** [s.strip()] *)
Definition strip (s : string) : string := rstrip (lstrip s).

Definition digit_of (c : ascii) : option Z :=
  let n := nat_of_ascii c in
  if ((48 <=? n) && (n <=? 57))%nat then Some (Z.of_nat n - 48) else None.

(** Where the scan of a decimal literal stands: nothing read yet, after a
    digit, or after an underscore (which has to sit between two digits). *)
Inductive scan_state := AtStart | AfterDigit | AfterUnderscore.

Fixpoint scan_digits (st : scan_state) (acc : Z) (s : string) : option Z :=
  match s with
  | EmptyString =>
      match st with AfterDigit => Some acc | _ => None end
  | String c rest =>
      match digit_of c with
      | Some d => scan_digits AfterDigit (10 * acc + d) rest
      | None =>
          if Ascii.eqb c "_"%char then
            match st with
            | AfterDigit => scan_digits AfterUnderscore acc rest
            | _ => None
            end
          else None
      end
  end.

(** [int(s)] for a string, base 10: [None] where Python raises
    [ValueError]. *)
Definition py_int (s : string) : option Z :=
  match strip s with
  | String "+" rest => scan_digits AtStart 0 rest
  | String "-" rest => option_map Z.opp (scan_digits AtStart 0 rest)
  | body => scan_digits AtStart 0 body
  end.

(** ** Errors *)

Inductive exn := ValueError (msg : string).

Inductive result (A : Type) :=
| Ok (a : A)
| Raise (e : exn).

Arguments Ok {A} a.
Arguments Raise {A} e.

(** ** Field inference: [detect_ward_id_field] *)

(** A [properties] dict in insertion order. *)
Definition properties := list (string * pyval).

(** [props.get(k, None)] *)
Fixpoint dict_get (props : properties) (k : string) : pyval :=
  match props with
  | [] => PNone
  | (k', v) :: rest => if String.eqb k' k then v else dict_get rest k
  end.

Definition dict_keys (props : properties) : list string := map fst props.

(** [int(str(v).strip())] inside the [try]; [None] when it raises. *)
Definition try_int (v : pyval) : option Z := py_int (strip (py_str v)).

(** The list [converted] built for field [k]. *)
Definition converted (features : list properties) (k : string) : list Z :=
  flat_map (fun f => match try_int (dict_get f k) with
                     | Some iv => [iv]
                     | None => []
                     end) features.

Definition ok_count (features : list properties) (k : string) : Z :=
  Z.of_nat (List.length (converted features k)).

Definition in_range (features : list properties) (k : string) : Z :=
  Z.of_nat (List.length (filter (fun iv => (1 <=? iv) && (iv <=? 30))
                           (converted features k))).

Definition score (features : list properties) (k : string) : Z :=
  ok_count features k + in_range features k.

(** One turn of the loop over [candidate_keys], on [(best_key, best_score)]. *)
Definition detect_step (features : list properties)
           (best : option string * Z) (k : string) : option string * Z :=
  if ok_count features k =? 0 then best
  else if snd best <? score features k then (Some k, score features k)
  else best.

Definition no_features_msg : string := "No features found in wards GeoJSON.".
Definition no_field_msg : string :=
  "Could not auto-detect ward number field in GeoJSON properties. Open the GeoJSON and find which field stores ward IDs.".

Definition detect_ward_id_field (features : list properties) : result string :=
  match features with
  | [] => Raise (ValueError no_features_msg)
  | first :: _ =>
      let candidate_keys := dict_keys first in
      match fst (fold_left (detect_step features) candidate_keys (None, -1)) with
      | None => Raise (ValueError no_field_msg)
      | Some best_key => Ok best_key
      end
  end.

(** *** The scoring rule in the words of the specification

    For a field, [parse_successes] counts the records whose value parses
    as an integer and [plausible_successes] those whose parsed value lies
    in the ward-number range 1..30; the score is their sum. *)

Definition count_if {A : Type} (p : A -> bool) (l : list A) : Z :=
  Z.of_nat (List.length (filter p l)).

Definition parse_successes (features : list properties) (k : string) : Z :=
  count_if (fun f => match try_int (dict_get f k) with
                     | Some _ => true
                     | None => false
                     end) features.

Definition plausible_successes (features : list properties) (k : string) : Z :=
  count_if (fun f => match try_int (dict_get f k) with
                     | Some iv => (1 <=? iv) && (iv <=? 30)
                     | None => false
                     end) features.

Definition field_score (features : list properties) (k : string) : Z :=
  parse_successes features k + plausible_successes features k.

(** [k] is the first field of [fields] with the highest value of [f]. *)
Definition first_highest (f : string -> Z) (fields : list string) (k : string)
  : Prop :=
  exists before after,
    fields = before ++ k :: after /\
    (forall k', In k' before -> f k' < f k) /\
    (forall k', In k' after -> f k' <= f k).

(** What the loop of [detect_ward_id_field] has found after the fields
  [seen]. *)
Definition loop_inv (features : list properties) (seen : list string) (st : option string * Z) : Prop :=
  match fst st with
  | None => snd st = -1 /\ forall k, In k seen -> ok_count features k = 0
  | Some b =>
      snd st = score features b /\ 0 < ok_count features b /\
      first_highest (score features) seen b
  end.

(** The schema of a feature collection: the fields of its first record. *)
Definition schema_fields (features : list properties) : list string :=
  match features with
  | [] => []
  | first :: _ => dict_keys first
  end.

(** Every record has only fields of the schema. *)
Definition common_schema (features : list properties) : Prop :=
  forall f k, In f features -> In k (dict_keys f) ->
              In k (schema_fields features).

Definition spec_example_features : list properties :=
  [ [("OBJECTID", PInt 101); ("WARD_NUM", PInt 1)];
    [("OBJECTID", PInt 102); ("WARD_NUM", PInt 2)];
    [("OBJECTID", PInt 103); ("WARD_NUM", PInt 3)] ]%string.

(** ** Sorting and grouping helpers *)

Section Sorting.
Context {A : Type}.
Variable le : A -> A -> bool.

Fixpoint insert_sorted (x : A) (l : list A) : list A :=
  match l with
  | [] => [x]
  | y :: rest => if le x y then x :: l else y :: insert_sorted x rest
  end.

Definition sort_by (l : list A) : list A := fold_right insert_sorted [] l.
End Sorting.

(** The group keys of a pandas [groupby]: distinct and in ascending order. *)
Definition ward_keys (ws : list Z) : list Z :=
  sort_by Z.leb (nodup Z.eq_dec ws).

Definition style_keys (cs : list string) : list string :=
  sort_by String.leb (nodup string_dec cs).

(** ** Column statistics of pandas (missing values skipped) *)

Definition dropna_floats (xs : list float) : list float :=
  filter (fun x => negb (B64.isna x)) xs.

(** A boolean order read as a relation. *)
Definition le_prop {A : Type} (le : A -> A -> bool) (x y : A) : Prop :=
  le x y = true.


(** [count]: the number of cells that are not missing. *)
Definition pd_count (xs : list float) : Z :=
  Z.of_nat (List.length (dropna_floats xs)).

(** The middle of a sorted list: the middle value, or the mean of the two
    middle values; NaN for the empty list. *)
Definition middle_of_sorted (s : list float) : float :=
  let n := List.length s in
  match n with
  | O => B64.nan
  | _ =>
      if Nat.odd n then nth (n / 2) s B64.nan
      else B64.div (B64.add (nth (n / 2) s B64.nan) (nth (n / 2 - 1) s B64.nan))
                   (B64.of_Z 2)
  end.

(** [median]: over the values that are not missing. *)
Definition pd_median (xs : list float) : float :=
  middle_of_sorted (sort_by B64.leb (dropna_floats xs)).

(** A sum taken from left to right: the sum of the cells of a row, and
    the sums of the pivot, which are over one value each. *)
Definition float_sum (xs : list float) : float :=
  fold_left B64.add xs B64.pzero.

(** One turn of the compensated running sum that the grouped mean of
    pandas keeps, on the pair of [sumx] and [compensation]:
    [y = val - compensation], [t = sumx + y],
    [compensation = t - sumx - y], reset to 0.0 when it is NaN (which an
    infinite value makes it), and [sumx = t]. *)
Definition kahan_step (state : float * float) (val : float) : float * float :=
  let (sumx, compensation) := state in
  let y := B64.sub val compensation in
  let t := B64.add sumx y in
  let c := B64.sub (B64.sub t sumx) y in
  (t, if B64.isna c then B64.pzero else c).

Definition kahan_sum (xs : list float) : float :=
  fst (fold_left kahan_step xs (B64.pzero, B64.pzero)).

(** [mean]: the compensated sum of the values that are not missing, over
    their count. *)
Definition pd_mean (xs : list float) : float :=
  match dropna_floats xs with
  | [] => B64.nan
  | ys => B64.div (kahan_sum ys) (B64.of_Z (Z.of_nat (List.length ys)))
  end.

(** ** Listings and spatial assignment: [assign_ward_to_points] *)

(** A row of the listings frame after price parsing: [row_id] is the index
    label of the row in the frame; a missing number is NaN and a missing
    style is [None]. *)
Record listing := {
  row_id : Z;
  latitude : float;
  longitude : float;
  Price : float;
  walkScore : float;
  Listing_Style : option string
}.

(** [re_df.dropna(subset=["latitude", "longitude", "Price"])] *)
Definition has_key_fields (r : listing) : bool :=
  negb (B64.isna (latitude r)) && negb (B64.isna (longitude r)) &&
  negb (B64.isna (Price r)).

Definition drop_missing_key_fields (re_df : list listing) : list listing :=
  filter has_key_fields re_df.

(** A shapely point: [Point(float(lon), float(lat))]. *)
Record point := { pt_x : float; pt_y : float }.

Record assigned_listing := {
  base : listing;
  Ward : Z
}.

Section Spatial.
(** The geometry library: polygons and [poly.covers(pt)], which holds in
    the interior and on the boundary. *)
Variable polygon : Type.
Variable covers : polygon -> point -> bool.

Record ward_polygon := {
  ward_id : Z;
  geometry : polygon
}.

(** The inner loop over [wards], with the polygons whose [covers] was
    called, in order: the scan stops at the first match ([break]). *)
Fixpoint first_covering (wards : list (Z * polygon)) (pt : point)
  : option Z * list polygon :=
  match wards with
  | [] => (None, [])
  | (w, poly) :: rest =>
      if covers poly pt then (Some w, [poly])
      else let (assigned, tested) := first_covering rest pt in
           (assigned, poly :: tested)
  end.

Definition wards_of (ward_polygons : list ward_polygon) : list (Z * polygon) :=
  map (fun w => (ward_id w, geometry w)) ward_polygons.

Definition listing_point (row : listing) : point :=
  {| pt_x := longitude row; pt_y := latitude row |}.

Definition bad_coordinates (row : listing) : bool :=
  B64.isna (latitude row) || B64.isna (longitude row).

(** What one turn of the loop over the rows finds for its row, with the
    polygons tested for it: [None] for bad coordinates (nothing is
    written) and when no polygon covers the point ([None] is written). *)
Definition ward_cell (wards : list (Z * polygon)) (row : listing)
  : option Z * list polygon :=
  if bad_coordinates row then (None, [])
  else first_covering wards (listing_point row).

(** [out.at[i, "Ward"] = assigned]: the cell of every row whose index
    label is [i]. *)
Definition set_ward_at (i : Z) (assigned : option Z)
           (out : list (listing * option Z)) : list (listing * option Z) :=
  map (fun rc => if row_id (fst rc) =? i then (fst rc, assigned) else rc) out.

(** One turn of the loop over [out.iterrows()]: a row with a missing
    coordinate is passed over; for the others the ward found is written
    at the index label of the row. *)
Definition assign_step (wards : list (Z * polygon))
           (out : list (listing * option Z)) (row : listing)
  : list (listing * option Z) :=
  if bad_coordinates row then out
  else set_ward_at (row_id row) (fst (first_covering wards (listing_point row))) out.

(** The cell at index label [i] once the loop has run over [rows], from
    the cell it started with: every row of that label that has both
    coordinates overwrites it. *)
Definition cell_after (wards : list (Z * polygon)) (rows : list listing)
           (i : Z) (cell : option Z) : option Z :=
  fold_left (fun cell row =>
               if bad_coordinates row then cell
               else if row_id row =? i
                    then fst (first_covering wards (listing_point row))
                    else cell)
            rows cell.

(** [out.dropna(subset=["Ward"])] and [astype(int)]; the ward identifiers
    are taken to fit the 64-bit integers of the column, beyond which
    [astype] raises. *)
Definition keep_assigned (cells : list (listing * option Z))
  : list assigned_listing :=
  flat_map (fun rc => match snd rc with
                      | Some w => [{| base := fst rc; Ward := w |}]
                      | None => []
                      end) cells.

(** The rows [assign_ward_to_points] keeps of a frame whose index labels
    are distinct, row by row. *)
Definition assigned_of (wards : list (Z * polygon)) (row : listing)
  : list assigned_listing :=
  match fst (ward_cell wards row) with
  | Some w => [{| base := row; Ward := w |}]
  | None => []
  end.

Definition assign_ward_to_points (listings_df : list listing)
           (ward_polygons : list ward_polygon) : list assigned_listing :=
  let wards := wards_of ward_polygons in
  let out := map (fun row => (row, None)) listings_df in
  keep_assigned (fold_left (assign_step wards) listings_df out).
End Spatial.

Arguments ward_id {polygon} _.
Arguments geometry {polygon} _.

(** ** Ward aggregation: the [groupby] steps of [main] *)

Record ward_agg_row := {
  agg_Ward : Z;
  Listings : Z;
  Median_List_Price : float;
  Mean_List_Price : float;
  Median_WalkScore : float;
  (** the [StyleShare_<category>] cells, by column name, in column order *)
  StyleShare : list (string * float)
}.

Definition ward_group (re_with_ward : list assigned_listing) (w : Z)
  : list assigned_listing :=
  filter (fun r => Ward r =? w) re_with_ward.

Definition group_prices (g : list assigned_listing) : list float :=
  map (fun r => Price (base r)) g.

Definition group_walk_scores (g : list assigned_listing) : list float :=
  map (fun r => walkScore (base r)) g.

(** The aggregate of one group of [groupby("Ward").agg(...)]. *)
Definition ward_metrics_row (re_with_ward : list assigned_listing) (w : Z)
  : ward_agg_row :=
  let g := ward_group re_with_ward w in
  {| agg_Ward := w;
     Listings := pd_count (group_prices g);
     Median_List_Price := pd_median (group_prices g);
     Mean_List_Price := pd_mean (group_prices g);
     Median_WalkScore := pd_median (group_walk_scores g);
     StyleShare := [] |}.

(** [re_with_ward.groupby("Ward", as_index=False).agg(...)] *)
Definition ward_metrics (re_with_ward : list assigned_listing)
  : list ward_agg_row :=
  map (ward_metrics_row re_with_ward) (ward_keys (map Ward re_with_ward)).

(** *** Style shares *)

Definition style_of (r : assigned_listing) : option string :=
  Listing_Style (base r).

Definition style_is (c : string) (r : assigned_listing) : bool :=
  match style_of r with
  | Some c' => String.eqb c' c
  | None => false
  end.

(** The rows a [groupby] on [Listing_Style] keeps: a missing key drops
    the row. *)
Definition styled (df : list assigned_listing) : list assigned_listing :=
  filter (fun r => match style_of r with Some _ => true | None => false end) df.

Definition observed_styles (df : list assigned_listing) : list string :=
  flat_map (fun r => match style_of r with Some c => [c] | None => [] end) df.

Definition pair_count (df : list assigned_listing) (w : Z) (c : string) : Z :=
  Z.of_nat (List.length (filter (fun r => (Ward r =? w) && style_is c r) df)).

(** The listings of ward [w] that have a style. *)
Definition styled_total (df : list assigned_listing) (w : Z) : Z :=
  Z.of_nat (List.length (filter (fun r => Ward r =? w) (styled df))).

(** A share as an exact fraction, and the exact sum of fractions. *)
Definition exact_share (n total : Z) : Q := n # Z.to_pos total.

Definition Q_sum (l : list Q) : Q := fold_right Qplus 0%Q l.

Record style_count_row := {
  sc_Ward : Z;
  sc_Listing_Style : string;
  Style_Count : Z
}.

(** [groupby(["Ward", "Listing_Style"], as_index=False).size()]: one row
    for each pair that occurs, ordered by ward, then by style. *)
Definition style_counts (df : list assigned_listing) : list style_count_row :=
  flat_map (fun w =>
    flat_map (fun c =>
      if pair_count df w c =? 0 then []
      else [{| sc_Ward := w; sc_Listing_Style := c;
               Style_Count := pair_count df w c |}])
      (style_keys (observed_styles df)))
    (ward_keys (map Ward (styled df))).

Definition Z_sum (l : list Z) : Z := fold_right Z.add 0 l.

(** The group keys of [style_counts] and the rows of one ward in it. *)
Definition style_key_list (df : list assigned_listing) : list string :=
  style_keys (observed_styles df).

Definition styled_wards (df : list assigned_listing) : list Z :=
  ward_keys (map Ward (styled df)).

Definition counts_of (df : list assigned_listing) (w : Z)
  : list style_count_row :=
  flat_map (fun c =>
    if pair_count df w c =? 0 then []
    else [{| sc_Ward := w; sc_Listing_Style := c;
             Style_Count := pair_count df w c |}])
    (style_key_list df).

(** [style_counts.groupby("Ward")["Style_Count"].sum()] *)
Definition ward_totals (sc : list style_count_row) : list (Z * Z) :=
  map (fun w => (w, Z_sum (map Style_Count
                             (filter (fun r => sc_Ward r =? w) sc))))
      (ward_keys (map sc_Ward sc)).

Record style_share_row := {
  ss_row : style_count_row;
  Ward_Total : float;
  Style_Share : float
}.

Definition share_row (r : style_count_row) (total : float) : style_share_row :=
  {| ss_row := r;
     Ward_Total := total;
     Style_Share := B64.div (B64.of_Z (Style_Count r)) total |}.

(** The share row of a row of [style_counts], with the ward total spelled
    out as the number of styled listings of the ward. *)
Definition share_of (df : list assigned_listing) (r : style_count_row)
  : style_share_row :=
  share_row r (B64.of_Z (styled_total df (sc_Ward r))).

(** [style_counts.merge(totals, on="Ward", how="left")] followed by
    [Style_Count / Ward_Total]. *)
Definition with_shares (sc : list style_count_row) : list style_share_row :=
  flat_map (fun r =>
    match filter (fun t => fst t =? sc_Ward r) (ward_totals sc) with
    | [] => [share_row r B64.nan]
    | ts => map (fun t => share_row r (B64.of_Z (snd t))) ts
    end) sc.

Record pivot := {
  pv_columns : list string;
  pv_rows : list (Z * list float)
}.

(** One cell of [pivot_table(..., aggfunc="sum", fill_value=0)]. *)
Definition pivot_cell (rows : list style_share_row) (w : Z) (c : string) : float :=
  match filter (fun r => (sc_Ward (ss_row r) =? w) &&
                         String.eqb (sc_Listing_Style (ss_row r)) c) rows with
  | [] => B64.of_Z 0
  | rs => float_sum (map Style_Share rs)
  end.

(** [pivot_table(index="Ward", columns="Listing_Style", ...)] and
    [reset_index()], for categories other than the text Ward, which
    [reset_index] cannot insert beside the index column of that name. *)
Definition style_pivot (rows : list style_share_row) : pivot :=
  let columns := style_keys (map (fun r => sc_Listing_Style (ss_row r)) rows) in
  {| pv_columns := columns;
     pv_rows := map (fun w => (w, map (pivot_cell rows w) columns))
                    (ward_keys (map (fun r => sc_Ward (ss_row r)) rows)) |}.

Fixpoint replace_spaces (s : string) : string :=
  match s with
  | EmptyString => EmptyString
  | String c rest =>
      String (if Ascii.eqb c " "%char then "_"%char else c) (replace_spaces rest)
  end.

(** [f"StyleShare_{str(c).strip().replace(' ', '_')}"] *)
Definition style_column_name (c : string) : string :=
  ("StyleShare_" ++ replace_spaces (strip c))%string.

Definition set_StyleShare (a : ward_agg_row) (cells : list (string * float))
  : ward_agg_row :=
  {| agg_Ward := agg_Ward a;
     Listings := Listings a;
     Median_List_Price := Median_List_Price a;
     Mean_List_Price := Mean_List_Price a;
     Median_WalkScore := Median_WalkScore a;
     StyleShare := cells |}.

(** [ward_agg.merge(style_pivot, on="Ward", how="left")]: a ward without
    a pivot row gets NaN in every style column. *)
Definition merge_style_pivot (ward_agg : list ward_agg_row) (pv : pivot)
  : list ward_agg_row :=
  let names := map style_column_name (pv_columns pv) in
  flat_map (fun a =>
    match filter (fun r => fst r =? agg_Ward a) (pv_rows pv) with
    | [] => [set_StyleShare a (map (fun n => (n, B64.nan)) names)]
    | rs => map (fun r => set_StyleShare a (combine names (snd r))) rs
    end) ward_agg.

(** The categories that get a [StyleShare_] column. *)
Definition style_columns (re_with_ward : list assigned_listing) : list string :=
  pv_columns (style_pivot (with_shares (style_counts re_with_ward))).

(** The ward table written to [OUT_WARD_AGG_PATH]; [has_style_column] says
    whether the listings frame has a [Listing_Style] column. *)
Definition ward_aggregate (has_style_column : bool)
           (re_with_ward : list assigned_listing) : list ward_agg_row :=
  let ward_agg := ward_metrics re_with_ward in
  if has_style_column then
    merge_style_pivot ward_agg
      (style_pivot (with_shares (style_counts re_with_ward)))
  else ward_agg.

(** ** Income join and banding *)

Record income_row := {
  inc_Ward : Z;
  Average_Household_Income : float
}.

(** [income.dropna(subset=["Average_Household_Income"])] *)
Definition clean_income (income : list income_row) : list income_row :=
  filter (fun i => negb (B64.isna (Average_Household_Income i))) income.

Record dashboard_row := {
  dash_income : income_row;
  dash_agg : ward_agg_row;
  Affordability_Ratio : float;
  Affordability_Band : string;
  Ward_Label : string
}.

(** [income.merge(ward_agg, on="Ward", how="inner")]: the pairs of rows
    with equal [Ward], in the order of the left frame. *)
Definition merge_inner (income : list income_row) (ward_agg : list ward_agg_row)
  : list (income_row * ward_agg_row) :=
  flat_map (fun i =>
    map (fun a => (i, a))
        (filter (fun a => inc_Ward i =? agg_Ward a) ward_agg)) income.

Definition dashboard_row_of (ia : income_row * ward_agg_row) : dashboard_row :=
  let (i, a) := ia in
  let ratio := B64.div (Median_List_Price a) (Average_Household_Income i) in
  {| dash_income := i;
     dash_agg := a;
     Affordability_Ratio := ratio;
     Affordability_Band := affordability_band ratio;
     Ward_Label := ("Ward " ++ py_str (PInt (inc_Ward i)))%string |}.

Definition dashboard (income : list income_row) (ward_agg : list ward_agg_row)
  : list dashboard_row :=
  map dashboard_row_of (merge_inner income ward_agg).

(** ** The pipeline of [main]

    From the income rows (ward already an integer), the listing rows
    (price parsed, walk score numeric) and the ward polygons to the two
    tables [main] writes. *)

(** A row of the frame without its index label. *)
Definition unlabelled (a : assigned_listing) : assigned_listing :=
  {| base := {| row_id := 0;
                latitude := latitude (base a);
                longitude := longitude (base a);
                Price := Price (base a);
                walkScore := walkScore (base a);
                Listing_Style := Listing_Style (base a) |};
     Ward := Ward a |}.

Definition set_row_id (i : Z) (r : listing) : listing :=
  {| row_id := i;
     latitude := latitude r;
     longitude := longitude r;
     Price := Price r;
     walkScore := walkScore r;
     Listing_Style := Listing_Style r |}.

(** The index [pd.read_csv] gives the rows of a file: 0, 1, 2, ... *)
Fixpoint range_index_from (i : Z) (rows : list listing) : list listing :=
  match rows with
  | [] => []
  | r :: rest => set_row_id i r :: range_index_from (i + 1) rest
  end.

Definition range_index (rows : list listing) : list listing :=
  range_index_from 0 rows.

Section Pipeline.
Variable polygon : Type.
Variable covers : polygon -> point -> bool.

(** The frame [re_with_ward]: the rows of the file under the index of
    [read_csv], without those that miss a key field, assigned to wards. *)
Definition main_re_with_ward (re_csv : list listing)
           (ward_polygons : list (ward_polygon polygon))
  : list assigned_listing :=
  assign_ward_to_points polygon covers
    (drop_missing_key_fields (range_index re_csv)) ward_polygons.

(** The rows of the file that reach the tables, with their wards, in the
    order of the file and under the labels they came with. *)
Definition rows_with_ward (re_csv : list listing)
           (ward_polygons : list (ward_polygon polygon))
  : list assigned_listing :=
  flat_map (assigned_of polygon covers (wards_of polygon ward_polygons))
           (drop_missing_key_fields re_csv).

Definition main (income_csv : list income_row) (re_csv : list listing)
           (has_style_column : bool)
           (ward_polygons : list (ward_polygon polygon))
  : list ward_agg_row * list dashboard_row :=
  let income := clean_income income_csv in
  let ward_agg :=
    ward_aggregate has_style_column (main_re_with_ward re_csv ward_polygons) in
  (ward_agg, dashboard income ward_agg).
End Pipeline.

(** ** A concrete geometry for worked examples: axis-parallel rectangles,
    closed on their boundary *)

Record box := {
  x_min : float;
  x_max : float;
  y_min : float;
  y_max : float
}.

Definition box_covers (b : box) (p : point) : bool :=
  B64.leb (x_min b) (pt_x p) && B64.leb (pt_x p) (x_max b) &&
  B64.leb (y_min b) (pt_y p) && B64.leb (pt_y p) (y_max b).

Definition mk_box (x0 x1 y0 y1 : Z) : box :=
  {| x_min := B64.of_Z x0; x_max := B64.of_Z x1;
     y_min := B64.of_Z y0; y_max := B64.of_Z y1 |}.

Definition mk_listing (id lon lat price : Z) (style : option string) : listing :=
  {| row_id := id;
     latitude := B64.of_Z lat;
     longitude := B64.of_Z lon;
     Price := B64.of_Z price;
     walkScore := B64.nan;
     Listing_Style := style |}.

(** Two wards side by side, sharing the edge [x = 10]. *)
Definition two_wards : list (ward_polygon box) :=
  [ {| ward_id := 1; geometry := mk_box 0 10 0 10 |};
    {| ward_id := 2; geometry := mk_box 10 20 0 10 |} ].

(** The end-to-end scenario of the specification: three listings in ward
    1, two in ward 2 and one outside every polygon. *)
Definition scenario_listings : list listing :=
  [ mk_listing 0 1 1 500000 None;
    mk_listing 1 2 2 520000 None;
    mk_listing 2 3 3 600000 None;
    mk_listing 3 11 1 700000 None;
    mk_listing 4 12 2 720000 None;
    mk_listing 5 50 50 900000 None ].

(** A listing on the edge the two wards share. *)
Definition boundary_listing : listing := mk_listing 7 10 5 650000 None.

(** A listing outside both wards. *)
Definition outside_listing : listing := mk_listing 5 50 50 900000 None.

(** A ward whose income is recorded as zero. *)
Definition zero_income : list income_row :=
  [ {| inc_Ward := 1; Average_Household_Income := B64.of_Z 0 |} ].

Definition one_listing_ward_1 : list listing :=
  [ mk_listing 0 1 1 800000 None ].

(** The income table lists ward 1 twice. *)
Definition repeated_income : list income_row :=
  [ {| inc_Ward := 1; Average_Household_Income := B64.of_Z 150000 |};
    {| inc_Ward := 1; Average_Household_Income := B64.of_Z 160000 |} ].

(** Ward 1 has a single listing without a style; ward 2 has a styled one. *)
Definition unstyled_ward_listings : list listing :=
  [ mk_listing 0 1 1 500000 None;
    mk_listing 1 11 1 700000 (Some "Detached"%string) ].

(** Ward 1 lists a detached house and a condo, ward 2 a detached house. *)
Definition styled_listings : list listing :=
  [ mk_listing 0 1 1 500000 (Some "Detached"%string);
    mk_listing 1 2 2 300000 (Some "Condo"%string);
    mk_listing 2 11 1 700000 (Some "Detached"%string) ].

Definition empty_ward_row : ward_agg_row :=
  {| agg_Ward := 0; Listings := 0;
     Median_List_Price := B64.nan; Mean_List_Price := B64.nan;
     Median_WalkScore := B64.nan; StyleShare := [] |}.

(** The row of ward 1 in the end-to-end scenario. *)
Definition scenario_ward_1 : ward_agg_row :=
  nth 0 (fst (main box box_covers [] scenario_listings false two_wards))
      empty_ward_row.

(** The row of ward 1 for [styled_listings]. *)
Definition styled_ward_1 : ward_agg_row :=
  nth 0 (fst (main box box_covers [] styled_listings true two_wards))
      empty_ward_row.

(** ** Further definitions for the properties of the pipeline *)

(** A listing that [assign_ward_to_points] can place: both coordinates
    present and some polygon covering its point. *)
Definition assignable {polygon : Type} (covers : polygon -> point -> bool)
           (ward_polygons : list (ward_polygon polygon)) (row : listing) : bool :=
  negb (bad_coordinates row) &&
  existsb (fun wp => covers (geometry wp) (listing_point row)) ward_polygons.

(** No point of a listing is claimed by two different wards. *)
Definition unambiguous {polygon : Type} (covers : polygon -> point -> bool)
           (ward_polygons : list (ward_polygon polygon))
           (listings_df : list listing) : Prop :=
  forall row wp1 wp2,
    In row listings_df -> In wp1 ward_polygons -> In wp2 ward_polygons ->
    covers (geometry wp1) (listing_point row) = true ->
    covers (geometry wp2) (listing_point row) = true ->
    ward_id wp1 = ward_id wp2.

(** Three listings of the scenario, each strictly inside one ward. *)
Definition inner_listings : list listing :=
  [ mk_listing 0 1 1 500000 None;
    mk_listing 1 2 2 520000 None;
    mk_listing 3 11 1 700000 None ].

Definition is_inf (x : float) : bool :=
  match x with S754_infinity _ => true | _ => false end.

(** The bands in the order of their thresholds; "Unknown" has no level. *)
Definition risk_level (band : string) : Z :=
  if String.eqb band band_more_affordable then 0
  else if String.eqb band band_stretched then 1
  else if String.eqb band band_high_risk then 2
  else if String.eqb band band_severe_risk then 3
  else -1.

(** The number that the digits read so far, [acc], and the decimal numeral
    [d] after them denote together. *)
Fixpoint uint_value (acc : Z) (d : Decimal.uint) : Z :=
  match d with
  | Decimal.Nil => acc
  | Decimal.D0 d => uint_value (10 * acc + 0) d
  | Decimal.D1 d => uint_value (10 * acc + 1) d
  | Decimal.D2 d => uint_value (10 * acc + 2) d
  | Decimal.D3 d => uint_value (10 * acc + 3) d
  | Decimal.D4 d => uint_value (10 * acc + 4) d
  | Decimal.D5 d => uint_value (10 * acc + 5) d
  | Decimal.D6 d => uint_value (10 * acc + 6) d
  | Decimal.D7 d => uint_value (10 * acc + 7) d
  | Decimal.D8 d => uint_value (10 * acc + 8) d
  | Decimal.D9 d => uint_value (10 * acc + 9) d
  end.

Fixpoint string_forallb (p : ascii -> bool) (s : string) : bool :=
  match s with
  | EmptyString => true
  | String c rest => p c && string_forallb p rest
  end.

(** Every value of field [k] parses to a plausible ward number. *)
Definition all_plausible (features : list properties) (k : string) : Prop :=
  forall f, In f features ->
    exists iv, try_int (dict_get f k) = Some iv /\ 1 <= iv <= 30.

(** ** From the GeoJSON features to the ward polygons: [main], lines 226-235 *)

(** The message of the [ValueError] that [int] raises on a text (quoted as
    Python quotes a text without quotes or escapes). *)
Definition invalid_literal (s : string) : exn :=
  ValueError ("invalid literal for int() with base 10: '" ++ s ++ "'")%string.

Section GeoJSON.
(** The geometry library: GeoJSON geometries, [shape] and polygons. *)
Variable geometry_json : Type.
Variable polygon : Type.
Variable shape : geometry_json -> polygon.

Record feature := {
  feature_properties : properties;
  feature_geometry : geometry_json
}.

(** The loop that builds [ward_polygons]: it stops with the error of the
    first value that [int] rejects. *)
Fixpoint build_ward_polygons (features : list feature) (ward_id_field : string)
  : result (list (ward_polygon polygon)) :=
  match features with
  | [] => Ok []
  | f :: rest =>
      let text := strip (py_str (dict_get (feature_properties f) ward_id_field)) in
      match py_int text with
      | None => Raise (invalid_literal text)
      | Some ward_id =>
          match build_ward_polygons rest ward_id_field with
          | Raise e => Raise e
          | Ok ward_polygons =>
              Ok ({| ward_id := ward_id;
                     geometry := shape (feature_geometry f) |} :: ward_polygons)
          end
      end
  end.
End GeoJSON.

Arguments feature_properties {geometry_json} _.
Arguments feature_geometry {geometry_json} _.

(** Two features whose NAME is text and whose WARD is a number in the
    first and missing in the second. *)
Definition half_numbered_features : list (feature box) :=
  [ {| feature_properties := [("NAME", PStr "Orleans"); ("WARD", PInt 1)]%string;
       feature_geometry := mk_box 0 10 0 10 |};
    {| feature_properties := [("NAME", PStr "Innes"); ("WARD", PNone)]%string;
       feature_geometry := mk_box 10 20 0 10 |} ].

Definition numbered_features : list (feature box) :=
  [ {| feature_properties := [("NAME", PStr "Orleans"); ("WARD", PInt 1)]%string;
       feature_geometry := mk_box 0 10 0 10 |};
    {| feature_properties := [("NAME", PStr "Innes"); ("WARD", PStr " 2 ")]%string;
       feature_geometry := mk_box 10 20 0 10 |} ].

(** ** Price texts: [parse_money_to_float] *)

Definition is_digit (c : ascii) : bool :=
  match digit_of c with Some _ => true | None => false end.

Definition dot : ascii := ascii_of_nat 46.
Definition minus : ascii := ascii_of_nat 45.
Definition double_quote : ascii := ascii_of_nat 34.

(** The characters that the substitution of [parse_money_to_float] keeps:
    digits, the dot and the minus sign. *)
Definition is_money_char (c : ascii) : bool :=
  is_digit c || Ascii.eqb c dot || Ascii.eqb c minus.

Fixpoint string_filter (p : ascii -> bool) (s : string) : string :=
  match s with
  | EmptyString => EmptyString
  | String c rest =>
      if p c then String c (string_filter p rest) else string_filter p rest
  end.

(** The text a price is read from: [str(x).strip()], the double quotes
    taken out, [strip] again, then everything but digits, dots and minus
    signs taken out. *)
Definition money_text (x : pyval) : string :=
  let s := strip (py_str x) in
  let s := strip (string_filter (fun c => negb (Ascii.eqb c double_quote)) s) in
  string_filter is_money_char s.

(** Digits with at most one dot among them: the digits read as one
    integer, and the number of digits after the dot.  [None] without any
    digit, on a second dot and on a minus sign. *)
Fixpoint scan_decimal (seen_dot any_digit : bool) (n k : Z) (s : string)
  : option (Z * Z) :=
  match s with
  | EmptyString => if any_digit then Some (n, k) else None
  | String c rest =>
      match digit_of c with
      | Some d =>
          scan_decimal seen_dot true (10 * n + d) (if seen_dot then k + 1 else k) rest
      | None =>
          if Ascii.eqb c dot && negb seen_dot
          then scan_decimal true any_digit n k rest
          else None
      end
  end.

(** The binary64 number nearest to [n / 10^k] (ties to even), with the
    sign bit [neg]: the integers are divided exactly and the quotient is
    rounded once. *)
Definition decimal_to_float (neg : bool) (n k : Z) : float :=
  match n with
  | Zpos m =>
      SFdiv B64.prec B64.emax
            (S754_finite neg m 0) (S754_finite false (Z.to_pos (10 ^ k)) 0)
  | _ => S754_zero neg
  end.

(** [float(s)] for a text of digits, dots and minus signs; [None] where
    Python raises [ValueError]. *)
Definition py_float_money (s : string) : option float :=
  let (neg, body) :=
    match s with
    | String c rest => if Ascii.eqb c minus then (true, rest) else (false, s)
    | EmptyString => (false, s)
    end in
  match scan_decimal false false 0 0 body with
  | Some (n, k) => Some (decimal_to_float neg n k)
  | None => None
  end.

(** [parse_money_to_float(x)]; [PNone] is the missing cell, for which
    [pd.isna] holds. *)
Definition parse_money_to_float (x : pyval) : float :=
  match x with
  | PNone => B64.nan
  | _ =>
      let s := money_text x in
      if String.eqb s EmptyString || String.eqb s "." || String.eqb s "-" || String.eqb s "-."
      then B64.nan
      else match py_float_money s with
           | Some f => f
           | None => B64.nan
           end
  end%string.

(** A row of the listings file as [main] reads it: the price is still the
    cell of the file; the coordinates and the walk score are numeric. *)
Record raw_listing := {
  raw_id : Z;
  raw_latitude : float;
  raw_longitude : float;
  raw_price : pyval;
  raw_walkScore : float;
  raw_style : option string
}.

(** [re_df["Price"] = re_df["price"].apply(parse_money_to_float)] *)
Definition parse_price (r : raw_listing) : listing :=
  {| row_id := raw_id r;
     latitude := raw_latitude r;
     longitude := raw_longitude r;
     Price := parse_money_to_float (raw_price r);
     walkScore := raw_walkScore r;
     Listing_Style := raw_style r |}.

Section RawPipeline.
Variable polygon : Type.
Variable covers : polygon -> point -> bool.

(** [main] from the listings file on. *)
Definition main_raw (income_csv : list income_row) (raw : list raw_listing)
           (has_style_column : bool)
           (ward_polygons : list (ward_polygon polygon))
  : list ward_agg_row * list dashboard_row :=
  main polygon covers income_csv (map parse_price raw) has_style_column
       ward_polygons.
End RawPipeline.

Definition has_digit (s : string) : bool :=
  negb (string_forallb (fun c => negb (is_digit c)) s).

Definition mk_raw (id lon lat : Z) (price : pyval) : raw_listing :=
  {| raw_id := id;
     raw_latitude := B64.of_Z lat;
     raw_longitude := B64.of_Z lon;
     raw_price := price;
     raw_walkScore := B64.nan;
     raw_style := None |}.



(** ** The cells that do not depend on the order of the listings *)

(** The cells of a ward row other than the mean price, which is a
    running sum of rounded additions. *)
Definition order_free_cells (a : ward_agg_row)
  : Z * Z * float * float * list (string * float) :=
  (agg_Ward a, Listings a, Median_List_Price a, Median_WalkScore a, StyleShare a).

Definition dashboard_order_free_cells (d : dashboard_row)
  : income_row * (Z * Z * float * float * list (string * float)) *
    float * string * string :=
  (dash_income d, order_free_cells (dash_agg d), Affordability_Ratio d,
   Affordability_Band d, Ward_Label d).

(** A number other than the negative zero. *)
Definition not_negative_zero (x : float) : Prop := x <> S754_zero true.

(** The dashboard row of ward 1 in the end-to-end scenario, against an
    income recorded as zero. *)
Definition scenario_dashboard_row : dashboard_row :=
  dashboard_row_of ({| inc_Ward := 1; Average_Household_Income := B64.of_Z 0 |},
                    scenario_ward_1).

(** Two rows under one index label: the first lies outside every ward of
    [two_wards], the second inside ward 1. *)
Definition uncovered_row_0 : listing := mk_listing 0 50 50 900000 None.
Definition covered_row_0 : listing := mk_listing 0 1 1 500000 None.

(** * Properties *)

(** ** Order of binary64 numbers

    On valid binary64 values the comparison of [SpecFloat] (exponent first,
    then mantissa) is the order of the rational numbers they stand for. *)

Module B64Facts.
Import B64.

(** Size of a mantissa in bits. *)
Lemma digits2_bounds (m : positive) :
  2 ^ (Zpos (digits2_pos m) - 1) <= Zpos m < 2 ^ Zpos (digits2_pos m).
Proof.
  induction m as [m IH | m IH |]; cbn [digits2_pos].
  - rewrite Pos2Z.inj_succ.
    replace (Z.succ (Zpos (digits2_pos m)) - 1)
      with (Z.succ (Zpos (digits2_pos m) - 1)) by lia.
    rewrite !Z.pow_succ_r by lia. lia.
  - rewrite Pos2Z.inj_succ.
    replace (Z.succ (Zpos (digits2_pos m)) - 1)
      with (Z.succ (Zpos (digits2_pos m) - 1)) by lia.
    rewrite !Z.pow_succ_r by lia. lia.
  - cbn. lia.
Qed.

(** What [valid_binary] says about a finite number. *)
Lemma bounded_inv (m : positive) (e : Z) :
  bounded prec emax m e = true ->
  -1074 <= e <= 971 /\ Zpos m < 2 ^ 53 /\ (e = -1074 \/ 2 ^ 52 <= Zpos m).
Proof.
  unfold bounded, canonical_mantissa, fexp, emin, prec, emax.
  intros H. apply andb_true_iff in H as [Hc He].
  apply Z.eqb_eq in Hc. apply Z.leb_le in He.
  pose proof (digits2_bounds m) as [Hlo Hhi].
  set (d := Zpos (digits2_pos m)) in *.
  assert (Hd : 0 < d) by (unfold d; lia).
  assert (Hd53 : d <= 53) by lia.
  split; [lia|]. split.
  - eapply Z.lt_le_trans; [exact Hhi|].
    apply Z.pow_le_mono_r; lia.
  - destruct (Z.eq_dec e (-1074)) as [->|Hne]; [now left|right].
    assert (d = 53) by lia.
    replace (d - 1) with 52 in Hlo by lia. exact Hlo.
Qed.

Lemma Qpower_2_pos (e : Z) : (0 < Qpower 2 e)%Q.
Proof. apply Qpower_0_lt. reflexivity. Qed.

Lemma to_Q_scaled (x : float) :
  valid x = true ->
  (to_Q x == inject_Z (scaled x) * Qpower 2 (-1074))%Q.
Proof.
  destruct x as [s | s | | s m e]; cbn [to_Q scaled valid valid_binary];
    intros Hv; try (rewrite Qmult_0_l; reflexivity).
  apply bounded_inv in Hv as [He _].
  assert (Hm : (inject_Z (Zpos m) * Qpower 2 e ==
                inject_Z (Zpos m * 2 ^ (e + 1074)) * Qpower 2 (-1074))%Q).
  { rewrite inject_Z_mult, Zpower_Qpower by lia.
    rewrite <- Qmult_assoc, <- Qpower_plus by discriminate.
    replace (e + 1074 + -1074) with e by lia. reflexivity. }
  destruct s.
  - rewrite Hm, inject_Z_opp. ring.
  - exact Hm.
Qed.

Lemma Qcompare_scale (a b : Z) (c : Q) :
  (0 < c)%Q ->
  (inject_Z a * c ?= inject_Z b * c)%Q = (a ?= b).
Proof.
  intros Hc. destruct (Z.compare_spec a b) as [Heq | Hlt | Hgt].
  - subst. apply Qeq_alt. reflexivity.
  - apply Qlt_alt. apply Qmult_lt_r; [exact Hc|].
    rewrite <- Zlt_Qlt. exact Hlt.
  - apply Qgt_alt. apply Qmult_lt_r; [exact Hc|].
    rewrite <- Zlt_Qlt. exact Hgt.
Qed.

Lemma to_Q_compare (x y : float) :
  valid x = true -> valid y = true ->
  (to_Q x ?= to_Q y)%Q = (scaled x ?= scaled y).
Proof.
  intros Hx Hy.
  rewrite (Qcompare_comp _ _ (to_Q_scaled x Hx) _ _ (to_Q_scaled y Hy)).
  apply Qcompare_scale, Qpower_2_pos.
Qed.

(** Magnitudes: a smaller exponent means a smaller number. *)
Lemma mag_lt_of_exp_lt (m1 m2 : positive) (e1 e2 : Z) :
  bounded prec emax m1 e1 = true -> bounded prec emax m2 e2 = true ->
  e1 < e2 ->
  Zpos m1 * 2 ^ (e1 + 1074) < Zpos m2 * 2 ^ (e2 + 1074).
Proof.
  intros H1 H2 Hlt.
  apply bounded_inv in H1 as [He1 [Hm1 _]].
  apply bounded_inv in H2 as [He2 [_ Hm2]].
  destruct Hm2 as [-> | Hm2]; [lia|].
  replace (e2 + 1074) with ((e2 - e1 - 1) + 1 + (e1 + 1074)) by lia.
  rewrite (Z.pow_add_r 2 (e2 - e1 - 1 + 1) (e1 + 1074)) by lia.
  rewrite (Z.pow_add_r 2 (e2 - e1 - 1) 1) by lia.
  assert (HP : 0 < 2 ^ (e1 + 1074)) by (apply Z.pow_pos_nonneg; lia).
  assert (HK : 0 < 2 ^ (e2 - e1 - 1)) by (apply Z.pow_pos_nonneg; lia).
  change (2 ^ 1) with 2.
  set (P := 2 ^ (e1 + 1074)) in *. set (K := 2 ^ (e2 - e1 - 1)) in *.
  apply Z.lt_le_trans with (2 ^ 53 * P).
  - apply Z.mul_lt_mono_pos_r; assumption.
  - replace (Zpos m2 * (K * 2 * P)) with ((Zpos m2 * 2 * K) * P) by ring.
    apply Z.mul_le_mono_nonneg_r; [lia|].
    change (2 ^ 53) with (2 ^ 52 * 2 * 1).
    apply Z.mul_le_mono_nonneg; lia.
Qed.

Lemma mag_compare (m1 m2 : positive) (e1 e2 : Z) :
  bounded prec emax m1 e1 = true -> bounded prec emax m2 e2 = true ->
  (Zpos m1 * 2 ^ (e1 + 1074) ?= Zpos m2 * 2 ^ (e2 + 1074)) =
  match e1 ?= e2 with
  | Lt => Lt
  | Gt => Gt
  | Eq => Pos.compare_cont Eq m1 m2
  end.
Proof.
  intros H1 H2. destruct (Z.compare_spec e1 e2) as [Heq | Hlt | Hgt].
  - subst e2. apply bounded_inv in H1 as [He1 _].
    change (Pos.compare_cont Eq m1 m2) with (Zpos m1 ?= Zpos m2).
    symmetry. apply Zmult_compare_compat_r.
    apply Z.lt_gt, Z.pow_pos_nonneg; lia.
  - apply Z.compare_lt_iff. now apply mag_lt_of_exp_lt.
  - apply Z.compare_gt_iff. now apply mag_lt_of_exp_lt.
Qed.

Lemma mag_pos (m : positive) (e : Z) :
  -1074 <= e -> 0 < Zpos m * 2 ^ (e + 1074).
Proof.
  intros He. apply Z.mul_pos_pos; [lia|]. apply Z.pow_pos_nonneg; lia.
Qed.

(** [SFcompare] on finite valid numbers is the comparison of the values. *)
Lemma SFcompare_scaled (x y : float) :
  valid x = true -> valid y = true ->
  is_finite x = true -> is_finite y = true ->
  SFcompare x y = Some (scaled x ?= scaled y).
Proof.
  destruct x as [sx | sx | | sx mx ex]; destruct y as [sy | sy | | sy my ey];
    cbn [is_finite valid valid_binary]; intros Hx Hy Fx Fy;
    try discriminate; cbn [SFcompare scaled].
  - reflexivity.
  - pose proof (bounded_inv _ _ Hy) as [He _].
    pose proof (mag_pos my ey ltac:(lia)).
    destruct sy; f_equal; symmetry;
      [apply Z.compare_gt_iff | apply Z.compare_lt_iff]; lia.
  - pose proof (bounded_inv _ _ Hx) as [He _].
    pose proof (mag_pos mx ex ltac:(lia)).
    destruct sx; f_equal; symmetry;
      [apply Z.compare_lt_iff | apply Z.compare_gt_iff]; lia.
  - pose proof (bounded_inv _ _ Hx) as [Hex _].
    pose proof (bounded_inv _ _ Hy) as [Hey _].
    pose proof (mag_pos mx ex ltac:(lia)).
    pose proof (mag_pos my ey ltac:(lia)).
    destruct sx, sy; f_equal.
    + rewrite Z.compare_opp.
      rewrite (Z.compare_antisym (Zpos mx * 2 ^ (ex + 1074))).
      rewrite (mag_compare mx my ex ey Hx Hy).
      destruct (ex ?= ey); reflexivity.
    + symmetry. apply Z.compare_lt_iff. lia.
    + symmetry. apply Z.compare_gt_iff. lia.
    + symmetry. apply mag_compare; assumption.
Qed.

Lemma SFcompare_to_Q (x y : float) :
  valid x = true -> valid y = true ->
  is_finite x = true -> is_finite y = true ->
  SFcompare x y = Some (to_Q x ?= to_Q y)%Q.
Proof.
  intros Hx Hy Fx Fy. rewrite to_Q_compare by assumption.
  now apply SFcompare_scaled.
Qed.

Lemma ltb_to_Q (x y : float) :
  valid x = true -> valid y = true ->
  is_finite x = true -> is_finite y = true ->
  ltb x y = true <-> (to_Q x < to_Q y)%Q.
Proof.
  intros Hx Hy Fx Fy. unfold ltb, SFltb.
  rewrite (SFcompare_to_Q x y Hx Hy Fx Fy), Qlt_alt.
  destruct (to_Q x ?= to_Q y)%Q; split; congruence.
Qed.

Lemma ltb_false_to_Q (x y : float) :
  valid x = true -> valid y = true ->
  is_finite x = true -> is_finite y = true ->
  ltb x y = false <-> (to_Q y <= to_Q x)%Q.
Proof.
  intros Hx Hy Fx Fy. unfold ltb, SFltb.
  rewrite (SFcompare_to_Q x y Hx Hy Fx Fy), Qle_alt.
  rewrite <- (Qcompare_antisym (to_Q x) (to_Q y)).
  destruct (to_Q x ?= to_Q y)%Q; cbn; split; congruence.
Qed.

(** A small integer converts exactly. *)
Lemma of_Z_4 : valid (of_Z 4) = true /\ is_finite (of_Z 4) = true /\ (to_Q (of_Z 4) == 4)%Q.
Proof. repeat split. Qed.

Lemma of_Z_6 : valid (of_Z 6) = true /\ is_finite (of_Z 6) = true /\ (to_Q (of_Z 6) == 6)%Q.
Proof. repeat split. Qed.

Lemma of_Z_8 : valid (of_Z 8) = true /\ is_finite (of_Z 8) = true /\ (to_Q (of_Z 8) == 8)%Q.
Proof. repeat split. Qed.

End B64Facts.

(** ** The band classifier *)

Section Bands.
Import B64 B64Facts.

Lemma band_labels_distinct :
  NoDup [band_unknown; band_more_affordable; band_stretched;
         band_high_risk; band_severe_risk].
Proof.
  repeat constructor; cbn [In]; intuition discriminate.
Qed.

(** The three comparisons of a finite number, as facts about its value. *)
Lemma lt_threshold (r : float) (n : Z) :
  valid r = true -> is_finite r = true ->
  valid (of_Z n) = true -> is_finite (of_Z n) = true ->
  (to_Q (of_Z n) == inject_Z n)%Q ->
  (ltb r (of_Z n) = true <-> (to_Q r < inject_Z n)%Q) /\
  (ltb r (of_Z n) = false <-> (inject_Z n <= to_Q r)%Q).
Proof.
  intros Hr Fr Hn Fn Hq. split.
  - rewrite (ltb_to_Q r (of_Z n)) by assumption. now rewrite Hq.
  - rewrite (ltb_false_to_Q r (of_Z n)) by assumption. now rewrite Hq.
Qed.

Lemma band_of_finite (r : float) :
  valid r = true -> is_finite r = true ->
  affordability_band r =
    if Qlt_le_dec (to_Q r) 4 then band_more_affordable
    else if Qlt_le_dec (to_Q r) 6 then band_stretched
    else if Qlt_le_dec (to_Q r) 8 then band_high_risk
    else band_severe_risk.
Proof.
  intros Hr Fr.
  destruct (lt_threshold r 4 Hr Fr) as [T4 F4]; try reflexivity.
  destruct (lt_threshold r 6 Hr Fr) as [T6 F6]; try reflexivity.
  destruct (lt_threshold r 8 Hr Fr) as [T8 F8]; try reflexivity.
  change (inject_Z 4) with 4%Q in *. change (inject_Z 6) with 6%Q in *.
  change (inject_Z 8) with 8%Q in *.
  unfold affordability_band.
  assert (Hna : isna r = false) by (destruct r; try discriminate; reflexivity).
  rewrite Hna.
  destruct (Qlt_le_dec (to_Q r) 4) as [L4 | G4].
  { apply T4 in L4. now rewrite L4. }
  apply F4 in G4. rewrite G4.
  destruct (Qlt_le_dec (to_Q r) 6) as [L6 | G6].
  { apply T6 in L6. now rewrite L6. }
  apply F6 in G6. rewrite G6.
  destruct (Qlt_le_dec (to_Q r) 8) as [L8 | G8].
  { apply T8 in L8. now rewrite L8. }
  apply F8 in G8. now rewrite G8.
Qed.

(** A number with the sign bit set is below 4, whatever it is. *)
Lemma band_of_signed (r : float) :
  isna r = false -> sign r = true ->
  affordability_band r = band_more_affordable.
Proof.
  destruct r as [s | s | | s m e]; cbn [isna sign]; intros Hn Hs;
    try discriminate; subst s; reflexivity.
Qed.

Lemma to_Q_neg_sign (r : float) :
  (to_Q r < 0)%Q -> sign r = true /\ isna r = false.
Proof.
  destruct r as [s | s | | s m e]; cbn [to_Q sign isna]; intros H;
    try (exfalso; revert H; apply Qlt_irrefl).
  destruct s; [split; reflexivity|].
  exfalso. apply (Qlt_irrefl 0).
  eapply Qlt_trans; [|exact H].
  apply Qmult_lt_0_compat; [reflexivity | apply Qpower_2_pos].
Qed.

Lemma band_in_labels (r : float) :
  In (affordability_band r)
     [band_unknown; band_more_affordable; band_stretched;
      band_high_risk; band_severe_risk].
Proof.
  unfold affordability_band. cbn [In].
  destruct (isna r); [tauto|].
  destruct (ltb r (of_Z 4)); [tauto|].
  destruct (ltb r (of_Z 6)); [tauto|].
  destruct (ltb r (of_Z 8)); tauto.
Qed.
End Bands.

(** C1: on every finite non-negative ratio the classifier returns exactly
    one of the four threshold bands, the one whose range (closed below,
    open above) holds the ratio: below 4 "More Affordable", from 4 to
    below 6 "Stretched", from 6 to below 8 "High Risk", from 8 on
    "Severe Risk"; and 4.0 itself is "Stretched". *)
Theorem affordability_band_thresholds (r : float) :
  B64.valid r = true -> B64.is_finite r = true -> (0 <= B64.to_Q r)%Q ->
  (affordability_band r = band_more_affordable <-> (B64.to_Q r < 4)%Q) /\
  (affordability_band r = band_stretched <-> (4 <= B64.to_Q r < 6)%Q) /\
  (affordability_band r = band_high_risk <-> (6 <= B64.to_Q r < 8)%Q) /\
  (affordability_band r = band_severe_risk <-> (8 <= B64.to_Q r)%Q) /\
  affordability_band r <> band_unknown /\
  affordability_band (B64.of_Z 4) = band_stretched.
Proof.
  intros Hr Fr _. rewrite (band_of_finite r Hr Fr).
  destruct (Qlt_le_dec (B64.to_Q r) 4) as [L4 | G4];
    [|destruct (Qlt_le_dec (B64.to_Q r) 6) as [L6 | G6];
      [|destruct (Qlt_le_dec (B64.to_Q r) 8) as [L8 | G8]]];
    repeat split; intros; try discriminate; try reflexivity; try lra.
Qed.

Lemma affordability_band_thresholds_witness :
  affordability_band (B64.of_Z 5) = band_stretched.
Proof.
  destruct (affordability_band_thresholds (B64.of_Z 5)) as (_ & H & _).
  - reflexivity.
  - reflexivity.
  - vm_compute. intros H0. discriminate H0.
  - apply H. split; vm_compute; [intros H0; discriminate H0 | reflexivity].
Defined.

(** C10: the classifier is total on all floats: NaN gives "Unknown",
    positive infinity "Severe Risk", every negative number and negative
    infinity "More Affordable"; the result is always one of the five
    labels, which are pairwise different. *)
Theorem affordability_band_total (r : float) :
  In (affordability_band r)
     [band_unknown; band_more_affordable; band_stretched;
      band_high_risk; band_severe_risk] /\
  NoDup [band_unknown; band_more_affordable; band_stretched;
         band_high_risk; band_severe_risk] /\
  (B64.isna r = true -> affordability_band r = band_unknown) /\
  (r = B64.pinf -> affordability_band r = band_severe_risk) /\
  (r = B64.ninf \/ (B64.to_Q r < 0)%Q ->
   affordability_band r = band_more_affordable).
Proof.
  split; [apply band_in_labels|]. split; [apply band_labels_distinct|].
  split; [|split].
  - intros H. unfold affordability_band. now rewrite H.
  - intros ->. reflexivity.
  - intros [-> | H]; [reflexivity|].
    apply to_Q_neg_sign in H as [Hs Hn]. now apply band_of_signed.
Qed.

Lemma affordability_band_total_witness :
  affordability_band B64.nan = band_unknown /\
  affordability_band B64.pinf = band_severe_risk /\
  affordability_band (B64.of_Z (-3)) = band_more_affordable.
Proof.
  split; [|split].
  - apply (affordability_band_total B64.nan). reflexivity.
  - apply (affordability_band_total B64.pinf). reflexivity.
  - apply (affordability_band_total (B64.of_Z (-3))). right. reflexivity.
Defined.

(** ** The ratio of a dashboard row *)

Lemma div_nan_l (y : float) : B64.div B64.nan y = B64.nan.
Proof. reflexivity. Qed.

Lemma div_nan_r (x : float) : B64.div x B64.nan = B64.nan.
Proof. destruct x; reflexivity. Qed.

Lemma isna_nan (x : float) : B64.isna x = true -> x = B64.nan.
Proof. destruct x; cbn; intros H; try discriminate; reflexivity. Qed.

(** Division by a zero gives an infinity, unless the numerator is a zero
    or NaN. *)
Lemma div_by_zero (x : float) (s : bool) :
  B64.isna x = false -> B64.is_zero x = false ->
  B64.div x (S754_zero s) = S754_infinity (xorb (B64.sign x) s).
Proof.
  destruct x; cbn; intros Hn Hz; try discriminate; reflexivity.
Qed.

(** C2, counterexample: ward 1 has one listing of 800000 and a recorded
    income of 0; its dashboard row has an infinite ratio and the band
    "Severe Risk (8x+)", not "Unknown". *)
Lemma zero_income_reaches_threshold_band :
  exists row,
    snd (main box box_covers zero_income one_listing_ward_1 true two_wards) = [row] /\
    B64.is_zero (Average_Household_Income (dash_income row)) = true /\
    Affordability_Ratio row = B64.pinf /\
    Affordability_Band row = band_severe_risk /\
    Affordability_Band row <> band_unknown.
Proof.
  eexists. split; [vm_compute; reflexivity|].
  cbn. repeat split. discriminate.
Qed.

(** C2, amended: a dashboard row whose income or median price is missing
    gets the band "Unknown".  A zero income raises nothing either, but is
    not held back from the threshold comparisons: over a median price that
    is neither zero nor missing the ratio is an infinity and the band is a
    threshold band, "Severe Risk (8x+)" when the infinity is positive. *)
Theorem band_of_missing_or_zero_income (i : income_row) (a : ward_agg_row) :
  (B64.isna (Average_Household_Income i) = true \/
   B64.isna (Median_List_Price a) = true ->
   Affordability_Band (dashboard_row_of (i, a)) = band_unknown) /\
  (forall s, Average_Household_Income i = S754_zero s ->
     B64.isna (Median_List_Price a) = false ->
     B64.is_zero (Median_List_Price a) = false ->
     Affordability_Ratio (dashboard_row_of (i, a)) =
       S754_infinity (xorb (B64.sign (Median_List_Price a)) s) /\
     Affordability_Band (dashboard_row_of (i, a)) =
       (if xorb (B64.sign (Median_List_Price a)) s
        then band_more_affordable else band_severe_risk)).
Proof.
  cbn [dashboard_row_of Affordability_Band Affordability_Ratio]. split.
  - intros [H | H]; apply isna_nan in H; rewrite H.
    + now rewrite div_nan_r.
    + now rewrite div_nan_l.
  - intros s Hi Hn Hz. rewrite Hi, (div_by_zero _ s Hn Hz).
    split; [reflexivity|]. now destruct (xorb _ s).
Qed.

Lemma band_of_missing_or_zero_income_witness :
  Affordability_Band
    (dashboard_row_of
       ({| inc_Ward := 1; Average_Household_Income := B64.nan |},
        {| agg_Ward := 1; Listings := 1;
           Median_List_Price := B64.of_Z 800000;
           Mean_List_Price := B64.of_Z 800000;
           Median_WalkScore := B64.nan; StyleShare := [] |})) = band_unknown.
Proof.
  apply band_of_missing_or_zero_income. left. reflexivity.
Defined.

(** ** Field inference *)

Section FieldInference.
Variable features : list properties.

Lemma ok_count_spec (k : string) :
  ok_count features k = parse_successes features k.
Proof.
  unfold ok_count, parse_successes, count_if, converted. f_equal.
  induction features as [|f fs IH]; [reflexivity|].
  cbn [flat_map filter]. rewrite length_app, IH.
  destruct (try_int (dict_get f k)); reflexivity.
Qed.

Lemma in_range_spec (k : string) :
  in_range features k = plausible_successes features k.
Proof.
  unfold in_range, plausible_successes, count_if, converted. f_equal.
  induction features as [|f fs IH]; [reflexivity|].
  cbn [flat_map]. rewrite filter_app, length_app, IH.
  cbn [filter].
  destruct (try_int (dict_get f k)) as [iv|]; [|reflexivity].
  cbn [filter]. destruct ((1 <=? iv) && (iv <=? 30)); reflexivity.
Qed.

Lemma score_spec (k : string) : score features k = field_score features k.
Proof. unfold score, field_score. now rewrite ok_count_spec, in_range_spec. Qed.

Lemma in_range_bounds (k : string) :
  0 <= in_range features k <= ok_count features k.
Proof.
  unfold in_range, ok_count. split; [lia|].
  apply inj_le, filter_length_le.
Qed.

Lemma ok_count_nonneg (k : string) : 0 <= ok_count features k.
Proof. unfold ok_count. lia. Qed.

Lemma detect_step_inv (seen : list string) (st : option string * Z) (k : string) :
  loop_inv features seen st ->
  loop_inv features (seen ++ [k]) (detect_step features st k).
Proof.
  destruct st as [[b|] bs]; unfold loop_inv, detect_step; cbn [fst snd].
  - intros (-> & Hb & before & after & -> & Hlt & Hle).
    pose proof (in_range_bounds k) as Hk. pose proof (in_range_bounds b) as Hbb.
    destruct (Z.eqb_spec (ok_count features k) 0) as [H0 | H0]; cbn [fst snd].
    + split; [reflexivity|]. split; [assumption|].
      exists before, (after ++ [k]). rewrite <- app_assoc. cbn. split; [reflexivity|].
      split; [assumption|]. intros k' Hin. apply in_app_or in Hin as [Hin | [<- | []]].
      * now apply Hle.
      * unfold score. lia.
    + destruct (Z.ltb_spec (score features b) (score features k)) as [Hs | Hs];
        cbn [fst snd].
      * split; [reflexivity|]. split; [pose proof (ok_count_nonneg k); lia|].
        exists (before ++ b :: after), []. split; [reflexivity|].
        split; [|intros ? []]. intros k' Hin.
        apply in_app_or in Hin as [Hin | [<- | Hin]].
        -- specialize (Hlt _ Hin). lia.
        -- assumption.
        -- specialize (Hle _ Hin). lia.
      * split; [reflexivity|]. split; [assumption|].
        exists before, (after ++ [k]). rewrite <- app_assoc. cbn. split; [reflexivity|].
        split; [assumption|]. intros k' Hin. apply in_app_or in Hin as [Hin | [<- | []]].
        -- now apply Hle.
        -- assumption.
  - intros (-> & Hall).
    pose proof (in_range_bounds k) as Hk. pose proof (ok_count_nonneg k) as Hk0.
    destruct (Z.eqb_spec (ok_count features k) 0) as [H0 | H0]; cbn [fst snd].
    + split; [reflexivity|]. intros k' Hin.
      apply in_app_or in Hin as [Hin | [<- | []]]; auto.
    + assert (Hs : -1 < score features k) by (unfold score; lia).
      apply Z.ltb_lt in Hs. rewrite Hs. cbn [fst snd].
      split; [reflexivity|]. split; [lia|].
      exists seen, []. split; [reflexivity|]. split; [|intros ? []].
      intros k' Hin. pose proof (in_range_bounds k'). specialize (Hall _ Hin).
      unfold score. lia.
Qed.

Lemma detect_loop_inv (cands seen : list string) (st : option string * Z) :
  loop_inv features seen st ->
  loop_inv features (seen ++ cands) (fold_left (detect_step features) cands st).
Proof.
  revert seen st. induction cands as [|k cands IH]; intros seen st Hinv.
  - now rewrite app_nil_r.
  - cbn [fold_left].
    replace (seen ++ k :: cands) with ((seen ++ [k]) ++ cands)
      by (rewrite <- app_assoc; reflexivity).
    apply IH, detect_step_inv, Hinv.
Qed.

Lemma detect_loop_result (cands : list string) :
  loop_inv features cands (fold_left (detect_step features) cands (None, -1)).
Proof.
  apply (detect_loop_inv cands [] (None, -1)).
  split; [reflexivity | intros ? []].
Qed.
End FieldInference.

(** The result of [detect_ward_id_field], by cases on the schema. *)
Lemma detect_ward_id_field_cases (features : list properties) :
  (features = [] /\ detect_ward_id_field features = Raise (ValueError no_features_msg)) \/
  (features <> [] /\
   (forall k, In k (schema_fields features) -> parse_successes features k = 0) /\
   detect_ward_id_field features = Raise (ValueError no_field_msg)) \/
  (exists best,
     features <> [] /\
     detect_ward_id_field features = Ok best /\
     0 < parse_successes features best /\
     first_highest (field_score features) (schema_fields features) best).
Proof.
  destruct features as [|first rest]; [left; split; reflexivity|right].
  pose proof (detect_loop_result (first :: rest) (dict_keys first)) as Hinv.
  unfold detect_ward_id_field. cbn [schema_fields].
  unfold loop_inv in Hinv.
  destruct (fst (fold_left (detect_step (first :: rest)) (dict_keys first) (None, -1)))
    as [best|].
  - right. exists best. destruct Hinv as (_ & Hok & before & after & Hsplit & Hlt & Hle).
    split; [discriminate|]. split; [reflexivity|]. split.
    + now rewrite <- ok_count_spec.
    + exists before, after. split; [assumption|].
      split; intros k' Hin; rewrite <- !score_spec; auto.
  - left. destruct Hinv as [_ Hall]. split; [discriminate|].
    split; [|reflexivity]. intros k Hin. rewrite <- ok_count_spec. auto.
Qed.

(** C4: on a non-empty collection in which some field of the schema has a
    value that parses, field inference returns the first field, in schema
    order, whose score is the highest, the score of a field being the
    number of its values that parse as integers plus the number of parsed
    values in 1..30 (which is what the loop computes as [ok + in_range]);
    on the fields OBJECTID = 101, 102, 103 and WARD_NUM = 1, 2, 3 it
    returns WARD_NUM. *)
Theorem detect_ward_id_field_first_highest_score :
  (forall features : list properties,
      features <> [] ->
      (exists k, In k (schema_fields features) /\ 0 < parse_successes features k) ->
      (forall k, score features k = field_score features k) /\
      exists best,
        detect_ward_id_field features = Ok best /\
        first_highest (field_score features) (schema_fields features) best) /\
  detect_ward_id_field spec_example_features = Ok "WARD_NUM"%string.
Proof.
  split; [|reflexivity].
  intros features Hne (k & Hin & Hpos). split; [apply score_spec|].
  destruct (detect_ward_id_field_cases features)
    as [[He _] | [(_ & Hall & _) | (best & _ & Hok & _ & Hfirst)]].
  - contradiction.
  - specialize (Hall k Hin). lia.
  - exists best. split; assumption.
Qed.

Lemma detect_ward_id_field_first_highest_score_witness :
  exists best,
    detect_ward_id_field spec_example_features = Ok best /\
    first_highest (field_score spec_example_features)
                  (schema_fields spec_example_features) best.
Proof.
  apply (proj1 detect_ward_id_field_first_highest_score spec_example_features).
  - discriminate.
  - exists "WARD_NUM"%string. split; [right; left; reflexivity | reflexivity].
Defined.

(** A field that is in no record's keys never parses: its value is [None]. *)
Lemma dict_get_absent (props : properties) (k : string) :
  ~ In k (dict_keys props) -> dict_get props k = PNone.
Proof.
  induction props as [|[k' v] rest IH]; cbn; intros Hn; [reflexivity|].
  destruct (String.eqb_spec k' k) as [-> | Hne]; [tauto|].
  apply IH. tauto.
Qed.

Lemma count_if_zero {A : Type} (p : A -> bool) (l : list A) :
  count_if p l = 0 <-> forall x, In x l -> p x = false.
Proof.
  unfold count_if. induction l as [|a l IH]; cbn [filter].
  - split; [intros _ ? [] | reflexivity].
  - destruct (p a) eqn:Ha.
    + split.
      * cbn [List.length]. lia.
      * intros H. specialize (H a (or_introl eq_refl)). congruence.
    + rewrite IH. split.
      * intros H x [<- | Hin]; auto.
      * intros H x Hin. apply H. now right.
Qed.

Lemma parse_successes_off_schema (features : list properties) (k : string) :
  common_schema features -> ~ In k (schema_fields features) ->
  parse_successes features k = 0.
Proof.
  intros Hcs Hk. apply count_if_zero. intros f Hf.
  rewrite dict_get_absent; [reflexivity|].
  intros Hin. apply Hk. exact (Hcs f k Hf Hin).
Qed.

(** C9: on a collection with a common schema, field inference raises
    exactly when the collection is empty or no field has a value that
    parses as an integer; otherwise it returns a field of the schema. *)
Theorem detect_ward_id_field_fails_iff (features : list properties) :
  common_schema features ->
  ((exists e, detect_ward_id_field features = Raise e) <->
   (features = [] \/ forall k, parse_successes features k = 0)) /\
  ((exists k, detect_ward_id_field features = Ok k /\
              In k (schema_fields features)) <->
   ~ (features = [] \/ forall k, parse_successes features k = 0)).
Proof.
  intros Hcs.
  destruct (detect_ward_id_field_cases features)
    as [[He Hr] | [(Hne & Hall & Hr) | (best & Hne & Hr & Hok & Hfirst)]].
  - split; split.
    + intros _. now left.
    + intros _. eexists. exact Hr.
    + intros (k & Hk & _). congruence.
    + intros H. exfalso. apply H. now left.
  - assert (Hall' : forall k, parse_successes features k = 0).
    { intros k. destruct (in_dec string_dec k (schema_fields features)) as [Hin | Hn].
      - now apply Hall.
      - now apply parse_successes_off_schema. }
    split; split.
    + intros _. now right.
    + intros _. eexists. exact Hr.
    + intros (k & Hk & _). congruence.
    + intros H. exfalso. apply H. now right.
  - assert (Hin : In best (schema_fields features)).
    { destruct Hfirst as (before & after & -> & _). apply in_elt. }
    split; split.
    + intros [e He]. congruence.
    + intros [He | Hall]; [contradiction|]. specialize (Hall best). lia.
    + intros _ [He | Hall]; [contradiction|]. specialize (Hall best). lia.
    + intros _. exists best. split; assumption.
Qed.

Lemma detect_ward_id_field_fails_iff_witness :
  exists k, detect_ward_id_field spec_example_features = Ok k /\
            In k (schema_fields spec_example_features).
Proof.
  apply (detect_ward_id_field_fails_iff spec_example_features).
  - intros f k Hf Hk. cbn in Hf.
    destruct Hf as [<- | [<- | [<- | []]]]; exact Hk.
  - intros [H | H]; [discriminate|].
    specialize (H "WARD_NUM"%string). discriminate H.
Defined.

(** ** Spatial assignment *)

Section SpatialFacts.
Variable polygon : Type.
Variable covers : polygon -> point -> bool.

Abbreviation first_covering := (first_covering polygon covers).
Abbreviation ward_cell := (ward_cell polygon covers).
Abbreviation assign_ward_to_points := (assign_ward_to_points polygon covers).
Abbreviation assigned_of := (assigned_of polygon covers).

(** The scan returns the first covering polygon and tests nothing
    after it. *)
Lemma first_covering_some (wards : list (Z * polygon)) (pt : point) (w : Z) :
  fst (first_covering wards pt) = Some w ->
  exists (k : nat) (poly : polygon),
    nth_error wards k = Some (w, poly) /\
    covers poly pt = true /\
    (forall j wp, (j < k)%nat -> nth_error wards j = Some wp ->
                  covers (snd wp) pt = false) /\
    snd (first_covering wards pt) = firstn (S k) (map snd wards).
Proof.
  induction wards as [|[w0 p0] rest IH]; cbn [first_covering].
  - discriminate.
  - destruct (covers p0 pt) eqn:Hc.
    + cbn [fst snd]. intros [= <-]. exists 0%nat, p0.
      split; [reflexivity|]. split; [assumption|]. split.
      * intros j wp Hj. inversion Hj.
      * reflexivity.
    + destruct (first_covering rest pt) as [assigned tested] eqn:Hrest.
      cbn [fst snd] in *. intros Hw.
      destruct (IH Hw) as (k & poly & Hnth & Hcov & Hbefore & Htested).
      exists (S k), poly. split; [exact Hnth|]. split; [exact Hcov|]. split.
      * intros [|j] wp Hj Hnthj; cbn [nth_error] in Hnthj.
        -- injection Hnthj as <-. exact Hc.
        -- apply (Hbefore j wp); [apply Nat.succ_lt_mono; exact Hj | exact Hnthj].
      * cbn [map snd firstn]. cbn [map firstn] in Htested. now rewrite Htested.
Qed.

Lemma first_covering_none (wards : list (Z * polygon)) (pt : point) :
  (forall wp, In wp wards -> covers (snd wp) pt = false) ->
  fst (first_covering wards pt) = None.
Proof.
  induction wards as [|[w0 p0] rest IH]; cbn [first_covering]; intros Hall.
  - reflexivity.
  - pose proof (Hall (w0, p0) (or_introl eq_refl)) as H0. cbn [snd] in H0.
    rewrite H0.
    destruct (first_covering rest pt) as [assigned tested].
    cbn [fst] in *. apply IH. intros wp Hin. apply Hall. now right.
Qed.

Lemma cell_after_cons (wards : list (Z * polygon)) (row : listing)
      (rest : list listing) (i : Z) (cell : option Z) :
  cell_after polygon covers wards (row :: rest) i cell =
  cell_after polygon covers wards rest i
    (if bad_coordinates row then cell
     else if row_id row =? i
          then fst (first_covering wards (listing_point row))
          else cell).
Proof. reflexivity. Qed.

(** The loop over the rows leaves, at every row of the frame, the cell
    that the turns at its label have written. *)
Lemma assign_loop (wards : list (Z * polygon)) (rows : list listing)
      (out : list (listing * option Z)) :
  fold_left (assign_step polygon covers wards) rows out =
  map (fun rc => (fst rc, cell_after polygon covers wards rows
                                     (row_id (fst rc)) (snd rc))) out.
Proof.
  revert out. induction rows as [|row rest IH]; intros out.
  - cbn [fold_left cell_after]. symmetry. etransitivity; [|apply map_id].
    apply map_ext. now intros [r c].
  - cbn [fold_left]. rewrite IH.
    unfold assign_step. destruct (bad_coordinates row) eqn:Hbad.
    + apply map_ext. intros [r c]. cbn [fst snd].
      now rewrite cell_after_cons, Hbad.
    + unfold set_ward_at. rewrite map_map. apply map_ext. intros [r c].
      cbn [fst snd]. rewrite cell_after_cons, Hbad.
      rewrite (Z.eqb_sym (row_id row) (row_id r)).
      now destruct (row_id r =? row_id row).
Qed.

Lemma cell_after_absent (wards : list (Z * polygon)) (rows : list listing)
      (i : Z) (cell : option Z) :
  ~ In i (map row_id rows) -> cell_after polygon covers wards rows i cell = cell.
Proof.
  revert cell. induction rows as [|row rest IH]; intros cell Hnotin; [reflexivity|].
  rewrite cell_after_cons. cbn [map] in Hnotin.
  assert (Hne : (row_id row =? i) = false).
  { apply Z.eqb_neq. intros He. apply Hnotin. now left. }
  rewrite Hne. destruct (bad_coordinates row); apply IH; intros Hin;
    apply Hnotin; now right.
Qed.

(** Under distinct labels the cell of a row is written by its own turn
    only. *)
Lemma cell_after_own (wards : list (Z * polygon)) (rows : list listing)
      (r : listing) (cell : option Z) :
  NoDup (map row_id rows) -> In r rows ->
  cell_after polygon covers wards rows (row_id r) cell =
  if bad_coordinates r then cell
  else fst (first_covering wards (listing_point r)).
Proof.
  revert cell. induction rows as [|row rest IH]; intros cell Hnd Hin;
    [destruct Hin|].
  cbn [map] in Hnd. inversion Hnd as [|? ? Hnotin Hnd']; subst.
  rewrite cell_after_cons.
  destruct Hin as [-> | Hin].
  - rewrite Z.eqb_refl, cell_after_absent by assumption. reflexivity.
  - assert (Hne : (row_id row =? row_id r) = false).
    { apply Z.eqb_neq. intros He. apply Hnotin. rewrite He. now apply in_map. }
    rewrite Hne. destruct (bad_coordinates row); now apply IH.
Qed.

Lemma assign_ward_to_points_flat_map (listings_df : list listing)
      (ward_polygons : list (ward_polygon polygon)) :
  NoDup (map row_id listings_df) ->
  assign_ward_to_points listings_df ward_polygons =
  flat_map (assigned_of (wards_of polygon ward_polygons)) listings_df.
Proof.
  intros Hnd. unfold assign_ward_to_points. rewrite assign_loop, map_map.
  cbn [fst snd].
  rewrite (map_ext_in _ (fun row => (row, fst (ward_cell (wards_of polygon ward_polygons)
                                                 row)))).
  - unfold keep_assigned.
    induction listings_df as [|row rest IH]; [reflexivity|].
    cbn [map flat_map fst snd]. f_equal. apply IH.
    cbn [map] in Hnd. now inversion Hnd.
  - intros row Hin. f_equal. rewrite (cell_after_own _ _ row None Hnd Hin).
    unfold ward_cell. now destruct (bad_coordinates row).
Qed.

Lemma In_assign_ward_to_points (listings_df : list listing)
      (ward_polygons : list (ward_polygon polygon)) (a : assigned_listing) :
  NoDup (map row_id listings_df) ->
  In a (assign_ward_to_points listings_df ward_polygons) <->
  In (base a) listings_df /\
  fst (ward_cell (wards_of polygon ward_polygons) (base a)) = Some (Ward a).
Proof.
  intros Hnd.
  rewrite assign_ward_to_points_flat_map by assumption.
  rewrite in_flat_map. unfold assigned_of.
  split.
  - intros (row & Hin & Ha).
    destruct (fst (ward_cell (wards_of polygon ward_polygons) row)) eqn:Hc;
      [|contradiction].
    destruct Ha as [<- | []]. cbn [base Ward]. now split.
  - intros [Hin Hc]. exists (base a). split; [assumption|].
    rewrite Hc. left. now destruct a.
Qed.

Lemma nth_error_wards_of (ward_polygons : list (ward_polygon polygon))
      (k : nat) :
  nth_error (wards_of polygon ward_polygons) k =
  option_map (fun w => (ward_id w, geometry w)) (nth_error ward_polygons k).
Proof. apply nth_error_map. Qed.

Lemma unassignable_cell (ward_polygons : list (ward_polygon polygon))
      (row : listing) :
  bad_coordinates row = true \/
  (forall wp, In wp ward_polygons ->
              covers (geometry wp) (listing_point row) = false) ->
  fst (ward_cell (wards_of polygon ward_polygons) row) = None.
Proof.
  unfold ward_cell. intros [Hbad | Hnone].
  - now rewrite Hbad.
  - destruct (bad_coordinates row); [reflexivity|].
    apply first_covering_none. intros wp Hin.
    apply in_map_iff in Hin as (w & <- & Hin). now apply Hnone.
Qed.
End SpatialFacts.

(** C3: in a frame whose index labels are distinct, as those of every
    frame [main] builds are, a listing that spatial assignment annotates
    with a ward has valid coordinates; the polygon list holds, at some
    position, a polygon of that ward that covers the listing's point; no
    polygon at an earlier position covers it; and the polygons tested for
    the listing are exactly those up to and including that position. *)
Theorem assigned_ward_is_first_covering
        (polygon : Type) (covers : polygon -> point -> bool)
        (listings_df : list listing)
        (ward_polygons : list (ward_polygon polygon))
        (a : assigned_listing) :
  NoDup (map row_id listings_df) ->
  In a (assign_ward_to_points polygon covers listings_df ward_polygons) ->
  In (base a) listings_df /\
  bad_coordinates (base a) = false /\
  exists (k : nat) (wp : ward_polygon polygon),
    nth_error ward_polygons k = Some wp /\
    ward_id wp = Ward a /\
    covers (geometry wp) (listing_point (base a)) = true /\
    (forall j wp', (j < k)%nat -> nth_error ward_polygons j = Some wp' ->
                   covers (geometry wp') (listing_point (base a)) = false) /\
    snd (ward_cell polygon covers (wards_of polygon ward_polygons) (base a)) =
      firstn (S k) (map geometry ward_polygons).
Proof.
  intros Hnd Hin. apply In_assign_ward_to_points in Hin as [Hin Hcell];
    [|assumption].
  split; [assumption|]. unfold ward_cell in *.
  destruct (bad_coordinates (base a)); [discriminate|]. split; [reflexivity|].
  apply first_covering_some in Hcell
    as (k & poly & Hnth & Hcov & Hbefore & Htested).
  rewrite nth_error_wards_of in Hnth.
  destruct (nth_error ward_polygons k) as [wp|] eqn:Hk; [|discriminate].
  cbn [option_map] in Hnth. injection Hnth as Hw Hp. subst poly.
  exists k, wp. split; [exact Hk|]. split; [assumption|].
  split; [assumption|]. split.
  - intros j wp' Hj Hnthj.
    apply (Hbefore j (ward_id wp', geometry wp') Hj).
    rewrite nth_error_wards_of, Hnthj. reflexivity.
  - rewrite Htested. unfold wards_of. rewrite map_map. reflexivity.
Qed.

Lemma assigned_ward_is_first_covering_witness :
  exists (k : nat) (wp : ward_polygon box),
    nth_error two_wards k = Some wp /\
    ward_id wp = 1 /\
    box_covers (geometry wp) (listing_point boundary_listing) = true /\
    (forall j wp', (j < k)%nat -> nth_error two_wards j = Some wp' ->
                   box_covers (geometry wp') (listing_point boundary_listing) = false) /\
    snd (ward_cell box box_covers (wards_of box two_wards) boundary_listing) =
      firstn (S k) (map geometry two_wards).
Proof.
  apply (assigned_ward_is_first_covering box box_covers
           [boundary_listing] two_wards
           {| base := boundary_listing; Ward := 1 |}).
  - repeat constructor. intros [].
  - vm_compute. left. reflexivity.
Defined.

(** ** The index of [read_csv] and the tables of [main] *)

Lemma range_index_from_labels (rows : list listing) (i : Z) (r : listing) :
  In r (range_index_from i rows) -> i <= row_id r.
Proof.
  revert i. induction rows as [|x rest IH]; intros i Hin; [destruct Hin|].
  cbn [range_index_from] in Hin. destruct Hin as [<- | Hin].
  - cbn [set_row_id row_id]. lia.
  - apply IH in Hin. lia.
Qed.

Lemma range_index_from_NoDup (rows : list listing) (i : Z) :
  NoDup (map row_id (range_index_from i rows)).
Proof.
  revert i. induction rows as [|x rest IH]; intros i; cbn [range_index_from map].
  - constructor.
  - constructor; [|apply IH].
    cbn [set_row_id row_id]. intros Hin.
    apply in_map_iff in Hin as (r & Hr & Hin).
    apply range_index_from_labels in Hin. lia.
Qed.

(** Dropping rows leaves the labels of a frame distinct. *)
Lemma dropped_rows_keep_labels_distinct (keep : listing -> bool)
      (rows : list listing) :
  NoDup (map row_id rows) -> NoDup (map row_id (filter keep rows)).
Proof.
  intros Hnd. induction rows as [|row rest IH]; [constructor|].
  cbn [map] in Hnd. inversion Hnd as [|? ? Hfresh Hrest]; subst.
  cbn [filter]. destruct (keep row); [|now apply IH].
  cbn [map]. constructor; [|now apply IH].
  intros Hin. apply Hfresh. apply in_map_iff in Hin as (other & Hsame & Hin).
  apply filter_In in Hin as [Hin _]. rewrite <- Hsame. now apply in_map.
Qed.

(** The frame that [main] passes to the assignment has distinct labels. *)
Lemma main_frame_NoDup (re_csv : list listing) :
  NoDup (map row_id (drop_missing_key_fields (range_index re_csv))).
Proof. apply dropped_rows_keep_labels_distinct, range_index_from_NoDup. Qed.

(** The aggregation reads the wards, prices, walk scores and styles of the
    rows, not their labels. *)
Lemma ward_group_unlabelled (df : list assigned_listing) (w : Z) :
  ward_group (map unlabelled df) w = map unlabelled (ward_group df w).
Proof.
  unfold ward_group. induction df as [|r rest IH]; [reflexivity|].
  cbn [map filter]. cbn [unlabelled Ward]. destruct (Ward r =? w);
    cbn [map]; now rewrite IH.
Qed.

Lemma ward_metrics_row_unlabelled (df : list assigned_listing) (w : Z) :
  ward_metrics_row (map unlabelled df) w = ward_metrics_row df w.
Proof.
  unfold ward_metrics_row. rewrite ward_group_unlabelled.
  unfold group_prices, group_walk_scores. rewrite !map_map. reflexivity.
Qed.

Lemma ward_metrics_unlabelled (df : list assigned_listing) :
  ward_metrics (map unlabelled df) = ward_metrics df.
Proof.
  unfold ward_metrics. rewrite map_map. cbn [unlabelled Ward].
  apply map_ext. intros w. apply ward_metrics_row_unlabelled.
Qed.

Lemma styled_unlabelled (df : list assigned_listing) :
  styled (map unlabelled df) = map unlabelled (styled df).
Proof.
  unfold styled. induction df as [|r rest IH]; [reflexivity|].
  cbn [map filter]. unfold style_of at 1. cbn [unlabelled base Listing_Style].
  fold (style_of r). destruct (style_of r); cbn [map]; now rewrite IH.
Qed.

Lemma observed_styles_unlabelled (df : list assigned_listing) :
  observed_styles (map unlabelled df) = observed_styles df.
Proof.
  unfold observed_styles. induction df as [|r rest IH]; [reflexivity|].
  cbn [map flat_map]. now rewrite IH.
Qed.

Lemma pair_count_unlabelled (df : list assigned_listing) (w : Z) (c : string) :
  pair_count (map unlabelled df) w c = pair_count df w c.
Proof.
  unfold pair_count. f_equal.
  assert (H : filter (fun r => (Ward r =? w) && style_is c r) (map unlabelled df) =
              map unlabelled (filter (fun r => (Ward r =? w) && style_is c r) df)).
  { induction df as [|r rest IH]; [reflexivity|].
    cbn [map filter].
    change ((Ward (unlabelled r) =? w) && style_is c (unlabelled r))
      with ((Ward r =? w) && style_is c r).
    destruct ((Ward r =? w) && style_is c r); cbn [map]; now rewrite IH. }
  rewrite H. apply length_map.
Qed.

Lemma style_counts_unlabelled (df : list assigned_listing) :
  style_counts (map unlabelled df) = style_counts df.
Proof.
  unfold style_counts.
  rewrite styled_unlabelled, observed_styles_unlabelled, map_map.
  cbn [unlabelled Ward].
  apply flat_map_ext. intros w. apply flat_map_ext. intros c.
  now rewrite pair_count_unlabelled.
Qed.

Lemma ward_aggregate_unlabelled (has_style_column : bool)
      (df df' : list assigned_listing) :
  map unlabelled df = map unlabelled df' ->
  ward_aggregate has_style_column df = ward_aggregate has_style_column df'.
Proof.
  intros H. unfold ward_aggregate.
  rewrite <- (ward_metrics_unlabelled df), <- (ward_metrics_unlabelled df').
  rewrite <- (style_counts_unlabelled df), <- (style_counts_unlabelled df').
  now rewrite H.
Qed.

Section MainFrame.
Variable polygon : Type.
Variable covers : polygon -> point -> bool.

Lemma main_re_with_ward_rows (re_csv : list listing)
      (ward_polygons : list (ward_polygon polygon)) :
  main_re_with_ward polygon covers re_csv ward_polygons =
  flat_map (assigned_of polygon covers (wards_of polygon ward_polygons))
           (drop_missing_key_fields (range_index re_csv)).
Proof.
  unfold main_re_with_ward.
  apply assign_ward_to_points_flat_map, main_frame_NoDup.
Qed.

Lemma main_re_with_ward_unlabelled (re_csv : list listing)
      (ward_polygons : list (ward_polygon polygon)) :
  map unlabelled (main_re_with_ward polygon covers re_csv ward_polygons) =
  map unlabelled (rows_with_ward polygon covers re_csv ward_polygons).
Proof.
  rewrite main_re_with_ward_rows. unfold rows_with_ward, range_index.
  generalize 0 as i. unfold drop_missing_key_fields.
  induction re_csv as [|r rest IH]; intros i; [reflexivity|].
  cbn [range_index_from filter].
  change (has_key_fields (set_row_id i r)) with (has_key_fields r).
  destruct (has_key_fields r); [|apply IH].
  cbn [flat_map]. rewrite !map_app, IH. f_equal.
  unfold assigned_of.
  change (ward_cell polygon covers (wards_of polygon ward_polygons) (set_row_id i r))
    with (ward_cell polygon covers (wards_of polygon ward_polygons) r).
  now destruct (fst (ward_cell polygon covers (wards_of polygon ward_polygons) r)).
Qed.

(** The tables of [main] are those of the rows of the file, taken row by
    row. *)
Lemma main_tables (income_csv : list income_row) (re_csv : list listing)
      (has_style_column : bool) (ward_polygons : list (ward_polygon polygon)) :
  main polygon covers income_csv re_csv has_style_column ward_polygons =
  (ward_aggregate has_style_column
     (rows_with_ward polygon covers re_csv ward_polygons),
   dashboard (clean_income income_csv)
     (ward_aggregate has_style_column
        (rows_with_ward polygon covers re_csv ward_polygons))).
Proof.
  unfold main.
  now rewrite (ward_aggregate_unlabelled has_style_column _ _
                 (main_re_with_ward_unlabelled re_csv ward_polygons)).
Qed.

Lemma In_rows_with_ward (re_csv : list listing)
      (ward_polygons : list (ward_polygon polygon)) (a : assigned_listing) :
  In a (rows_with_ward polygon covers re_csv ward_polygons) <->
  In (base a) re_csv /\ has_key_fields (base a) = true /\
  fst (ward_cell polygon covers (wards_of polygon ward_polygons) (base a)) =
    Some (Ward a).
Proof.
  unfold rows_with_ward, drop_missing_key_fields. rewrite in_flat_map.
  unfold assigned_of. split.
  - intros (row & Hin & Ha). apply filter_In in Hin as [Hin Hk].
    destruct (fst (ward_cell polygon covers (wards_of polygon ward_polygons) row))
      eqn:Hc; [|contradiction].
    destruct Ha as [<- | []]. cbn [base Ward]. now repeat split.
  - intros (Hin & Hk & Hc). exists (base a). split.
    + apply filter_In. now split.
    + rewrite Hc. left. now destruct a.
Qed.
End MainFrame.

(** Unassignable listings and the tables of [main]. *)
Section Unassignable.
Variable polygon : Type.
Variable covers : polygon -> point -> bool.
Variable ward_polygons : list (ward_polygon polygon).
Variable row : listing.

Hypothesis unassignable :
  bad_coordinates row = true \/
  (forall wp, In wp ward_polygons ->
              covers (geometry wp) (listing_point row) = false).

Lemma unassignable_assigned_of :
  assigned_of polygon covers (wards_of polygon ward_polygons) row = [].
Proof.
  unfold assigned_of. now rewrite (unassignable_cell polygon covers).
Qed.

Lemma unassignable_not_assigned (listings_df : list listing) :
  NoDup (map row_id listings_df) ->
  ~ In row (map base (assign_ward_to_points polygon covers listings_df ward_polygons)).
Proof.
  intros Hnd Hin. apply in_map_iff in Hin as (a & Hbase & Hin).
  apply In_assign_ward_to_points in Hin as [_ Hcell]; [|assumption].
  rewrite Hbase, (unassignable_cell polygon covers) in Hcell by assumption.
  discriminate.
Qed.

Lemma unassignable_rows_with_ward (before after : list listing) :
  rows_with_ward polygon covers (before ++ row :: after) ward_polygons =
  rows_with_ward polygon covers (before ++ after) ward_polygons.
Proof.
  unfold rows_with_ward, drop_missing_key_fields.
  rewrite !filter_app, !flat_map_app.
  f_equal. cbn [filter]. destruct (has_key_fields row); [|reflexivity].
  cbn [flat_map]. now rewrite unassignable_assigned_of.
Qed.
End Unassignable.

(** C7: a listing with a missing coordinate, or whose point no polygon
    covers, is not in the result of spatial assignment on a frame whose
    index labels are distinct, as those of every frame [main] builds are;
    and the two tables [main] produces are the tables it produces without
    that listing: the listing reaches no aggregate and no dashboard row,
    and its presence stops nothing. *)
Theorem unassignable_listing_is_dropped
        (polygon : Type) (covers : polygon -> point -> bool)
        (ward_polygons : list (ward_polygon polygon)) (row : listing) :
  bad_coordinates row = true \/
  (forall wp, In wp ward_polygons ->
              covers (geometry wp) (listing_point row) = false) ->
  (forall listings_df,
      NoDup (map row_id listings_df) ->
      ~ In row (map base (assign_ward_to_points polygon covers
                            listings_df ward_polygons))) /\
  (forall income_csv before after has_style_column,
      main polygon covers income_csv (before ++ row :: after)
           has_style_column ward_polygons =
      main polygon covers income_csv (before ++ after)
           has_style_column ward_polygons).
Proof.
  intros Hun. split.
  - intros listings_df. now apply unassignable_not_assigned.
  - intros income_csv before after has_style_column. rewrite !main_tables.
    now rewrite (unassignable_rows_with_ward polygon covers ward_polygons row Hun).
Qed.

Lemma unassignable_listing_is_dropped_witness :
  ~ In outside_listing
      (map base (assign_ward_to_points box box_covers scenario_listings two_wards)).
Proof.
  apply (unassignable_listing_is_dropped box box_covers two_wards outside_listing).
  - right. intros wp Hin. cbn in Hin.
    destruct Hin as [<- | [<- | []]]; reflexivity.
  - cbv [scenario_listings mk_listing map row_id].
    repeat constructor; cbn [In]; intuition discriminate.
Defined.

(** ** Sorting and group keys *)

Section SortFacts.
Context {A : Type}.
Variable le : A -> A -> bool.

Lemma insert_sorted_perm (x : A) (l : list A) :
  Permutation (insert_sorted le x l) (x :: l).
Proof.
  induction l as [|y rest IH]; cbn [insert_sorted]; [reflexivity|].
  destruct (le x y); [reflexivity|].
  rewrite IH. apply perm_swap.
Qed.

Lemma sort_by_perm (l : list A) : Permutation (sort_by le l) l.
Proof.
  induction l as [|x rest IH]; cbn [sort_by fold_right]; [reflexivity|].
  rewrite insert_sorted_perm. now apply perm_skip.
Qed.

Lemma sort_by_length (l : list A) : List.length (sort_by le l) = List.length l.
Proof. apply Permutation_length, sort_by_perm. Qed.

Lemma sort_by_In (l : list A) (x : A) : In x (sort_by le l) <-> In x l.
Proof.
  split; apply Permutation_in; [|symmetry]; apply sort_by_perm.
Qed.

(** Sortedness, for an order that is total on the elements at hand. *)
Variable P : A -> Prop.
Hypothesis le_total : forall x y, P x -> P y -> le x y = false -> le y x = true.

Lemma insert_sorted_hd (x y : A) (l : list A) :
  le y x = true -> HdRel (le_prop le) y l -> HdRel (le_prop le) y (insert_sorted le x l).
Proof.
  intros Hyx Hhd. destruct l as [|z rest]; cbn [insert_sorted].
  - now constructor.
  - destruct (le x z); constructor; [assumption|].
    now inversion Hhd.
Qed.

Lemma insert_sorted_sorted (x : A) (l : list A) :
  P x -> Forall P l -> Sorted (le_prop le) l -> Sorted (le_prop le) (insert_sorted le x l).
Proof.
  intros Px. induction l as [|y rest IH]; intros HP Hs; cbn [insert_sorted].
  - repeat constructor.
  - inversion HP as [|? ? Py HPrest]; subst.
    inversion Hs as [|? ? Hsrest Hhd]; subst.
    destruct (le x y) eqn:Hxy.
    + constructor; [assumption|]. now constructor.
    + constructor; [now apply IH|].
      apply insert_sorted_hd; [|assumption]. now apply le_total.
Qed.

Lemma sort_by_sorted (l : list A) :
  Forall P l -> Sorted (le_prop le) (sort_by le l).
Proof.
  induction l as [|x rest IH]; intros HP; cbn [sort_by fold_right].
  - constructor.
  - inversion HP as [|? ? Px HPrest]; subst.
    apply insert_sorted_sorted; [assumption| |now apply IH].
    apply Forall_forall. intros y Hy.
    apply (proj1 (Forall_forall P rest) HPrest).
    now apply (sort_by_In rest y).
Qed.
End SortFacts.

Lemma ward_keys_In (ws : list Z) (w : Z) : In w (ward_keys ws) <-> In w ws.
Proof. unfold ward_keys. now rewrite sort_by_In, nodup_In. Qed.

Lemma ward_keys_NoDup (ws : list Z) : NoDup (ward_keys ws).
Proof.
  unfold ward_keys.
  apply (Permutation_NoDup (l := nodup Z.eq_dec ws)).
  - symmetry. apply sort_by_perm.
  - apply NoDup_nodup.
Qed.

Lemma style_keys_In (cs : list string) (c : string) :
  In c (style_keys cs) <-> In c cs.
Proof. unfold style_keys. now rewrite sort_by_In, nodup_In. Qed.

Lemma style_keys_NoDup (cs : list string) : NoDup (style_keys cs).
Proof.
  unfold style_keys.
  apply (Permutation_NoDup (l := nodup string_dec cs)).
  - symmetry. apply sort_by_perm.
  - apply NoDup_nodup.
Qed.

(** ** The order of floats that are not NaN *)

Lemma SFcompare_antisym (x y : float) :
  SFcompare y x = option_map CompOpp (SFcompare x y).
Proof.
  destruct x as [sx | sx | | sx mx ex]; destruct y as [sy | sy | | sy my ey];
    cbn [SFcompare option_map CompOpp];
    try reflexivity;
    try (destruct sx; reflexivity); try (destruct sy; reflexivity);
    try (destruct sx, sy; reflexivity).
  destruct sx, sy; cbn [CompOpp]; try reflexivity;
    rewrite (Z.compare_antisym ey ex);
    destruct (ey ?= ex); cbn [CompOpp]; try reflexivity;
    change (Pos.compare_cont Eq my mx)
      with (Pos.compare_cont (CompOpp Eq) my mx);
    rewrite <- (Pos.compare_cont_antisym mx my Eq);
    destruct (Pos.compare_cont Eq mx my); reflexivity.
Qed.

Lemma SFcompare_not_nan (x y : float) :
  B64.isna x = false -> B64.isna y = false -> exists c, SFcompare x y = Some c.
Proof.
  destruct x as [sx | sx | | sx mx ex]; destruct y as [sy | sy | | sy my ey];
    cbn [B64.isna SFcompare]; intros Hx Hy; try discriminate; eexists; reflexivity.
Qed.

Lemma leb_total_not_nan (x y : float) :
  B64.isna x = false -> B64.isna y = false ->
  B64.leb x y = false -> B64.leb y x = true.
Proof.
  intros Hx Hy. unfold B64.leb, SFleb. rewrite (SFcompare_antisym x y).
  destruct (SFcompare_not_nan x y Hx Hy) as [c ->]. cbn [option_map].
  destruct c; cbn [CompOpp]; congruence.
Qed.



Lemma dropna_floats_id (xs : list float) :
  Forall (fun x => B64.isna x = false) xs -> dropna_floats xs = xs.
Proof.
  unfold dropna_floats.
  induction 1 as [|x rest Hx _ IH]; cbn [filter]; [reflexivity|].
  rewrite Hx. cbn [negb]. now rewrite IH.
Qed.

Lemma dropna_floats_all_missing (xs : list float) :
  (forall x, In x xs -> B64.isna x = true) -> dropna_floats xs = [].
Proof.
  unfold dropna_floats.
  induction xs as [|x rest IH]; intros Hall; cbn [filter]; [reflexivity|].
  rewrite (Hall x (or_introl eq_refl)). cbn [negb]. apply IH.
  intros y Hy. apply Hall. now right.
Qed.

(** ** Ward aggregation *)

Lemma set_StyleShare_metrics (a : ward_agg_row) (cells : list (string * float)) :
  agg_Ward (set_StyleShare a cells) = agg_Ward a /\
  Listings (set_StyleShare a cells) = Listings a /\
  Median_List_Price (set_StyleShare a cells) = Median_List_Price a /\
  Mean_List_Price (set_StyleShare a cells) = Mean_List_Price a /\
  Median_WalkScore (set_StyleShare a cells) = Median_WalkScore a /\
  StyleShare (set_StyleShare a cells) = cells.
Proof. repeat split. Qed.



Lemma ward_group_nonempty (df : list assigned_listing) (w : Z) :
  In w (map Ward df) -> ward_group df w <> [].
Proof.
  intros Hin. apply in_map_iff in Hin as (r & Hr & Hin).
  assert (H : In r (ward_group df w)).
  { apply filter_In. split; [assumption|]. now apply Z.eqb_eq. }
  intros He. rewrite He in H. exact H.
Qed.

(** ** Whole numbers below 2^53

    Additions and subtractions of whole numbers are exact as long as the
    results stay below 2^53, so the compensated sum of such numbers is
    their sum. *)





















Section MainFacts.
Variable polygon : Type.
Variable covers : polygon -> point -> bool.


Lemma rows_with_ward_priced (re_csv : list listing)
      (ward_polygons : list (ward_polygon polygon)) (r : assigned_listing) :
  In r (rows_with_ward polygon covers re_csv ward_polygons) ->
  B64.isna (Price (base r)) = false.
Proof.
  intros Hin. apply In_rows_with_ward in Hin as (_ & Hk & _).
  unfold has_key_fields in Hk.
  apply andb_true_iff in Hk as [_ Hp]. now apply negb_true_iff in Hp.
Qed.

Lemma rows_group_prices_not_nan (re_csv : list listing)
      (ward_polygons : list (ward_polygon polygon)) (w : Z) :
  Forall (fun x => B64.isna x = false)
         (group_prices
            (ward_group (rows_with_ward polygon covers re_csv ward_polygons) w)).
Proof.
  apply Forall_forall. intros x Hin. unfold group_prices in Hin.
  apply in_map_iff in Hin as (r & <- & Hin).
  apply filter_In in Hin as [Hin _].
  now apply rows_with_ward_priced in Hin.
Qed.

End MainFacts.



(** ** Keys and joins *)

Section KeyFacts.
Context {A K : Type}.
Variable key : A -> K.

(** At most one row of a table with distinct keys has a given key. *)
Lemma filter_key_length (p : A -> bool) (k : K) (l : list A) :
  (forall a, p a = true -> key a = k) ->
  NoDup (map key l) ->
  (List.length (filter p l) <= 1)%nat.
Proof.
  intros Hp. induction l as [|a rest IH]; cbn [map filter]; intros Hnd.
  - cbn. lia.
  - inversion Hnd as [|? ? Hnotin Hrest]; subst.
    destruct (p a) eqn:Ha; [|now apply IH].
    assert (Hnone : filter p rest = []).
    { destruct (filter p rest) as [|b bs] eqn:Hf; [reflexivity|].
      exfalso. apply Hnotin.
      assert (Hb : In b (filter p rest)) by (rewrite Hf; now left).
      apply filter_In in Hb as [Hin Hpb].
      rewrite (Hp a Ha), <- (Hp b Hpb). now apply in_map. }
    rewrite Hnone. cbn. lia.
Qed.

Lemma filter_key_cases (p : A -> bool) (k : K) (l : list A) :
  (forall a, p a = true -> key a = k) ->
  NoDup (map key l) ->
  filter p l = [] \/ exists a, filter p l = [a].
Proof.
  intros Hp Hnd. pose proof (filter_key_length p k l Hp Hnd) as Hlen.
  destruct (filter p l) as [|a [|b rest]].
  - now left.
  - right. now exists a.
  - cbn in Hlen. lia.
Qed.
End KeyFacts.

Lemma filter_orb_length {A : Type} (p q : A -> bool) (l : list A) :
  (forall a, In a l -> p a = true -> q a = false) ->
  List.length (filter (fun a => p a || q a) l) =
  (List.length (filter p l) + List.length (filter q l))%nat.
Proof.
  induction l as [|a rest IH]; intros Hdisj; [reflexivity|].
  cbn [filter].
  assert (IH' := IH (fun b Hb => Hdisj b (or_intror Hb))).
  destruct (p a) eqn:Hpa.
  - rewrite (Hdisj a (or_introl eq_refl) Hpa). cbn. now rewrite IH'.
  - destruct (q a); cbn; rewrite IH'; lia.
Qed.

Lemma merge_inner_length (income : list income_row) (ward_agg : list ward_agg_row) :
  List.length (merge_inner income ward_agg) =
  fold_right (fun i n =>
                (List.length (filter (fun a => (inc_Ward i =? agg_Ward a)%Z) ward_agg) + n)%nat)
             0%nat income.
Proof.
  unfold merge_inner. induction income as [|i rest IH]; [reflexivity|].
  cbn [flat_map fold_right]. now rewrite length_app, length_map, IH.
Qed.

(** Distinct wards in the aggregate: every income row joins at most once. *)
Lemma merge_inner_le_income (income : list income_row) (ward_agg : list ward_agg_row) :
  NoDup (map agg_Ward ward_agg) ->
  (List.length (merge_inner income ward_agg) <= List.length income)%nat.
Proof.
  intros Hnd. rewrite merge_inner_length.
  induction income as [|i rest IH]; cbn [fold_right List.length]; [lia|].
  assert (H : (List.length (filter (fun a => (inc_Ward i =? agg_Ward a)%Z) ward_agg) <= 1)%nat).
  { apply (filter_key_length agg_Ward _ (inc_Ward i)); [|assumption].
    intros a Ha. apply Z.eqb_eq in Ha. now symmetry. }
  lia.
Qed.

(** Distinct wards in the income table: every aggregate row joins at most
    once. *)
Lemma merge_inner_le_agg (income : list income_row) (ward_agg : list ward_agg_row) :
  NoDup (map inc_Ward income) ->
  (List.length (merge_inner income ward_agg) <= List.length ward_agg)%nat.
Proof.
  intros Hnd. rewrite merge_inner_length.
  assert (H : fold_right (fun i n =>
                (List.length (filter (fun a => (inc_Ward i =? agg_Ward a)%Z) ward_agg) + n)%nat)
             0%nat income =
          List.length (filter (fun a => existsb (fun i => inc_Ward i =? agg_Ward a) income)
                              ward_agg)).
  { induction income as [|i rest IH]; cbn [fold_right existsb].
    - induction ward_agg as [|a l IHl]; [reflexivity | exact IHl].
    - inversion Hnd as [|? ? Hnotin Hrest]; subst.
      rewrite (IH Hrest).
      symmetry. apply filter_orb_length.
      intros a _ Ha. apply Z.eqb_eq in Ha.
      apply not_true_is_false. intros Hex.
      apply existsb_exists in Hex as (i' & Hin & Hi').
      apply Z.eqb_eq in Hi'. apply Hnotin.
      rewrite Ha, <- Hi'. now apply in_map. }
  rewrite H. apply filter_length_le.
Qed.

Lemma In_merge_inner (income : list income_row) (ward_agg : list ward_agg_row)
      (i : income_row) (a : ward_agg_row) :
  In (i, a) (merge_inner income ward_agg) <->
  In i income /\ In a ward_agg /\ inc_Ward i = agg_Ward a.
Proof.
  unfold merge_inner. rewrite in_flat_map. split.
  - intros (i' & Hi & Hin). apply in_map_iff in Hin as (a' & Heq & Ha).
    injection Heq as <- <-. apply filter_In in Ha as [Ha Hw].
    apply Z.eqb_eq in Hw. auto.
  - intros (Hi & Ha & Hw). exists i. split; [assumption|].
    apply in_map. apply filter_In. split; [assumption|]. now apply Z.eqb_eq.
Qed.

Lemma pivot_rows_NoDup (rows : list style_share_row) :
  NoDup (map fst (pv_rows (style_pivot rows))).
Proof.
  unfold style_pivot. cbn [pv_rows]. rewrite map_map. cbn [fst].
  rewrite map_id. apply ward_keys_NoDup.
Qed.

(** The style merge keeps the rows of the ward table, one for one. *)
Lemma merge_style_pivot_wards (ward_agg : list ward_agg_row) (pv : pivot) :
  NoDup (map fst (pv_rows pv)) ->
  map agg_Ward (merge_style_pivot ward_agg pv) = map agg_Ward ward_agg.
Proof.
  intros Hnd. unfold merge_style_pivot.
  set (names := map style_column_name (pv_columns pv)).
  induction ward_agg as [|a rest IH]; [reflexivity|].
  cbn [flat_map]. rewrite map_app, IH. cbn [map].
  change (agg_Ward a :: map agg_Ward rest)
    with ([agg_Ward a] ++ map agg_Ward rest).
  f_equal.
  destruct (filter_key_cases fst (fun r => fst r =? agg_Ward a) (agg_Ward a)
                             (pv_rows pv)) as [He | [r He]].
  - intros r Hr. now apply Z.eqb_eq in Hr.
  - assumption.
  - rewrite He. reflexivity.
  - rewrite He. reflexivity.
Qed.

Lemma ward_aggregate_wards (has_style_column : bool) (df : list assigned_listing) :
  map agg_Ward (ward_aggregate has_style_column df) = ward_keys (map Ward df).
Proof.
  assert (Hm : map agg_Ward (ward_metrics df) = ward_keys (map Ward df)).
  { unfold ward_metrics. rewrite map_map. cbn [ward_metrics_row agg_Ward].
    apply map_id. }
  unfold ward_aggregate. destruct has_style_column; [|exact Hm].
  rewrite merge_style_pivot_wards; [exact Hm | apply pivot_rows_NoDup].
Qed.

Lemma ward_aggregate_NoDup (has_style_column : bool) (df : list assigned_listing) :
  NoDup (map agg_Ward (ward_aggregate has_style_column df)).
Proof. rewrite ward_aggregate_wards. apply ward_keys_NoDup. Qed.

(** C8, counterexample: the income table lists ward 1 twice and the
    aggregate has the one row of ward 1; the dashboard has two rows, more
    than the smaller of the two row counts. *)
Lemma repeated_income_ward_exceeds_min :
  let tables := main box box_covers repeated_income one_listing_ward_1 false two_wards in
  List.length (clean_income repeated_income) = 2%nat /\
  List.length (fst tables) = 1%nat /\
  List.length (snd tables) = 2%nat /\
  ~ (List.length (snd tables) <=
     Nat.min (List.length (fst tables)) (List.length (clean_income repeated_income)))%nat.
Proof.
  vm_compute. repeat split. intros H. inversion H as [|? H1]. inversion H1.
Qed.

(** C8, amended: the dashboard is the inner join of the cleaned income
    table and the ward aggregate on the ward identifier.  Every dashboard
    row pairs an income row and an aggregate row of the same ward, so a
    ward present in only one table never appears; the row count is at most
    the income row count; and when the income table lists no ward twice it
    is at most the smaller of the two row counts. *)
Theorem dashboard_is_inner_join
        (polygon : Type) (covers : polygon -> point -> bool)
        (income_csv : list income_row) (re_csv : list listing)
        (has_style_column : bool)
        (ward_polygons : list (ward_polygon polygon)) :
  let income := clean_income income_csv in
  let ward_agg := fst (main polygon covers income_csv re_csv has_style_column ward_polygons) in
  let dash := snd (main polygon covers income_csv re_csv has_style_column ward_polygons) in
  (forall d, In d dash ->
     In (dash_income d) income /\ In (dash_agg d) ward_agg /\
     inc_Ward (dash_income d) = agg_Ward (dash_agg d)) /\
  (forall i a, In i income -> In a ward_agg -> inc_Ward i = agg_Ward a ->
     exists d, In d dash /\ dash_income d = i /\ dash_agg d = a) /\
  (forall w, ~ (In w (map inc_Ward income) /\ In w (map agg_Ward ward_agg)) ->
     ~ In w (map (fun d => inc_Ward (dash_income d)) dash)) /\
  (List.length dash <= List.length income)%nat /\
  (NoDup (map inc_Ward income) ->
   (List.length dash <= Nat.min (List.length ward_agg) (List.length income))%nat).
Proof.
  intros income ward_agg dash.
  assert (Hdash : dash = map dashboard_row_of (merge_inner income ward_agg))
    by reflexivity.
  assert (Hrows : forall d, In d dash ->
     In (dash_income d) income /\ In (dash_agg d) ward_agg /\
     inc_Ward (dash_income d) = agg_Ward (dash_agg d)).
  { intros d Hd. rewrite Hdash in Hd.
    apply in_map_iff in Hd as ([i a] & <- & Hin).
    apply In_merge_inner in Hin. exact Hin. }
  assert (Hle : (List.length dash <= List.length income)%nat).
  { rewrite Hdash, length_map. apply merge_inner_le_income.
    apply ward_aggregate_NoDup. }
  split; [exact Hrows|]. split; [|split; [|split]].
  - intros i a Hi Ha Hw. exists (dashboard_row_of (i, a)).
    split; [|split; reflexivity].
    rewrite Hdash. apply in_map. now apply In_merge_inner.
  - intros w Hnot Hin. apply in_map_iff in Hin as (d & <- & Hd).
    destruct (Hrows d Hd) as (Hi & Ha & Hw). apply Hnot. split.
    + now apply in_map.
    + rewrite Hw. now apply in_map.
  - exact Hle.
  - intros Hnd. apply Nat.min_glb; [|exact Hle].
    rewrite Hdash, length_map. now apply merge_inner_le_agg.
Qed.

Lemma dashboard_is_inner_join_witness :
  (List.length (snd (main box box_covers zero_income scenario_listings false two_wards)) <=
   Nat.min (List.length (fst (main box box_covers zero_income scenario_listings false two_wards)))
           (List.length (clean_income zero_income)))%nat.
Proof.
  apply (dashboard_is_inner_join box box_covers zero_income scenario_listings
                                 false two_wards).
  vm_compute. repeat constructor. intros [].
Defined.

(** ** Style shares *)

Lemma filter_all {A : Type} (p : A -> bool) (l : list A) :
  (forall a, In a l -> p a = true) -> filter p l = l.
Proof.
  induction l as [|a rest IH]; intros H; [reflexivity|].
  cbn [filter]. rewrite (H a (or_introl eq_refl)).
  f_equal. apply IH. intros b Hb. apply H. now right.
Qed.

Lemma filter_none {A : Type} (p : A -> bool) (l : list A) :
  (forall a, In a l -> p a = false) -> filter p l = [].
Proof.
  induction l as [|a rest IH]; intros H; [reflexivity|].
  cbn [filter]. rewrite (H a (or_introl eq_refl)).
  apply IH. intros b Hb. apply H. now right.
Qed.

Lemma filter_andb {A : Type} (p q : A -> bool) (l : list A) :
  filter (fun a => p a && q a) l = filter q (filter p l).
Proof.
  induction l as [|a rest IH]; [reflexivity|].
  cbn [filter]. destruct (p a); cbn [andb filter]; [|exact IH].
  destruct (q a); now rewrite IH.
Qed.

Lemma filter_map_comm {A B : Type} (f : A -> B) (p : B -> bool) (l : list A) :
  filter p (map f l) = map f (filter (fun a => p (f a)) l).
Proof.
  induction l as [|a rest IH]; [reflexivity|].
  cbn [map filter]. destruct (p (f a)); cbn [map]; now rewrite IH.
Qed.

Lemma map_as_flat_map {A B : Type} (f : A -> B) (l : list A) :
  map f l = flat_map (fun a => [f a]) l.
Proof. induction l as [|a rest IH]; cbn; [reflexivity | now rewrite IH]. Qed.

Lemma flat_map_ext_in {A B : Type} (f g : A -> list B) (l : list A) :
  (forall a, In a l -> f a = g a) -> flat_map f l = flat_map g l.
Proof.
  induction l as [|a rest IH]; intros H; [reflexivity|].
  cbn [flat_map]. rewrite (H a (or_introl eq_refl)).
  f_equal. apply IH. intros b Hb. apply H. now right.
Qed.

(** A table built group by group: the rows with key [w] are the group
    of [w]. *)
Section GroupedRows.
Context {K B : Type}.
Variable eqb : K -> K -> bool.
Hypothesis eqb_eq : forall x y, eqb x y = true <-> x = y.
Variable key : B -> K.
Variable f : K -> list B.
Hypothesis key_f : forall x b, In b (f x) -> key b = x.

Lemma filter_group_absent (l : list K) (w : K) :
  ~ In w l -> filter (fun b => eqb (key b) w) (flat_map f l) = [].
Proof.
  intros Hn. apply filter_none. intros b Hb.
  apply in_flat_map in Hb as (x & Hx & Hb).
  apply not_true_is_false. intros He. apply eqb_eq in He.
  rewrite (key_f x b Hb) in He. subst x. contradiction.
Qed.

Lemma filter_group_present (l : list K) (w : K) :
  NoDup l -> In w l -> filter (fun b => eqb (key b) w) (flat_map f l) = f w.
Proof.
  induction l as [|x rest IH]; intros Hnd Hin; [contradiction|].
  inversion Hnd as [|? ? Hnotin Hrest]; subst.
  cbn [flat_map]. rewrite filter_app.
  destruct Hin as [-> | Hin].
  - rewrite (filter_group_absent rest w Hnotin), app_nil_r.
    apply filter_all. intros b Hb. apply eqb_eq. now apply key_f.
  - rewrite (IH Hrest Hin).
    rewrite filter_none; [reflexivity|].
    intros b Hb. apply not_true_is_false. intros He. apply eqb_eq in He.
    rewrite (key_f x b Hb) in He. subst x. contradiction.
Qed.
End GroupedRows.

Lemma Z_eqb_eq' (x y : Z) : (x =? y) = true <-> x = y.
Proof. apply Z.eqb_eq. Qed.

(** Rows keyed by distinct wards. *)
Lemma filter_keyed_map {B : Type} (g : Z -> B) (keys : list Z) (w : Z) :
  NoDup keys ->
  filter (fun t => fst t =? w) (map (fun k => (k, g k)) keys) =
  if in_dec Z.eq_dec w keys then [(w, g w)] else [].
Proof.
  intros Hnd. rewrite map_as_flat_map.
  destruct (in_dec Z.eq_dec w keys) as [Hin | Hn].
  - apply (filter_group_present Z.eqb Z_eqb_eq' fst (fun k => [(k, g k)])); auto.
    intros x b [<- | []]. reflexivity.
  - apply (filter_group_absent Z.eqb Z_eqb_eq' fst (fun k => [(k, g k)])); auto.
    intros x b [<- | []]. reflexivity.
Qed.

(** *** Sums *)

Lemma Z_sum_map_add {A : Type} (f g : A -> Z) (l : list A) :
  Z_sum (map (fun a => f a + g a) l) = Z_sum (map f l) + Z_sum (map g l).
Proof.
  induction l as [|a rest IH]; cbn [map Z_sum fold_right]; [reflexivity|].
  unfold Z_sum in IH. rewrite IH. lia.
Qed.

Lemma Z_sum_map_ext {A : Type} (f g : A -> Z) (l : list A) :
  (forall a, In a l -> f a = g a) -> Z_sum (map f l) = Z_sum (map g l).
Proof.
  intros H. f_equal. apply map_ext_in. exact H.
Qed.

Lemma Z_sum_zero {A : Type} (l : list A) : Z_sum (map (fun _ => 0) l) = 0.
Proof. induction l as [|a rest IH]; cbn; [reflexivity | exact IH]. Qed.

Lemma Z_sum_indicator (c0 : string) (cols : list string) :
  NoDup cols -> In c0 cols ->
  Z_sum (map (fun c => if String.eqb c0 c then 1 else 0) cols) = 1.
Proof.
  induction cols as [|c rest IH]; intros Hnd Hin; [contradiction|].
  inversion Hnd as [|? ? Hnotin Hrest]; subst.
  cbn [map Z_sum fold_right]. fold (Z_sum (map (fun c => if String.eqb c0 c then 1 else 0) rest)).
  destruct (String.eqb_spec c0 c) as [-> | Hne].
  - rewrite (Z_sum_map_ext _ (fun _ => 0)), Z_sum_zero; [reflexivity|].
    intros a Ha. destruct (String.eqb_spec c a) as [-> | _]; [contradiction | reflexivity].
  - destruct Hin as [-> | Hin]; [contradiction|]. rewrite (IH Hrest Hin). reflexivity.
Qed.

Lemma Q_sum_shares (f : string -> Z) (total : positive) (cols : list string) :
  (Q_sum (map (fun c => f c # total) cols) == Z_sum (map f cols) # total)%Q.
Proof.
  induction cols as [|c rest IH]; cbn [map Q_sum Z_sum fold_right].
  - reflexivity.
  - fold (Q_sum (map (fun c => f c # total) rest)).
    fold (Z_sum (map f rest)). rewrite IH.
    unfold Qeq, Qplus. cbn [Qnum Qden]. rewrite !Pos2Z.inj_mul. ring.
Qed.

(** *** Counting the styled listings of a ward *)

Lemma pair_count_cons (r : assigned_listing) (df : list assigned_listing)
      (w : Z) (c : string) :
  pair_count (r :: df) w c =
  (if (Ward r =? w) && style_is c r then 1 else 0) + pair_count df w c.
Proof.
  unfold pair_count. cbn [filter].
  destruct ((Ward r =? w) && style_is c r); cbn [List.length]; lia.
Qed.

Lemma styled_total_cons (r : assigned_listing) (df : list assigned_listing) (w : Z) :
  styled_total (r :: df) w =
  (match style_of r with
   | Some _ => if Ward r =? w then 1 else 0
   | None => 0
   end) + styled_total df w.
Proof.
  unfold styled_total, styled. cbn [filter].
  destruct (style_of r); [|lia].
  cbn [filter]. destruct (Ward r =? w); cbn [List.length]; lia.
Qed.

Lemma pair_counts_sum (df : list assigned_listing) (w : Z) (cols : list string) :
  NoDup cols ->
  (forall c, In c (observed_styles df) -> In c cols) ->
  Z_sum (map (pair_count df w) cols) = styled_total df w.
Proof.
  intros Hnd. induction df as [|r rest IH]; intros Hall.
  - unfold pair_count, styled_total. cbn. apply Z_sum_zero.
  - rewrite (Z_sum_map_ext _ _ cols (fun c _ => pair_count_cons r rest w c)).
    rewrite Z_sum_map_add, styled_total_cons.
    rewrite IH by (intros c Hc; apply Hall; unfold observed_styles in *;
                   cbn [flat_map]; apply in_or_app; now right).
    f_equal. unfold style_is.
    destruct (style_of r) as [c0|] eqn:Hs.
    + destruct (Ward r =? w); cbn [andb].
      * apply Z_sum_indicator; [assumption|]. apply Hall.
        unfold observed_styles. cbn [flat_map]. rewrite Hs. now left.
      * apply Z_sum_zero.
    + rewrite (Z_sum_map_ext _ (fun _ => 0)); [apply Z_sum_zero|].
      intros c _. now rewrite andb_false_r.
Qed.

Lemma pair_count_pos_iff (df : list assigned_listing) (w : Z) (c : string) :
  pair_count df w c <> 0 <->
  exists r, In r df /\ Ward r = w /\ style_of r = Some c.
Proof.
  unfold pair_count. split.
  - intros H. destruct (filter _ df) as [|r l] eqn:Hf; [cbn in H; lia|].
    assert (Hr : In r (filter (fun r => (Ward r =? w) && style_is c r) df))
      by (rewrite Hf; now left).
    apply filter_In in Hr as [Hin Hp]. apply andb_true_iff in Hp as [Hw Hc].
    exists r. split; [assumption|]. split; [now apply Z.eqb_eq|].
    unfold style_is in Hc. destruct (style_of r) as [c'|]; [|discriminate].
    apply String.eqb_eq in Hc. now subst.
  - intros (r & Hin & Hw & Hc).
    assert (Hr : In r (filter (fun r => (Ward r =? w) && style_is c r) df)).
    { apply filter_In. split; [assumption|]. apply andb_true_iff. split.
      - now apply Z.eqb_eq.
      - unfold style_is. rewrite Hc. apply String.eqb_refl. }
    destruct (filter _ df); [contradiction|]. cbn [List.length]. lia.
Qed.

Lemma pair_count_nonneg (df : list assigned_listing) (w : Z) (c : string) :
  0 <= pair_count df w c.
Proof. unfold pair_count. lia. Qed.

Lemma styled_total_pos_iff (df : list assigned_listing) (w : Z) :
  0 < styled_total df w <-> In w (map Ward (styled df)).
Proof.
  unfold styled_total. split.
  - intros H. destruct (filter _ (styled df)) as [|r l] eqn:Hf; [cbn in H; lia|].
    assert (Hr : In r (filter (fun r => Ward r =? w) (styled df)))
      by (rewrite Hf; now left).
    apply filter_In in Hr as [Hin Hw]. apply Z.eqb_eq in Hw.
    rewrite <- Hw. now apply in_map.
  - intros Hin. apply in_map_iff in Hin as (r & Hw & Hin).
    assert (Hr : In r (filter (fun r => Ward r =? w) (styled df))).
    { apply filter_In. split; [assumption | now apply Z.eqb_eq]. }
    destruct (filter _ (styled df)); [contradiction|]. cbn [List.length]. lia.
Qed.

Lemma In_styled (df : list assigned_listing) (r : assigned_listing) :
  In r (styled df) <-> In r df /\ exists c, style_of r = Some c.
Proof.
  unfold styled. rewrite filter_In. split; intros [Hin H]; split; auto.
  - destruct (style_of r) as [c|]; [now exists c | discriminate].
  - destruct H as [c ->]. reflexivity.
Qed.

Lemma In_observed_styles (df : list assigned_listing) (c : string) :
  In c (observed_styles df) <-> exists r, In r df /\ style_of r = Some c.
Proof.
  unfold observed_styles. rewrite in_flat_map. split.
  - intros (r & Hin & Hc). exists r. split; [assumption|].
    destruct (style_of r) as [c'|]; [|contradiction].
    destruct Hc as [-> | []]. reflexivity.
  - intros (r & Hin & Hc). exists r. split; [assumption|].
    rewrite Hc. now left.
Qed.

(** *** Signs of rounded results *)

Lemma binary_round_aux_sign (s : bool) (m e : Z) (l : location) :
  signed_or_nan s (binary_round_aux B64.prec B64.emax s m e l).
Proof.
  unfold binary_round_aux, signed_or_nan.
  destruct (shr_fexp B64.prec B64.emax m e l) as [mrs' e'].
  destruct (shr_fexp B64.prec B64.emax _ e' loc_Exact) as [mrs'' e''].
  destruct (shr_m mrs'') as [|p|p].
  - right. split; reflexivity.
  - destruct (e'' <=? B64.emax - B64.prec); right; split; reflexivity.
  - now left.
Qed.

Lemma of_Z_sign (n : Z) : 0 <= n -> signed_or_nan false (B64.of_Z n).
Proof.
  intros Hn. unfold B64.of_Z, binary_normalize.
  destruct n as [|p|p]; [right; split; reflexivity| |lia].
  unfold binary_round.
  destruct (shl_align p 0 _) as [mz ez]. apply binary_round_aux_sign.
Qed.

Lemma div_sign (x y : float) :
  signed_or_nan false x -> signed_or_nan false y ->
  signed_or_nan false (B64.div x y).
Proof.
  intros [-> | [Hnx Hsx]]; [now left|].
  intros [-> | [Hny Hsy]]; [left; apply div_nan_r|].
  destruct x as [sx | sx | | sx mx ex]; try discriminate;
    destruct y as [sy | sy | | sy my ey]; try discriminate;
    cbn [B64.sign] in Hsx, Hsy; subst sx sy; cbn [B64.div SFdiv xorb];
    try (now left); try (right; split; reflexivity).
  destruct (SFdiv_core_binary B64.prec B64.emax (Zpos mx) ex (Zpos my) ey)
    as [[mz ez] lz].
  apply binary_round_aux_sign.
Qed.

Lemma add_pzero (x : float) :
  signed_or_nan false x -> B64.add B64.pzero x = x.
Proof.
  intros [-> | [Hn Hs]]; [reflexivity|].
  destruct x as [s | s | | s m e]; try discriminate; cbn [B64.sign] in Hs;
    subst; reflexivity.
Qed.

Lemma float_sum_share (n t : Z) :
  0 <= n -> 0 <= t ->
  float_sum [B64.div (B64.of_Z n) (B64.of_Z t)] = B64.div (B64.of_Z n) (B64.of_Z t).
Proof.
  intros Hn Ht. unfold float_sum. cbn [fold_left].
  apply add_pzero, div_sign; now apply of_Z_sign.
Qed.

(** *** The style tables of a frame of assigned listings *)

Section StyleTables.
Variable df : list assigned_listing.

Lemma style_counts_unfold : style_counts df = flat_map (counts_of df) (styled_wards df).
Proof. reflexivity. Qed.

Lemma In_counts_of (w : Z) (r : style_count_row) :
  In r ((counts_of df) w) <->
  In (sc_Listing_Style r) (style_key_list df) /\ pair_count df w (sc_Listing_Style r) <> 0 /\
  r = {| sc_Ward := w; sc_Listing_Style := sc_Listing_Style r;
         Style_Count := pair_count df w (sc_Listing_Style r) |}.
Proof.
  unfold counts_of. rewrite in_flat_map. split.
  - intros (c & Hc & Hin).
    destruct (Z.eqb_spec (pair_count df w c) 0) as [|Hne]; [contradiction|].
    destruct Hin as [<- | []]. cbn [sc_Listing_Style]. auto.
  - intros (Hc & Hne & Hr). exists (sc_Listing_Style r). split; [assumption|].
    destruct (Z.eqb_spec (pair_count df w (sc_Listing_Style r)) 0);
      [contradiction|]. left. now symmetry.
Qed.

Lemma counts_of_ward (w : Z) (r : style_count_row) :
  In r ((counts_of df) w) -> sc_Ward r = w.
Proof. intros H. apply In_counts_of in H as (_ & _ & ->). reflexivity. Qed.

Lemma pair_count_keys (w : Z) (c : string) :
  pair_count df w c <> 0 -> In w (styled_wards df) /\ In c (style_key_list df).
Proof.
  intros H. apply pair_count_pos_iff in H as (r & Hin & Hw & Hc). split.
  - apply ward_keys_In. rewrite <- Hw. apply in_map.
    apply In_styled. split; [assumption | now exists c].
  - apply style_keys_In. apply In_observed_styles. now exists r.
Qed.

Lemma In_style_counts (r : style_count_row) :
  In r (style_counts df) <->
  pair_count df (sc_Ward r) (sc_Listing_Style r) <> 0 /\
  Style_Count r = pair_count df (sc_Ward r) (sc_Listing_Style r).
Proof.
  rewrite style_counts_unfold, in_flat_map. split.
  - intros (w & Hw & Hin). pose proof (counts_of_ward w r Hin) as Hrw.
    apply In_counts_of in Hin as (_ & Hne & Hr). subst w.
    split; [assumption|]. now rewrite Hr.
  - intros [Hne Hcount]. destruct (pair_count_keys _ _ Hne) as [Hw Hc].
    exists (sc_Ward r). split; [assumption|]. apply In_counts_of.
    split; [assumption|]. split; [assumption|].
    destruct r as [w c n]. cbn in *. now subst n.
Qed.

(** The rows of a ward in [style_counts]. *)
Lemma style_counts_of_ward (w : Z) :
  filter (fun r => sc_Ward r =? w) (style_counts df) =
  if in_dec Z.eq_dec w (styled_wards df) then (counts_of df) w else [].
Proof.
  rewrite style_counts_unfold.
  destruct (in_dec Z.eq_dec w (styled_wards df)) as [Hin | Hn].
  - apply (filter_group_present Z.eqb Z_eqb_eq' sc_Ward (counts_of df));
      [apply counts_of_ward | apply ward_keys_NoDup | assumption].
  - apply (filter_group_absent Z.eqb Z_eqb_eq' sc_Ward (counts_of df));
      [apply counts_of_ward | assumption].
Qed.

Lemma counts_of_sum (w : Z) :
  Z_sum (map Style_Count ((counts_of df) w)) = styled_total df w.
Proof.
  rewrite <- (pair_counts_sum df w (style_key_list df)).
  - unfold counts_of. induction (style_key_list df) as [|c rest IH]; [reflexivity|].
    cbn [flat_map map]. rewrite map_app.
    unfold Z_sum in *. rewrite fold_right_app. cbn [fold_right].
    rewrite <- IH.
    destruct (Z.eqb_spec (pair_count df w c) 0) as [H0 | Hne].
    + cbn. lia.
    + cbn [map fold_right Style_Count].
      generalize (map Style_Count
                   (flat_map (fun c0 => if pair_count df w c0 =? 0 then []
                      else [{| sc_Ward := w; sc_Listing_Style := c0;
                               Style_Count := pair_count df w c0 |}]) rest)).
      intros l. induction l as [|x l IHl]; cbn [fold_right]; lia.
  - apply style_keys_NoDup.
  - intros c Hc. now apply style_keys_In.
Qed.

Lemma style_counts_wards (w : Z) :
  In w (map sc_Ward (style_counts df)) <-> In w (styled_wards df).
Proof.
  rewrite in_map_iff. split.
  - intros (r & <- & Hin). apply In_style_counts in Hin as [Hne _].
    now apply pair_count_keys in Hne.
  - intros Hin. apply (proj1 (ward_keys_In (map Ward (styled df)) w)) in Hin.
    apply in_map_iff in Hin as (r & Hw & Hin).
    apply In_styled in Hin as [Hin [c Hc]].
    exists {| sc_Ward := w; sc_Listing_Style := c; Style_Count := pair_count df w c |}.
    split; [reflexivity|]. apply In_style_counts. cbn.
    split; [|reflexivity]. apply pair_count_pos_iff. now exists r.
Qed.

Lemma wardS_iff (w : Z) : In w (styled_wards df) <-> 0 < styled_total df w.
Proof. unfold styled_wards. now rewrite ward_keys_In, styled_total_pos_iff. Qed.

(** The total joined to a row of [style_counts]. *)
Lemma ward_totals_of (w : Z) :
  In w (styled_wards df) ->
  filter (fun t => fst t =? w) (ward_totals (style_counts df)) =
  [(w, styled_total df w)].
Proof.
  intros Hin. unfold ward_totals.
  rewrite (filter_keyed_map _ _ w (ward_keys_NoDup _)).
  destruct (in_dec Z.eq_dec w _) as [_ | Hn].
  - rewrite style_counts_of_ward.
    destruct (in_dec Z.eq_dec w (styled_wards df)); [|contradiction].
    now rewrite counts_of_sum.
  - exfalso. apply Hn. apply ward_keys_In. now apply style_counts_wards.
Qed.

Lemma with_shares_map :
  with_shares (style_counts df) = map (share_of df) (style_counts df).
Proof.
  unfold with_shares. rewrite map_as_flat_map.
  apply flat_map_ext_in. intros r Hr.
  assert (Hw : In (sc_Ward r) (styled_wards df)).
  { apply style_counts_wards. now apply in_map. }
  rewrite (ward_totals_of _ Hw). reflexivity.
Qed.

(** The row of [style_counts] for a ward and a style, if any. *)
Lemma style_counts_cell (w : Z) (c : string) :
  filter (fun r => (sc_Ward r =? w) && String.eqb (sc_Listing_Style r) c)
         (style_counts df) =
  if pair_count df w c =? 0 then []
  else [{| sc_Ward := w; sc_Listing_Style := c;
           Style_Count := pair_count df w c |}].
Proof.
  rewrite filter_andb, style_counts_of_ward.
  assert (Hcell : forall c' b,
             In b (if pair_count df w c' =? 0 then []
                   else [{| sc_Ward := w; sc_Listing_Style := c';
                            Style_Count := pair_count df w c' |}]) ->
             sc_Listing_Style b = c').
  { intros c' b Hb. destruct (pair_count df w c' =? 0); [contradiction|].
    destruct Hb as [<- | []]. reflexivity. }
  destruct (Z.eqb_spec (pair_count df w c) 0) as [H0 | Hne].
  - destruct (in_dec Z.eq_dec w (styled_wards df)) as [Hw | Hw]; [|reflexivity].
    destruct (in_dec string_dec c (style_key_list df)) as [Hc | Hc].
    + unfold counts_of.
      rewrite (filter_group_present String.eqb String.eqb_eq sc_Listing_Style
                 _ Hcell (style_key_list df) c (style_keys_NoDup _) Hc).
      now rewrite H0.
    + unfold counts_of.
      now rewrite (filter_group_absent String.eqb String.eqb_eq sc_Listing_Style
                     _ Hcell (style_key_list df) c Hc).
  - destruct (pair_count_keys w c Hne) as [Hw Hc].
    destruct (in_dec Z.eq_dec w (styled_wards df)); [|contradiction].
    unfold counts_of.
    rewrite (filter_group_present String.eqb String.eqb_eq sc_Listing_Style
               _ Hcell (style_key_list df) c (style_keys_NoDup _) Hc).
    destruct (Z.eqb_spec (pair_count df w c) 0); [contradiction | reflexivity].
Qed.

(** A cell of the pivot: the share, or the fill value 0. *)
Lemma pivot_cell_value (w : Z) (c : string) :
  pivot_cell (with_shares (style_counts df)) w c =
  if pair_count df w c =? 0 then B64.pzero
  else B64.div (B64.of_Z (pair_count df w c)) (B64.of_Z (styled_total df w)).
Proof.
  unfold pivot_cell. rewrite with_shares_map, filter_map_comm.
  cbn [share_of share_row ss_row]. rewrite style_counts_cell.
  destruct (pair_count df w c =? 0); [reflexivity|].
  cbn [map share_of share_row Style_Share Style_Count sc_Ward].
  apply float_sum_share.
  - apply pair_count_nonneg.
  - unfold styled_total. lia.
Qed.

Lemma style_columns_In (c : string) :
  In c (style_columns df) <-> In c (observed_styles df).
Proof.
  unfold style_columns, style_pivot. cbn [pv_columns].
  rewrite style_keys_In, with_shares_map, map_map.
  cbn [share_of share_row ss_row]. rewrite in_map_iff. split.
  - intros (r & <- & Hin). apply In_style_counts in Hin as [Hne _].
    apply pair_count_keys in Hne as [_ Hc].
    now apply (proj1 (style_keys_In (observed_styles df) _)) in Hc.
  - intros Hc. apply In_observed_styles in Hc as (r & Hin & Hc).
    exists {| sc_Ward := Ward r; sc_Listing_Style := c;
              Style_Count := pair_count df (Ward r) c |}.
    split; [reflexivity|]. apply In_style_counts. cbn.
    split; [|reflexivity]. apply pair_count_pos_iff. now exists r.
Qed.

Lemma style_columns_NoDup : NoDup (style_columns df).
Proof. apply style_keys_NoDup. Qed.

(** The wards that have a row in the pivot. *)
Lemma pivot_wards (w : Z) :
  In w (ward_keys (map (fun r => sc_Ward (ss_row r))
                       (with_shares (style_counts df)))) <->
  0 < styled_total df w.
Proof.
  rewrite ward_keys_In, with_shares_map, map_map.
  cbn [share_of share_row ss_row].
  now rewrite style_counts_wards, wardS_iff.
Qed.

Lemma combine_map_cells (cells : string -> float) (cols : list string) :
  combine (map style_column_name cols) (map cells cols) =
  map (fun c => (style_column_name c, cells c)) cols.
Proof.
  induction cols as [|c rest IH]; cbn; [reflexivity | now rewrite IH].
Qed.

(** The style cells of a row of the ward table. *)
Lemma ward_aggregate_style_cells (a : ward_agg_row) :
  In a (ward_aggregate true df) ->
  StyleShare a =
  map (fun c =>
         (style_column_name c,
          if 0 <? styled_total df (agg_Ward a)
          then pivot_cell (with_shares (style_counts df)) (agg_Ward a) c
          else B64.nan))
      (style_columns df).
Proof.
  unfold ward_aggregate, merge_style_pivot. rewrite in_flat_map.
  intros (a0 & Hin0 & Hin).
  set (rows := with_shares (style_counts df)) in *.
  fold (style_columns df) in Hin.
  unfold style_pivot in Hin. cbn [pv_rows pv_columns] in Hin.
  fold (style_columns df) in Hin.
  rewrite (filter_keyed_map _ _ (agg_Ward a0) (ward_keys_NoDup _)) in Hin.
  destruct (in_dec Z.eq_dec (agg_Ward a0) _) as [Hw | Hw].
  - destruct Hin as [<- | []]. cbn [set_StyleShare StyleShare agg_Ward snd].
    apply pivot_wards in Hw. apply Z.ltb_lt in Hw. rewrite Hw.
    apply combine_map_cells.
  - destruct Hin as [<- | []]. cbn [set_StyleShare StyleShare agg_Ward].
    assert (Hz : (0 <? styled_total df (agg_Ward a0)) = false).
    { apply Z.ltb_ge. apply Z.nlt_ge. intros H. apply Hw. now apply pivot_wards. }
    rewrite Hz. now rewrite map_map.
Qed.
End StyleTables.

Lemma exact_shares_sum (df : list assigned_listing) (w : Z) (cols : list string) :
  0 < styled_total df w ->
  Z_sum (map (pair_count df w) cols) = styled_total df w ->
  (Q_sum (map (fun c => exact_share (pair_count df w c) (styled_total df w)) cols) == 1)%Q.
Proof.
  intros Hpos Hsum. unfold exact_share. rewrite Q_sum_shares, Hsum.
  unfold Qeq. cbn [Qnum Qden]. rewrite Z2Pos.id by assumption. ring.
Qed.

(** C5, counterexample: ward 1 has one listing, whose style is missing,
    and ward 2 has a listing of style "Detached".  Ward 1 is in the
    aggregate and has the column of the observed category, but its entry is
    NaN: it is not 0.0, and the entries of ward 1 do not sum to 1.0. *)
Lemma unstyled_ward_share_is_missing :
  let df := main_re_with_ward box box_covers unstyled_ward_listings two_wards in
  exists a,
    In a (fst (main box box_covers [] unstyled_ward_listings true two_wards)) /\
    agg_Ward a = 1 /\ Listings a = 1 /\
    In "Detached"%string (observed_styles df) /\
    StyleShare a = [(style_column_name "Detached", B64.nan)] /\
    float_sum (map snd (StyleShare a)) = B64.nan /\
    B64.nan <> B64.of_Z 0 /\ B64.nan <> B64.of_Z 1.
Proof.
  eexists. split; [vm_compute; left; reflexivity|].
  vm_compute. repeat split; try discriminate. now left.
Qed.

(** C5, amended: with a style column, the share table is rectangular:
    every row of the ward aggregate has one cell for each category observed
    anywhere among the assigned listings, under the column name of that
    category.  For a ward with at least one listing that has a style, the
    cell of a category is 0.0 when the ward has no listing of it and
    otherwise the quotient of the ward's count for the category by the
    ward's number of styled listings; these counts add up to that number,
    so the exact shares sum to 1.  For a ward whose listings all lack a
    style every cell is NaN. *)
Theorem style_shares_rectangular
        (polygon : Type) (covers : polygon -> point -> bool)
        (income_csv : list income_row) (re_csv : list listing)
        (ward_polygons : list (ward_polygon polygon)) (a : ward_agg_row) :
  let df := main_re_with_ward polygon covers re_csv ward_polygons in
  let w := agg_Ward a in
  In a (fst (main polygon covers income_csv re_csv true ward_polygons)) ->
  NoDup (style_columns df) /\
  (forall c, In c (style_columns df) <-> In c (observed_styles df)) /\
  map fst (StyleShare a) = map style_column_name (style_columns df) /\
  (0 < styled_total df w ->
   StyleShare a =
     map (fun c =>
            (style_column_name c,
             if pair_count df w c =? 0 then B64.pzero
             else B64.div (B64.of_Z (pair_count df w c))
                          (B64.of_Z (styled_total df w))))
         (style_columns df) /\
   Z_sum (map (pair_count df w) (style_columns df)) = styled_total df w /\
   (Q_sum (map (fun c => exact_share (pair_count df w c) (styled_total df w))
               (style_columns df)) == 1)%Q) /\
  (styled_total df w = 0 ->
   StyleShare a = map (fun c => (style_column_name c, B64.nan)) (style_columns df)).
Proof.
  intros df w Hin. cbn [main fst] in Hin. fold df in Hin.
  pose proof (ward_aggregate_style_cells df a Hin) as Hcells. fold w in Hcells.
  assert (Hsum : Z_sum (map (pair_count df w) (style_columns df)) = styled_total df w).
  { apply pair_counts_sum; [apply style_columns_NoDup|].
    intros c Hc. now apply style_columns_In. }
  split; [apply style_columns_NoDup|].
  split; [apply style_columns_In|].
  split; [|split].
  - rewrite Hcells, map_map. reflexivity.
  - intros Hpos. split; [|split; [exact Hsum | now apply exact_shares_sum]].
    rewrite Hcells. apply map_ext. intros c.
    apply Z.ltb_lt in Hpos. rewrite Hpos. now rewrite pivot_cell_value.
  - intros Hz. rewrite Hcells. apply map_ext. intros c.
    now rewrite Hz.
Qed.

Lemma style_shares_rectangular_witness :
  map fst (StyleShare styled_ward_1) =
  map style_column_name
      (style_columns (main_re_with_ward box box_covers styled_listings two_wards)).
Proof.
  apply (style_shares_rectangular box box_covers [] styled_listings two_wards
                                  styled_ward_1).
  vm_compute. left. reflexivity.
Defined.

(** The shares of [styled_listings]: ward 1 is half condo and half
    detached, ward 2 is all detached and has 0.0 for condo. *)
Example styled_listings_shares :
  map (fun a => (agg_Ward a, StyleShare a))
      (fst (main box box_covers [] styled_listings true two_wards)) =
  [ (1, [ (style_column_name "Condo", B64.div (B64.of_Z 1) (B64.of_Z 2));
          (style_column_name "Detached", B64.div (B64.of_Z 1) (B64.of_Z 2)) ]);
    (2, [ (style_column_name "Condo", B64.pzero);
          (style_column_name "Detached", B64.of_Z 1) ]) ].
Proof. vm_compute. reflexivity. Qed.

(** * Further properties of the pipeline *)

(** ** Spatial assignment: which listings are kept *)

Section AssignmentFacts.
Variable polygon : Type.
Variable covers : polygon -> point -> bool.

Lemma first_covering_In (wards : list (Z * polygon)) (pt : point) (w : Z) :
  fst (first_covering polygon covers wards pt) = Some w ->
  exists poly, In (w, poly) wards /\ covers poly pt = true.
Proof.
  induction wards as [|[w0 p0] rest IH]; cbn [first_covering].
  - discriminate.
  - destruct (covers p0 pt) eqn:Hc.
    + cbn [fst]. intros [= <-]. exists p0. split; [now left | assumption].
    + destruct (first_covering polygon covers rest pt) as [assigned tested].
      cbn [fst] in *. intros Hw. destruct (IH Hw) as (poly & Hin & Hcov).
      exists poly. split; [now right | assumption].
Qed.

Lemma first_covering_found (wards : list (Z * polygon)) (pt : point) :
  (exists wp, In wp wards /\ covers (snd wp) pt = true) ->
  exists w, fst (first_covering polygon covers wards pt) = Some w.
Proof.
  induction wards as [|[w0 p0] rest IH]; cbn [first_covering].
  - intros (wp & [] & _).
  - intros (wp & Hin & Hcov). destruct (covers p0 pt) eqn:Hc.
    + now exists w0.
    + destruct Hin as [<- | Hin]; [cbn [snd] in Hcov; congruence|].
      destruct (IH (ex_intro _ wp (conj Hin Hcov))) as [w Hw].
      destruct (first_covering polygon covers rest pt) as [assigned tested].
      cbn [fst] in *. now exists w.
Qed.

Lemma existsb_covers (ward_polygons : list (ward_polygon polygon)) (pt : point) :
  existsb (fun wp => covers (geometry wp) pt) ward_polygons = true <->
  exists wp, In wp (wards_of polygon ward_polygons) /\ covers (snd wp) pt = true.
Proof.
  rewrite existsb_exists. unfold wards_of. split.
  - intros (wp & Hin & Hc). exists (ward_id wp, geometry wp).
    split; [|exact Hc]. apply in_map_iff. now exists wp.
  - intros (wp & Hin & Hc). apply in_map_iff in Hin as (wp0 & <- & Hin).
    now exists wp0.
Qed.

(** The rows kept for one listing: one row if it is assignable, none
    otherwise. *)
Lemma assigned_of_cases (ward_polygons : list (ward_polygon polygon)) (row : listing) :
  map base (assigned_of polygon covers (wards_of polygon ward_polygons) row) =
  if assignable covers ward_polygons row then [row] else [].
Proof.
  unfold assigned_of, ward_cell, assignable.
  destruct (bad_coordinates row); cbn [negb andb fst]; [reflexivity|].
  destruct (existsb _ ward_polygons) eqn:He.
  - apply existsb_covers in He. apply first_covering_found in He as [w ->].
    reflexivity.
  - rewrite first_covering_none; [reflexivity|].
    intros wp Hin. apply not_true_is_false. intros Hc.
    assert (Ht : existsb (fun wp => covers (geometry wp) (listing_point row))
                         ward_polygons = true)
      by (apply existsb_covers; now exists wp).
    congruence.
Qed.

Lemma assigned_of_bases (listings_df : list listing)
      (ward_polygons : list (ward_polygon polygon)) :
  map base (flat_map (assigned_of polygon covers (wards_of polygon ward_polygons))
                     listings_df) =
  filter (assignable covers ward_polygons) listings_df.
Proof.
  induction listings_df as [|row rest IH]; [reflexivity|].
  cbn [flat_map filter]. rewrite map_app, IH, assigned_of_cases.
  now destruct (assignable covers ward_polygons row).
Qed.

Lemma assigned_bases (listings_df : list listing)
      (ward_polygons : list (ward_polygon polygon)) :
  NoDup (map row_id listings_df) ->
  map base (assign_ward_to_points polygon covers listings_df ward_polygons) =
  filter (assignable covers ward_polygons) listings_df.
Proof.
  intros Hnd. rewrite assign_ward_to_points_flat_map by assumption.
  apply assigned_of_bases.
Qed.

Lemma rows_with_ward_bases (re_csv : list listing)
      (ward_polygons : list (ward_polygon polygon)) :
  map base (rows_with_ward polygon covers re_csv ward_polygons) =
  filter (assignable covers ward_polygons) (drop_missing_key_fields re_csv).
Proof. apply assigned_of_bases. Qed.

(** The cells the loop writes depend on the polygons through what each
    row with both coordinates finds. *)
Lemma cell_after_ext (wards wards' : list (Z * polygon)) (rows : list listing)
      (i : Z) (cell : option Z) :
  (forall row, In row rows -> bad_coordinates row = false ->
     fst (first_covering polygon covers wards' (listing_point row)) =
     fst (first_covering polygon covers wards (listing_point row))) ->
  cell_after polygon covers wards' rows i cell =
  cell_after polygon covers wards rows i cell.
Proof.
  revert cell. induction rows as [|row rest IH]; intros cell H; [reflexivity|].
  rewrite !cell_after_cons.
  assert (Hrest : forall r, In r rest -> bad_coordinates r = false ->
            fst (first_covering polygon covers wards' (listing_point r)) =
            fst (first_covering polygon covers wards (listing_point r)))
    by (intros r Hr; apply H; now right).
  destruct (bad_coordinates row) eqn:Hbad; [now apply IH|].
  rewrite (H row (or_introl eq_refl) Hbad). now apply IH.
Qed.

(** The ward written for a listing does not depend on the order of the
    polygons when no two wards claim its point. *)
Lemma ward_cell_permutation (wps wps' : list (ward_polygon polygon)) (row : listing) :
  Permutation wps wps' ->
  (forall wp1 wp2, In wp1 wps -> In wp2 wps ->
     covers (geometry wp1) (listing_point row) = true ->
     covers (geometry wp2) (listing_point row) = true ->
     ward_id wp1 = ward_id wp2) ->
  fst (ward_cell polygon covers (wards_of polygon wps') row) =
  fst (ward_cell polygon covers (wards_of polygon wps) row).
Proof.
  intros Hperm Huniq. unfold ward_cell.
  destruct (bad_coordinates row); [reflexivity|].
  set (pt := listing_point row) in *.
  assert (Hwards : forall l w,
             fst (first_covering polygon covers (wards_of polygon l) pt) = Some w ->
             exists wp, In wp l /\ ward_id wp = w /\ covers (geometry wp) pt = true).
  { intros l w Hw. apply first_covering_In in Hw as (poly & Hin & Hc).
    apply in_map_iff in Hin as (wp & Heq & Hin). injection Heq as <- <-.
    now exists wp. }
  destruct (fst (first_covering polygon covers (wards_of polygon wps) pt))
    as [w|] eqn:H1.
  - destruct (Hwards wps w H1) as (wp & Hin & Hid & Hc).
    assert (Hex : exists wp0, In wp0 (wards_of polygon wps') /\ covers (snd wp0) pt = true).
    { exists (ward_id wp, geometry wp). split; [|exact Hc].
      apply in_map_iff. exists wp. split; [reflexivity|].
      now apply (Permutation_in _ Hperm). }
    apply first_covering_found in Hex as [w' Hw']. rewrite Hw'.
    destruct (Hwards wps' w' Hw') as (wp' & Hin' & Hid' & Hc').
    apply (Permutation_in _ (Permutation_sym Hperm)) in Hin'.
    f_equal. rewrite <- Hid, <- Hid'. now apply Huniq.
  - destruct (fst (first_covering polygon covers (wards_of polygon wps') pt))
      as [w'|] eqn:H2; [|reflexivity].
    destruct (Hwards wps' w' H2) as (wp' & Hin' & Hid' & Hc').
    apply (Permutation_in _ (Permutation_sym Hperm)) in Hin'.
    assert (Hex : exists wp0, In wp0 (wards_of polygon wps) /\ covers (snd wp0) pt = true).
    { exists (ward_id wp', geometry wp'). split; [|exact Hc'].
      apply in_map_iff. now exists wp'. }
    apply first_covering_found in Hex as [w Hw]. congruence.
Qed.
End AssignmentFacts.

(** X1: of a frame whose index labels are distinct, spatial assignment
    keeps exactly the listings that have both coordinates and whose point
    some polygon covers, once each, unchanged and in the order of the
    frame. *)
Theorem assign_ward_to_points_keeps_assignable
        (polygon : Type) (covers : polygon -> point -> bool)
        (listings_df : list listing)
        (ward_polygons : list (ward_polygon polygon)) :
  NoDup (map row_id listings_df) ->
  map base (assign_ward_to_points polygon covers listings_df ward_polygons) =
  filter (assignable covers ward_polygons) listings_df.
Proof. apply assigned_bases. Qed.

Lemma assign_ward_to_points_keeps_assignable_witness :
  map base (assign_ward_to_points box box_covers scenario_listings two_wards) =
  filter (assignable box_covers two_wards) scenario_listings.
Proof.
  apply (assign_ward_to_points_keeps_assignable box box_covers scenario_listings
           two_wards).
  cbv [scenario_listings mk_listing map row_id].
  repeat constructor; cbn [In]; intuition discriminate.
Defined.

(** X2: when no point of a listing is covered by polygons of two different
    wards, the result of spatial assignment does not depend on the order in
    which the polygons are given. *)
Theorem assign_ward_to_points_order_independent
        (polygon : Type) (covers : polygon -> point -> bool)
        (listings_df : list listing)
        (wps wps' : list (ward_polygon polygon)) :
  Permutation wps wps' ->
  unambiguous covers wps listings_df ->
  assign_ward_to_points polygon covers listings_df wps' =
  assign_ward_to_points polygon covers listings_df wps.
Proof.
  intros Hperm Hun. unfold assign_ward_to_points. rewrite !assign_loop.
  f_equal. apply map_ext. intros [r c]. cbn [fst snd]. f_equal.
  apply cell_after_ext. intros row Hrow Hbad.
  pose proof (ward_cell_permutation polygon covers wps wps' row Hperm) as Hcell.
  unfold ward_cell in Hcell. rewrite Hbad in Hcell. apply Hcell.
  intros wp1 wp2 H1 H2. now apply (Hun row).
Qed.

Lemma assign_ward_to_points_order_independent_witness :
  assign_ward_to_points box box_covers inner_listings (rev two_wards) =
  assign_ward_to_points box box_covers inner_listings two_wards.
Proof.
  apply (assign_ward_to_points_order_independent box box_covers inner_listings
           two_wards (rev two_wards)).
  - apply Permutation_rev.
  - intros row wp1 wp2 Hrow H1 H2.
    cbn in Hrow, H1, H2.
    destruct Hrow as [<- | [<- | [<- | []]]];
      destruct H1 as [<- | [<- | []]]; destruct H2 as [<- | [<- | []]];
      vm_compute; intros; congruence.
Defined.

(** ** The shape of the ward table *)

Lemma ward_keys_sorted (ws : list Z) : Sorted Z.lt (ward_keys ws).
Proof.
  assert (Hle : Sorted (le_prop Z.leb) (ward_keys ws)).
  { unfold ward_keys. apply (sort_by_sorted Z.leb (fun _ => True)).
    - intros x y _ _ H. apply Z.leb_gt in H. apply Z.leb_le. lia.
    - apply Forall_forall. intros; exact I. }
  pose proof (ward_keys_NoDup ws) as Hnd.
  induction Hle as [|x l Hs IH Hhd]; [constructor|].
  inversion Hnd as [|? ? Hnotin Hrest]; subst.
  constructor; [now apply IH|].
  destruct Hhd as [|y l Hxy]; constructor.
  unfold le_prop in Hxy. apply Z.leb_le in Hxy.
  assert (x <> y) by (intros ->; apply Hnotin; now left). lia.
Qed.

(** The style merge changes no column of the ward table but the style
    cells. *)
Lemma merge_style_pivot_map {B : Type} (f : ward_agg_row -> B)
      (ward_agg : list ward_agg_row) (pv : pivot) :
  (forall a cells, f (set_StyleShare a cells) = f a) ->
  NoDup (map fst (pv_rows pv)) ->
  map f (merge_style_pivot ward_agg pv) = map f ward_agg.
Proof.
  intros Hf Hnd. unfold merge_style_pivot.
  set (names := map style_column_name (pv_columns pv)).
  induction ward_agg as [|a rest IH]; [reflexivity|].
  cbn [flat_map]. rewrite map_app, IH. cbn [map].
  change (f a :: map f rest) with ([f a] ++ map f rest).
  f_equal.
  destruct (filter_key_cases fst (fun r => fst r =? agg_Ward a) (agg_Ward a)
                             (pv_rows pv)) as [He | [r He]].
  - intros r Hr. now apply Z.eqb_eq in Hr.
  - assumption.
  - rewrite He. cbn [map]. now rewrite Hf.
  - rewrite He. cbn [map]. now rewrite Hf.
Qed.

Lemma ward_aggregate_map {B : Type} (f : ward_agg_row -> B)
      (has_style_column : bool) (df : list assigned_listing) :
  (forall a cells, f (set_StyleShare a cells) = f a) ->
  map f (ward_aggregate has_style_column df) =
  map (fun w => f (ward_metrics_row df w)) (ward_keys (map Ward df)).
Proof.
  intros Hf.
  assert (Hm : map f (ward_metrics df) =
               map (fun w => f (ward_metrics_row df w)) (ward_keys (map Ward df))).
  { unfold ward_metrics. now rewrite map_map. }
  unfold ward_aggregate. destruct has_style_column; [|exact Hm].
  rewrite merge_style_pivot_map; [exact Hm | exact Hf | apply pivot_rows_NoDup].
Qed.

(** X3: the ward table has one row for each ward that has an assigned
    listing and no other row, in strictly ascending order of the ward
    identifier, whether or not the style columns are merged in. *)
Theorem ward_table_keys (has_style_column : bool) (df : list assigned_listing) :
  Sorted Z.lt (map agg_Ward (ward_aggregate has_style_column df)) /\
  NoDup (map agg_Ward (ward_aggregate has_style_column df)) /\
  (forall w, In w (map agg_Ward (ward_aggregate has_style_column df)) <->
             exists r, In r df /\ Ward r = w).
Proof.
  rewrite ward_aggregate_wards.
  split; [apply ward_keys_sorted|]. split; [apply ward_keys_NoDup|].
  intros w. rewrite ward_keys_In, in_map_iff.
  split; intros (r & H1 & H2); exists r; auto.
Qed.

(** *** Group sizes add up *)

Lemma Z_sum_indicator_Z (w0 : Z) (keys : list Z) :
  NoDup keys -> In w0 keys ->
  Z_sum (map (fun w => if w0 =? w then 1 else 0) keys) = 1.
Proof.
  induction keys as [|k rest IH]; intros Hnd Hin; [contradiction|].
  inversion Hnd as [|? ? Hnotin Hrest]; subst.
  cbn [map Z_sum fold_right].
  fold (Z_sum (map (fun w => if w0 =? w then 1 else 0) rest)).
  destruct (Z.eqb_spec w0 k) as [-> | Hne].
  - rewrite (Z_sum_map_ext _ (fun _ => 0)), Z_sum_zero; [reflexivity|].
    intros a Ha. destruct (Z.eqb_spec k a) as [-> | _]; [contradiction | reflexivity].
  - destruct Hin as [-> | Hin]; [contradiction|]. rewrite (IH Hrest Hin). reflexivity.
Qed.

Lemma group_sizes_sum (df : list assigned_listing) (keys : list Z) :
  NoDup keys ->
  (forall r, In r df -> In (Ward r) keys) ->
  Z_sum (map (fun w => Z.of_nat (List.length (ward_group df w))) keys) =
  Z.of_nat (List.length df).
Proof.
  intros Hnd. induction df as [|r rest IH]; intros Hall.
  - cbn [ward_group filter List.length]. apply Z_sum_zero.
  - rewrite (Z_sum_map_ext _
               (fun w => (if Ward r =? w then 1 else 0) +
                         Z.of_nat (List.length (ward_group rest w)))).
    + rewrite Z_sum_map_add, IH by (intros r' Hr'; apply Hall; now right).
      rewrite Z_sum_indicator_Z; [|assumption | apply Hall; now left].
      cbn [List.length]. lia.
    + intros w _. unfold ward_group. cbn [filter].
      destruct (Ward r =? w); cbn [List.length]; lia.
Qed.

(** X4: the listing counts of the ward table add up to the number of
    input listings that have both coordinates and a price and whose point
    some polygon covers: every such listing is counted in exactly one
    ward, and no other listing is counted. *)
Theorem listing_counts_add_up
        (polygon : Type) (covers : polygon -> point -> bool)
        (income_csv : list income_row) (re_csv : list listing)
        (has_style_column : bool)
        (ward_polygons : list (ward_polygon polygon)) :
  Z_sum (map Listings
             (fst (main polygon covers income_csv re_csv has_style_column
                        ward_polygons))) =
  Z.of_nat (List.length
              (filter (fun r => has_key_fields r && assignable covers ward_polygons r)
                      re_csv)).
Proof.
  rewrite main_tables. cbn [fst].
  set (df := rows_with_ward polygon covers re_csv ward_polygons).
  rewrite (ward_aggregate_map Listings) by reflexivity.
  cbn [ward_metrics_row Listings].
  rewrite (Z_sum_map_ext _ (fun w => Z.of_nat (List.length (ward_group df w)))).
  - rewrite group_sizes_sum.
    + f_equal. unfold df.
      rewrite <- (length_map base), rows_with_ward_bases.
      unfold drop_missing_key_fields. rewrite filter_andb. reflexivity.
    + apply ward_keys_NoDup.
    + intros r Hr. apply ward_keys_In. now apply in_map.
  - intros w _. unfold pd_count.
    rewrite dropna_floats_id by apply rows_group_prices_not_nan.
    unfold group_prices. now rewrite length_map.
Qed.

(** ** When a division is NaN *)

Lemma shr_1_nonneg (mrs : shr_record) : 0 <= shr_m mrs -> 0 <= shr_m (shr_1 mrs).
Proof.
  destruct mrs as [m r s]. cbn [shr_m shr_1].
  destruct m as [|p|p]; [| |lia]; intros _.
  - cbn. lia.
  - destruct p; cbn; lia.
Qed.

Lemma iter_pos_invariant {A : Type} (P : A -> Prop) (f : A -> A) :
  (forall x, P x -> P (f x)) ->
  forall n x, P x -> P (iter_pos f n x).
Proof.
  intros Hf. induction n as [n IH | n IH |]; intros x Hx; cbn [iter_pos]; auto.
Qed.

Lemma shr_fexp_nonneg (m e : Z) (l : location) :
  0 <= m -> 0 <= shr_m (fst (shr_fexp B64.prec B64.emax m e l)).
Proof.
  intros Hm. unfold shr_fexp, shr.
  assert (H0 : 0 <= shr_m (shr_record_of_loc m l)).
  { destruct l as [|[ | | ]]; exact Hm. }
  destruct (fexp B64.prec B64.emax (Zdigits2 m + e) - e) as [|p|p];
    cbn [fst]; try exact H0.
  apply (iter_pos_invariant (fun mrs => 0 <= shr_m mrs)); [|exact H0].
  apply shr_1_nonneg.
Qed.

Lemma round_nearest_even_nonneg (m : Z) (l : location) :
  0 <= m -> 0 <= round_nearest_even m l.
Proof.
  intros Hm. unfold round_nearest_even.
  destruct l as [|[ | | ]]; try destruct (Z.even m); lia.
Qed.

(** Rounding a mantissa that is not negative never gives NaN. *)
Lemma binary_round_aux_not_nan (s : bool) (m e : Z) (l : location) :
  0 <= m -> B64.isna (binary_round_aux B64.prec B64.emax s m e l) = false.
Proof.
  intros Hm. unfold binary_round_aux.
  pose proof (shr_fexp_nonneg m e l Hm) as H1.
  destruct (shr_fexp B64.prec B64.emax m e l) as [mrs' e']. cbn [fst] in H1.
  pose proof (shr_fexp_nonneg _ e' loc_Exact
                (round_nearest_even_nonneg (shr_m mrs') (loc_of_shr_record mrs') H1))
    as H2.
  destruct (shr_fexp B64.prec B64.emax _ e' loc_Exact) as [mrs'' e''].
  cbn [fst] in H2.
  destruct (shr_m mrs'') as [|p|p]; [reflexivity| |lia].
  destruct (e'' <=? B64.emax - B64.prec); reflexivity.
Qed.

Lemma SFdiv_core_binary_nonneg (m1 m2 : positive) (e1 e2 : Z) :
  0 <= fst (fst (SFdiv_core_binary B64.prec B64.emax (Zpos m1) e1 (Zpos m2) e2)).
Proof.
  unfold SFdiv_core_binary.
  set (s := e1 - e2 - _).
  set (m' := match s with Zpos _ => Z.shiftl (Zpos m1) s | 0 => Zpos m1 | Zneg _ => 0 end).
  assert (Hm' : 0 <= m').
  { unfold m'. destruct s; [lia| |lia]. apply Z.shiftl_nonneg. lia. }
  pose proof (Z.div_pos m' (Zpos m2) Hm' ltac:(lia)) as Hq.
  unfold Z.div in Hq. destruct (Z.div_eucl m' (Zpos m2)) as [q r].
  exact Hq.
Qed.

Lemma div_finite_not_nan (sx sy : bool) (mx my : positive) (ex ey : Z) :
  B64.isna (B64.div (S754_finite sx mx ex) (S754_finite sy my ey)) = false.
Proof.
  unfold B64.div. cbn [SFdiv].
  pose proof (SFdiv_core_binary_nonneg mx my ex ey) as Hq.
  destruct (SFdiv_core_binary B64.prec B64.emax (Zpos mx) ex (Zpos my) ey)
    as [[mz ez] lz].
  cbn [fst] in Hq. now apply binary_round_aux_not_nan.
Qed.

(** A quotient is NaN exactly for a NaN operand, zero over zero and
    infinity over infinity. *)
Lemma div_isna (x y : float) :
  B64.isna (B64.div x y) = true <->
  B64.isna x = true \/ B64.isna y = true \/
  (B64.is_zero x = true /\ B64.is_zero y = true) \/
  (is_inf x = true /\ is_inf y = true).
Proof.
  destruct x as [sx | sx | | sx mx ex]; destruct y as [sy | sy | | sy my ey];
    try rewrite div_finite_not_nan;
    cbn [B64.div SFdiv B64.isna B64.is_zero is_inf];
    split; intros H; try discriminate; try tauto;
      try (destruct H as [H | [H | [[H1 H2] | [H1 H2]]]]; discriminate).
Qed.

Lemma band_unknown_iff (r : float) :
  affordability_band r = band_unknown <-> B64.isna r = true.
Proof.
  unfold affordability_band. destruct (B64.isna r); [tauto|].
  destruct (B64.ltb r (B64.of_Z 4)); [split; discriminate|].
  destruct (B64.ltb r (B64.of_Z 6)); [split; discriminate|].
  destruct (B64.ltb r (B64.of_Z 8)); split; discriminate.
Qed.

(** X5: a dashboard row is banded "Unknown" exactly when its median price
    or its income is missing, when both are zero, or when both are
    infinite; every other pair of values reaches a threshold band. *)
Theorem unknown_band_iff (i : income_row) (a : ward_agg_row) :
  Affordability_Band (dashboard_row_of (i, a)) = band_unknown <->
  B64.isna (Median_List_Price a) = true \/
  B64.isna (Average_Household_Income i) = true \/
  (B64.is_zero (Median_List_Price a) = true /\
   B64.is_zero (Average_Household_Income i) = true) \/
  (is_inf (Median_List_Price a) = true /\
   is_inf (Average_Household_Income i) = true).
Proof.
  cbn [dashboard_row_of Affordability_Band].
  rewrite band_unknown_iff. apply div_isna.
Qed.

(** ** The bands grow with the ratio *)

Lemma leb_to_Q (x y : float) :
  B64.valid x = true -> B64.valid y = true ->
  B64.is_finite x = true -> B64.is_finite y = true ->
  B64.leb x y = true <-> (B64.to_Q x <= B64.to_Q y)%Q.
Proof.
  intros Hx Hy Fx Fy. unfold B64.leb, SFleb.
  rewrite (B64Facts.SFcompare_to_Q x y Hx Hy Fx Fy), Qle_alt.
  destruct (B64.to_Q x ?= B64.to_Q y)%Q; split; congruence.
Qed.

Lemma risk_level_of_finite (r : float) :
  B64.valid r = true -> B64.is_finite r = true ->
  risk_level (affordability_band r) =
    if Qlt_le_dec (B64.to_Q r) 4 then 0
    else if Qlt_le_dec (B64.to_Q r) 6 then 1
    else if Qlt_le_dec (B64.to_Q r) 8 then 2
    else 3.
Proof.
  intros Hr Fr. rewrite (band_of_finite r Hr Fr).
  destruct (Qlt_le_dec (B64.to_Q r) 4); [reflexivity|].
  destruct (Qlt_le_dec (B64.to_Q r) 6); [reflexivity|].
  destruct (Qlt_le_dec (B64.to_Q r) 8); reflexivity.
Qed.

Lemma risk_level_bounds (r : float) :
  B64.isna r = false -> 0 <= risk_level (affordability_band r) <= 3.
Proof.
  intros Hn. unfold affordability_band. rewrite Hn.
  destruct (B64.ltb r (B64.of_Z 4)); [cbn; lia|].
  destruct (B64.ltb r (B64.of_Z 6)); [cbn; lia|].
  destruct (B64.ltb r (B64.of_Z 8)); cbn; lia.
Qed.

(** X6: the classifier is monotone: of two ratios that are not NaN, the
    larger one never gets a band of lower risk. *)
Theorem affordability_band_monotone (r1 r2 : float) :
  B64.valid r1 = true -> B64.valid r2 = true ->
  B64.isna r1 = false -> B64.isna r2 = false ->
  B64.leb r1 r2 = true ->
  risk_level (affordability_band r1) <= risk_level (affordability_band r2).
Proof.
  intros V1 V2 N1 N2 Hle.
  pose proof (risk_level_bounds r1 N1) as B1.
  pose proof (risk_level_bounds r2 N2) as B2.
  destruct (B64.is_finite r1) eqn:F1; destruct (B64.is_finite r2) eqn:F2.
  - apply (leb_to_Q r1 r2 V1 V2 F1 F2) in Hle.
    rewrite (risk_level_of_finite r1 V1 F1), (risk_level_of_finite r2 V2 F2).
    destruct (Qlt_le_dec (B64.to_Q r1) 4); destruct (Qlt_le_dec (B64.to_Q r2) 4);
      destruct (Qlt_le_dec (B64.to_Q r1) 6); destruct (Qlt_le_dec (B64.to_Q r2) 6);
      destruct (Qlt_le_dec (B64.to_Q r1) 8); destruct (Qlt_le_dec (B64.to_Q r2) 8);
      try lia; exfalso; lra.
  - destruct r2 as [s | [|] | | s m e]; try discriminate.
    + destruct r1 as [s1 | s1 | | [|] m1 e1]; discriminate.
    + change (affordability_band (S754_infinity false)) with band_severe_risk.
      change (risk_level band_severe_risk) with 3. lia.
  - destruct r1 as [s | [|] | | s m e]; try discriminate.
    + change (affordability_band (S754_infinity true)) with band_more_affordable.
      change (risk_level band_more_affordable) with 0. lia.
    + destruct r2 as [s2 | s2 | | [|] m2 e2]; discriminate.
  - destruct r1 as [s | [|] | | s m e]; try discriminate;
      destruct r2 as [s2 | [|] | | s2 m2 e2]; try discriminate;
      cbn; lia.
Qed.

Lemma affordability_band_monotone_witness :
  risk_level (affordability_band (B64.of_Z 5)) <=
  risk_level (affordability_band (B64.of_Z 7)).
Proof.
  apply (affordability_band_monotone (B64.of_Z 5) (B64.of_Z 7)); reflexivity.
Defined.

(** ** Integers survive [str] and [int] *)

Lemma uint_value_pos (d : Decimal.uint) (acc : positive) :
  uint_value (Zpos acc) d = Zpos (Pos.of_uint_acc d acc).
Proof.
  revert acc. induction d as [|d IH|d IH|d IH|d IH|d IH|d IH|d IH|d IH|d IH|d IH];
    intros acc; cbn [uint_value Pos.of_uint_acc]; [reflexivity|..];
    rewrite <- IH; f_equal; lia.
Qed.

Lemma uint_value_of_uint (d : Decimal.uint) :
  uint_value 0 d = Z.of_N (Pos.of_uint d).
Proof.
  induction d as [|d IH|d IH|d IH|d IH|d IH|d IH|d IH|d IH|d IH|d IH];
    cbn [uint_value Pos.of_uint]; [reflexivity | exact IH |..];
    cbn [Z.mul Z.add Z.of_N]; apply uint_value_pos.
Qed.

Lemma uint_value_to_uint (p : positive) : uint_value 0 (Pos.to_uint p) = Zpos p.
Proof. now rewrite uint_value_of_uint, DecimalPos.Unsigned.of_to. Qed.

(** Scanning the digits of a numeral. *)
Lemma scan_digits_numeral (d : Decimal.uint) (st : scan_state) (acc : Z) :
  d <> Decimal.Nil \/ st = AfterDigit ->
  scan_digits st acc (NilEmpty.string_of_uint d) = Some (uint_value acc d).
Proof.
  revert st acc.
  induction d as [|d IH|d IH|d IH|d IH|d IH|d IH|d IH|d IH|d IH|d IH];
    intros st acc H;
    [destruct H as [H | ->]; [contradiction | reflexivity] |..];
    cbn [NilEmpty.string_of_uint scan_digits uint_value];
    (apply IH; now right).
Qed.

Lemma numeral_no_space (d : Decimal.uint) :
  string_forallb (fun c => negb (is_space c)) (NilEmpty.string_of_uint d) = true.
Proof.
  induction d as [|d IH|d IH|d IH|d IH|d IH|d IH|d IH|d IH|d IH|d IH];
    cbn [NilEmpty.string_of_uint string_forallb]; [reflexivity|..]; exact IH.
Qed.

(** *** [strip] on a text without blanks *)

Lemma append_empty_r (s : string) : (s ++ EmptyString)%string = s.
Proof. induction s as [|c s IH]; cbn; [reflexivity | now rewrite IH]. Qed.

Lemma string_rev_append_twice (s a b : string) :
  string_rev_append (string_rev_append s a) b = string_rev_append a (s ++ b)%string.
Proof.
  revert a. induction s as [|c s IH]; intros a; cbn [string_rev_append append].
  - reflexivity.
  - rewrite IH. reflexivity.
Qed.

Lemma string_rev_involutive (s : string) : string_rev (string_rev s) = s.
Proof.
  unfold string_rev. rewrite string_rev_append_twice. cbn. apply append_empty_r.
Qed.

Lemma string_forallb_rev_append (p : ascii -> bool) (s a : string) :
  string_forallb p (string_rev_append s a) =
  string_forallb p s && string_forallb p a.
Proof.
  revert a. induction s as [|c s IH]; intros a; cbn [string_rev_append string_forallb].
  - reflexivity.
  - rewrite IH. cbn [string_forallb].
    destruct (p c), (string_forallb p s), (string_forallb p a); reflexivity.
Qed.

Lemma lstrip_no_space (s : string) :
  string_forallb (fun c => negb (is_space c)) s = true -> lstrip s = s.
Proof.
  destruct s as [|c s]; [reflexivity|]. cbn [string_forallb lstrip].
  intros H. apply andb_true_iff in H as [Hc _].
  apply negb_true_iff in Hc. now rewrite Hc.
Qed.

Lemma strip_no_space (s : string) :
  string_forallb (fun c => negb (is_space c)) s = true -> strip s = s.
Proof.
  intros H. unfold strip, rstrip. rewrite (lstrip_no_space s H).
  rewrite lstrip_no_space.
  - apply string_rev_involutive.
  - unfold string_rev. rewrite string_forallb_rev_append, H. reflexivity.
Qed.

Lemma py_str_int_no_space (z : Z) :
  string_forallb (fun c => negb (is_space c)) (py_str (PInt z)) = true.
Proof.
  cbn [py_str]. destruct z as [|p|p]; cbn [Z.to_int NilZero.string_of_int].
  - reflexivity.
  - unfold NilZero.string_of_uint.
    pose proof (numeral_no_space (Pos.to_uint p)) as H.
    destruct (Pos.to_uint p); exact H || reflexivity.
  - cbn [string_forallb]. unfold NilZero.string_of_uint.
    pose proof (numeral_no_space (Pos.to_uint p)) as H.
    destruct (Pos.to_uint p); exact H || reflexivity.
Qed.

Lemma py_int_numeral (p : positive) :
  py_int (NilEmpty.string_of_uint (Pos.to_uint p)) = Some (Zpos p) /\
  py_int (String "-" (NilEmpty.string_of_uint (Pos.to_uint p))) = Some (Zneg p).
Proof.
  pose proof (DecimalPos.Unsigned.to_uint_nonnil p) as Hnn.
  pose proof (numeral_no_space (Pos.to_uint p)) as Hns.
  pose proof (uint_value_to_uint p) as Hv.
  pose proof (scan_digits_numeral (Pos.to_uint p) AtStart 0 (or_introl Hnn)) as Hscan.
  rewrite Hv in Hscan. split.
  - unfold py_int. rewrite (strip_no_space _ Hns).
    destruct (Pos.to_uint p) as [|d|d|d|d|d|d|d|d|d|d]; [contradiction|..];
      exact Hscan.
  - unfold py_int. rewrite strip_no_space by (cbn [string_forallb]; exact Hns).
    rewrite Hscan. reflexivity.
Qed.

Lemma try_int_PInt (z : Z) : try_int (PInt z) = Some z.
Proof.
  unfold try_int. rewrite (strip_no_space _ (py_str_int_no_space z)).
  cbn [py_str]. destruct z as [|p|p]; cbn [Z.to_int NilZero.string_of_int].
  - reflexivity.
  - unfold NilZero.string_of_uint.
    pose proof (DecimalPos.Unsigned.to_uint_nonnil p) as Hnn.
    pose proof (proj1 (py_int_numeral p)) as H.
    destruct (Pos.to_uint p); [contradiction|..]; exact H.
  - unfold NilZero.string_of_uint.
    pose proof (DecimalPos.Unsigned.to_uint_nonnil p) as Hnn.
    pose proof (proj2 (py_int_numeral p)) as H.
    destruct (Pos.to_uint p); [contradiction|..]; exact H.
Qed.

(** X7: the conversion [int(str(v).strip())] that field inference and the
    polygon loop apply to a property value gives back every integer value
    unchanged: an integer property always counts as a parse, with its own
    value. *)
Theorem int_of_str_round_trip (z : Z) :
  py_int (strip (py_str (PInt z))) = Some z.
Proof. exact (try_int_PInt z). Qed.

(** ** Scores and the field that is picked *)

Lemma count_if_le {A : Type} (p : A -> bool) (l : list A) :
  0 <= count_if p l <= Z.of_nat (List.length l).
Proof.
  unfold count_if. split; [lia|]. apply inj_le, filter_length_le.
Qed.

Lemma count_if_full {A : Type} (p : A -> bool) (l : list A) :
  count_if p l = Z.of_nat (List.length l) <-> forall x, In x l -> p x = true.
Proof.
  unfold count_if. induction l as [|a l IH]; cbn [filter List.length].
  - split; [intros _ ? [] | reflexivity].
  - pose proof (filter_length_le p l) as Hle. destruct (p a) eqn:Ha.
    + cbn [List.length]. split.
      * intros H x [<- | Hin]; [assumption|]. apply IH; [lia | assumption].
      * intros H. rewrite !Nat2Z.inj_succ. f_equal. apply IH.
        intros x Hx. apply H. now right.
    + split; [lia|]. intros H. specialize (H a (or_introl eq_refl)). congruence.
Qed.

Lemma field_score_le (features : list properties) (k : string) :
  field_score features k <= 2 * Z.of_nat (List.length features).
Proof.
  unfold field_score, parse_successes, plausible_successes.
  pose proof (count_if_le (fun f => match try_int (dict_get f k) with
                                    | Some _ => true | None => false end) features).
  pose proof (count_if_le (fun f => match try_int (dict_get f k) with
                                    | Some iv => (1 <=? iv) && (iv <=? 30)
                                    | None => false end) features).
  lia.
Qed.

Lemma field_score_full (features : list properties) (k : string) :
  field_score features k = 2 * Z.of_nat (List.length features) <->
  all_plausible features k.
Proof.
  unfold field_score, parse_successes, plausible_successes, all_plausible.
  set (p1 := fun f => match try_int (dict_get f k) with
                      | Some _ => true | None => false end).
  set (p2 := fun f => match try_int (dict_get f k) with
                      | Some iv => (1 <=? iv) && (iv <=? 30)
                      | None => false end).
  pose proof (count_if_le p1 features) as H1.
  pose proof (count_if_le p2 features) as H2.
  split.
  - intros H f Hf.
    assert (Hfull : count_if p2 features = Z.of_nat (List.length features)) by lia.
    pose proof (proj1 (count_if_full p2 features) Hfull f Hf) as Hp.
    unfold p2 in Hp. destruct (try_int (dict_get f k)) as [iv|]; [|discriminate].
    exists iv. split; [reflexivity|]. lia.
  - intros H.
    assert (F1 : count_if p1 features = Z.of_nat (List.length features)).
    { apply count_if_full. intros f Hf. destruct (H f Hf) as (iv & Hiv & _).
      unfold p1. now rewrite Hiv. }
    assert (F2 : count_if p2 features = Z.of_nat (List.length features)).
    { apply count_if_full. intros f Hf. destruct (H f Hf) as (iv & Hiv & Hr).
      unfold p2. rewrite Hiv. lia. }
    lia.
Qed.

Lemma detect_plausible_field (features : list properties) (k : string) :
  features <> [] ->
  In k (schema_fields features) ->
  all_plausible features k ->
  (forall k', In k' (schema_fields features) -> all_plausible features k' -> k' = k) ->
  detect_ward_id_field features = Ok k.
Proof.
  intros Hne Hin Hall Huniq.
  assert (Hk : field_score features k = 2 * Z.of_nat (List.length features))
    by now apply field_score_full.
  assert (Hpos : 0 < parse_successes features k).
  { pose proof (field_score_le features k).
    unfold field_score, plausible_successes in Hk.
    pose proof (count_if_le (fun f => match try_int (dict_get f k) with
                                      | Some iv => (1 <=? iv) && (iv <=? 30)
                                      | None => false end) features).
    destruct features; [contradiction|]. cbn [List.length] in *. lia. }
  destruct (detect_ward_id_field_cases features)
    as [[He _] | [(_ & Hnone & _) | (best & _ & Hok & _ & Hfirst)]].
  - contradiction.
  - specialize (Hnone k Hin). lia.
  - rewrite Hok. f_equal.
    destruct Hfirst as (before & after & Hsplit & Hlt & Hle).
    assert (Hbest_in : In best (schema_fields features)).
    { rewrite Hsplit. apply in_elt. }
    apply Huniq; [assumption|]. apply field_score_full.
    pose proof (field_score_le features best) as Hub.
    rewrite Hsplit in Hin. apply in_app_or in Hin as [Hb | [<- | Ha]].
    + specialize (Hlt k Hb). lia.
    + assumption.
    + specialize (Hle k Ha). lia.
Qed.

(** X8: when one field of the schema, and only one, has in every record a
    value that parses to an integer from 1 to 30, field inference returns
    that field, wherever it stands in the schema and whatever the other
    fields hold. *)
Theorem detect_ward_id_field_finds_the_ward_numbers
        (features : list properties) (k : string) :
  features <> [] ->
  In k (schema_fields features) ->
  all_plausible features k ->
  (forall k', In k' (schema_fields features) -> all_plausible features k' -> k' = k) ->
  detect_ward_id_field features = Ok k.
Proof. apply detect_plausible_field. Qed.

Lemma detect_ward_id_field_finds_the_ward_numbers_witness :
  detect_ward_id_field spec_example_features = Ok "WARD_NUM"%string.
Proof.
  apply (detect_ward_id_field_finds_the_ward_numbers spec_example_features).
  - discriminate.
  - right. left. reflexivity.
  - intros f Hf. cbn in Hf.
    destruct Hf as [<- | [<- | [<- | []]]];
      [exists 1 | exists 2 | exists 3]; (split; [reflexivity | lia]).
  - intros k' Hk' Hall. cbn in Hk'.
    destruct Hk' as [<- | [<- | []]]; [|reflexivity].
    exfalso. destruct (Hall _ (or_introl eq_refl)) as (iv & Hiv & Hr).
    vm_compute in Hiv. injection Hiv as <-. lia.
Defined.

(** ** The ward polygons built from the features *)

Section GeoJSONFacts.
Variable geometry_json : Type.
Variable polygon : Type.
Variable shape : geometry_json -> polygon.

Lemma build_ward_polygons_ok (features : list (feature geometry_json))
      (field : string) (wps : list (ward_polygon polygon)) :
  build_ward_polygons geometry_json polygon shape features field = Ok wps ->
  map (fun wp => Some (ward_id wp)) wps =
    map (fun f => try_int (dict_get (feature_properties f) field)) features /\
  map geometry wps = map (fun f => shape (feature_geometry f)) features.
Proof.
  revert wps. induction features as [|f rest IH]; intros wps; cbn [build_ward_polygons].
  - intros [= <-]. split; reflexivity.
  - fold (try_int (dict_get (feature_properties f) field)).
    destruct (try_int (dict_get (feature_properties f) field)) as [iv|] eqn:Hiv;
      [|discriminate].
    destruct (build_ward_polygons geometry_json polygon shape rest field)
      as [wps0|e]; [|discriminate].
    intros [= <-]. destruct (IH wps0 eq_refl) as [H1 H2].
    cbn [map ward_id geometry]. rewrite H1, H2, Hiv. split; reflexivity.
Qed.

Lemma build_ward_polygons_succeeds (features : list (feature geometry_json))
      (field : string) :
  (exists wps, build_ward_polygons geometry_json polygon shape features field = Ok wps) <->
  (forall f, In f features ->
     exists iv, try_int (dict_get (feature_properties f) field) = Some iv).
Proof.
  induction features as [|f rest IH]; cbn [build_ward_polygons].
  - split; [intros _ ? [] | intros _; now eexists].
  - fold (try_int (dict_get (feature_properties f) field)).
    destruct (try_int (dict_get (feature_properties f) field)) as [iv|] eqn:Hiv.
    + destruct (build_ward_polygons geometry_json polygon shape rest field)
        as [wps0|e].
      * split; [|intros _; now eexists].
        intros _ f' [<- | Hin]; [now exists iv|].
        apply (proj1 IH); [now eexists | assumption].
      * split; [intros [wps H]; discriminate|].
        intros H. exfalso.
        destruct (proj2 IH (fun f' Hf' => H f' (or_intror Hf'))) as [wps Hw].
        discriminate.
    + split; [intros [wps H]; discriminate|].
      intros H. destruct (H f (or_introl eq_refl)) as [iv Hiv']. congruence.
Qed.
End GeoJSONFacts.

(** X9: the loop that builds the ward polygons succeeds exactly when the
    detected field parses as an integer in every feature; it then gives
    one polygon per feature, in order, with the parsed value as its ward
    and the shape of the feature's geometry.  Field inference asks for one
    parsing value only, so a feature without one makes the loop raise. *)
Theorem build_ward_polygons_spec
        (geometry_json polygon : Type) (shape : geometry_json -> polygon)
        (features : list (feature geometry_json)) (field : string) :
  ((exists wps, build_ward_polygons geometry_json polygon shape features field = Ok wps) <->
   (forall f, In f features ->
      exists iv, try_int (dict_get (feature_properties f) field) = Some iv)) /\
  (forall wps,
      build_ward_polygons geometry_json polygon shape features field = Ok wps ->
      map (fun wp => Some (ward_id wp)) wps =
        map (fun f => try_int (dict_get (feature_properties f) field)) features /\
      map geometry wps = map (fun f => shape (feature_geometry f)) features).
Proof.
  split.
  - apply build_ward_polygons_succeeds.
  - intros wps. apply build_ward_polygons_ok.
Qed.

Lemma build_ward_polygons_spec_witness :
  exists wps,
    build_ward_polygons box box (fun b => b) numbered_features "WARD" = Ok wps.
Proof.
  apply (proj1 (build_ward_polygons_spec box box (fun b => b) numbered_features "WARD")).
  intros f Hf. cbn in Hf.
  destruct Hf as [<- | [<- | []]]; eexists; reflexivity.
Defined.

(** X11: when one field, and only one, holds in every feature a value
    that parses to an integer from 1 to 30, field inference returns that
    field and the loop that builds the ward polygons does not raise on
    it: it gives one polygon per feature, in the order of the features,
    each with the parsed value of the field as its ward and the shape of
    the feature's geometry. *)
Theorem plausible_field_gives_ward_polygons
        (geometry_json polygon : Type) (shape : geometry_json -> polygon)
        (features : list (feature geometry_json)) (k : string) :
  features <> [] ->
  In k (schema_fields (map feature_properties features)) ->
  all_plausible (map feature_properties features) k ->
  (forall k', In k' (schema_fields (map feature_properties features)) ->
              all_plausible (map feature_properties features) k' -> k' = k) ->
  detect_ward_id_field (map feature_properties features) = Ok k /\
  exists wps,
    build_ward_polygons geometry_json polygon shape features k = Ok wps /\
    map (fun wp => Some (ward_id wp)) wps =
      map (fun f => try_int (dict_get (feature_properties f) k)) features /\
    Forall (fun wp => 1 <= ward_id wp <= 30) wps /\
    map geometry wps = map (fun f => shape (feature_geometry f)) features.
Proof.
  intros Hne Hin Hall Huniq.
  assert (Hd : detect_ward_id_field (map feature_properties features) = Ok k).
  { apply detect_plausible_field; try assumption.
    destruct features; [contradiction | discriminate]. }
  split; [exact Hd|].
  assert (Hparse : forall f, In f features ->
            exists iv, try_int (dict_get (feature_properties f) k) = Some iv).
  { intros f Hf. destruct (Hall (feature_properties f)) as (iv & Hiv & _).
    - now apply in_map.
    - now exists iv. }
  apply (build_ward_polygons_succeeds geometry_json polygon shape) in Hparse
    as [wps Hwps].
  exists wps. split; [exact Hwps|].
  destruct (build_ward_polygons_ok geometry_json polygon shape features k wps Hwps)
    as [Hids Hgeo].
  split; [exact Hids|]. split; [|exact Hgeo].
  apply Forall_forall. intros wp Hwp.
  apply (in_map (fun wp => Some (ward_id wp))) in Hwp. rewrite Hids in Hwp.
  apply in_map_iff in Hwp as (f & Hf & Hfin).
  destruct (Hall (feature_properties f)) as (iv & Hiv & Hrange);
    [now apply in_map|].
  rewrite Hiv in Hf. injection Hf as ->. exact Hrange.
Qed.

Lemma plausible_field_gives_ward_polygons_witness :
  detect_ward_id_field (map feature_properties numbered_features) = Ok "WARD"%string /\
  exists wps,
    build_ward_polygons box box (fun b => b) numbered_features "WARD" = Ok wps /\
    map (fun wp => Some (ward_id wp)) wps =
      map (fun f => try_int (dict_get (feature_properties f) "WARD"))
          numbered_features /\
    Forall (fun wp => 1 <= ward_id wp <= 30) wps /\
    map geometry wps = map (fun f => feature_geometry f) numbered_features.
Proof.
  apply (plausible_field_gives_ward_polygons box box (fun b => b)
           numbered_features "WARD").
  - discriminate.
  - right. left. reflexivity.
  - intros p Hp. cbn in Hp.
    destruct Hp as [<- | [<- | []]]; [exists 1 | exists 2];
      (split; [reflexivity | lia]).
  - intros k' Hk' Hall. cbn in Hk'. destruct Hk' as [<- | [<- | []]].
    + destruct (Hall [("NAME", PStr "Orleans"); ("WARD", PInt 1)]%string)
        as (iv & Hiv & _); [now left | discriminate Hiv].
    + reflexivity.
Defined.

(** ** Price texts *)

Lemma string_filter_ext (p q : ascii -> bool) (s : string) :
  (forall c, p c = q c) -> string_filter p s = string_filter q s.
Proof.
  intros H. induction s as [|c s IH]; cbn [string_filter]; [reflexivity|].
  now rewrite H, IH.
Qed.

Lemma string_filter_filter (p q : ascii -> bool) (s : string) :
  string_filter p (string_filter q s) = string_filter (fun c => q c && p c) s.
Proof.
  induction s as [|c s IH]; cbn [string_filter]; [reflexivity|].
  destruct (q c); cbn [andb string_filter]; [|exact IH].
  destruct (p c); now rewrite IH.
Qed.

Lemma string_filter_rev_append (p : ascii -> bool) (s a : string) :
  string_filter p (string_rev_append s a) =
  string_rev_append (string_filter p s) (string_filter p a).
Proof.
  revert a. induction s as [|c s IH]; intros a; cbn [string_rev_append string_filter].
  - reflexivity.
  - rewrite IH. cbn [string_filter]. destruct (p c); reflexivity.
Qed.

Section FilterStrip.
Variable p : ascii -> bool.
Hypothesis p_no_space : forall c, p c = true -> is_space c = false.

Lemma string_filter_lstrip (s : string) :
  string_filter p (lstrip s) = string_filter p s.
Proof.
  induction s as [|c s IH]; cbn [lstrip string_filter]; [reflexivity|].
  destruct (is_space c) eqn:Hs; [|reflexivity].
  destruct (p c) eqn:Hp; [|exact IH].
  rewrite (p_no_space c Hp) in Hs. discriminate.
Qed.

Lemma string_filter_rev (s : string) :
  string_filter p (string_rev s) = string_rev (string_filter p s).
Proof. unfold string_rev. now rewrite string_filter_rev_append. Qed.

Lemma string_filter_strip (s : string) :
  string_filter p (strip s) = string_filter p s.
Proof.
  unfold strip, rstrip.
  rewrite string_filter_rev, string_filter_lstrip, string_filter_rev.
  rewrite string_rev_involutive. apply string_filter_lstrip.
Qed.
End FilterStrip.

Lemma is_money_char_facts (c : ascii) :
  is_money_char c = true ->
  is_space c = false /\ Ascii.eqb c double_quote = false.
Proof.
  destruct c as [[|] [|] [|] [|] [|] [|] [|] [|]];
    intros H; try discriminate H; split; reflexivity.
Qed.

Lemma is_digit_money (c : ascii) : is_digit c = true -> is_money_char c = true.
Proof. unfold is_money_char. intros ->. reflexivity. Qed.

(** Only the kept characters of the text of a cell reach [float]. *)
Lemma money_text_filter (x : pyval) :
  money_text x = string_filter is_money_char (py_str x).
Proof.
  unfold money_text.
  rewrite string_filter_strip by (intros c Hc; now apply is_money_char_facts).
  rewrite string_filter_filter.
  rewrite (string_filter_ext _ is_money_char).
  - apply string_filter_strip. intros c Hc. now apply is_money_char_facts.
  - intros c. destruct (is_money_char c) eqn:Hc.
    + destruct (is_money_char_facts c Hc) as [_ ->]. reflexivity.
    + apply andb_false_r.
Qed.

Lemma string_filter_idem (p : ascii -> bool) (s : string) :
  string_filter p (string_filter p s) = string_filter p s.
Proof.
  rewrite string_filter_filter. apply string_filter_ext.
  intros c. now destruct (p c).
Qed.

(** X12: a price text is read through its digits, dots and minus signs
    only: two texts that agree on these characters, in order, give the
    same number, whatever currency signs, separators, quotes, letters or
    blanks stand between them. *)
Theorem parse_money_to_float_ignores_other_characters (s s' : string) :
  string_filter is_money_char s = string_filter is_money_char s' ->
  parse_money_to_float (PStr s) = parse_money_to_float (PStr s').
Proof.
  intros H. unfold parse_money_to_float.
  rewrite !money_text_filter. cbn [py_str]. now rewrite H.
Qed.

Lemma parse_money_to_float_ignores_other_characters_witness :
  parse_money_to_float (PStr "$1,200.50 CAD") = parse_money_to_float (PStr "1200.50").
Proof.
  apply parse_money_to_float_ignores_other_characters. reflexivity.
Defined.

(** *** When a price is missing *)

Lemma decimal_to_float_not_nan (neg : bool) (n k : Z) :
  B64.isna (decimal_to_float neg n k) = false.
Proof.
  unfold decimal_to_float. destruct n; try reflexivity.
  apply div_finite_not_nan.
Qed.


Lemma rejected_texts (s : string) :
  (String.eqb s EmptyString || String.eqb s "." || String.eqb s "-" || String.eqb s "-.")%string
  = true ->
  py_float_money s = None.
Proof.
  intros H. repeat (apply orb_true_iff in H as [H | H]);
    apply String.eqb_eq in H; subst s; reflexivity.
Qed.

Lemma parse_money_to_float_cases (x : pyval) :
  parse_money_to_float x =
  match x with
  | PNone => B64.nan
  | _ => match py_float_money (money_text x) with
         | Some f => f
         | None => B64.nan
         end
  end.
Proof.
  assert (H : forall s,
             (if (String.eqb s EmptyString || String.eqb s "." || String.eqb s "-" ||
                  String.eqb s "-.")%string
              then B64.nan
              else match py_float_money s with Some f => f | None => B64.nan end) =
             match py_float_money s with Some f => f | None => B64.nan end).
  { intros s. destruct (_ || _)%bool eqn:He; [|reflexivity].
    now rewrite (rejected_texts s He). }
  unfold parse_money_to_float. destruct x; try reflexivity; apply H.
Qed.

Lemma py_float_money_not_nan (s : string) (f : float) :
  py_float_money s = Some f -> B64.isna f = false.
Proof.
  unfold py_float_money.
  destruct (match s with
            | EmptyString => (false, s)
            | String c rest => if Ascii.eqb c minus then (true, rest) else (false, s)
            end) as [neg body].
  destruct (scan_decimal false false 0 0 body) as [[n k]|]; [|discriminate].
  intros [= <-]. apply decimal_to_float_not_nan.
Qed.

Lemma scan_decimal_no_digit (s : string) (seen_dot : bool) (n k : Z) :
  has_digit s = false -> scan_decimal seen_dot false n k s = None.
Proof.
  unfold has_digit. rewrite negb_false_iff.
  revert seen_dot. induction s as [|c s IH]; intros seen_dot; cbn [string_forallb scan_decimal].
  - reflexivity.
  - intros H. apply andb_true_iff in H as [Hc Hs].
    apply negb_true_iff in Hc. unfold is_digit in Hc.
    destruct (digit_of c); [discriminate|].
    destruct (Ascii.eqb c dot && negb seen_dot); [|reflexivity].
    now apply IH.
Qed.

Lemma has_digit_filter (p : ascii -> bool) (s : string) :
  (forall c, is_digit c = true -> p c = true) ->
  has_digit (string_filter p s) = has_digit s.
Proof.
  intros Hp. unfold has_digit. f_equal.
  induction s as [|c s IH]; cbn [string_filter string_forallb]; [reflexivity|].
  destruct (p c) eqn:Hc; cbn [string_forallb]; rewrite IH; [reflexivity|].
  destruct (is_digit c) eqn:Hd; [|reflexivity].
  rewrite (Hp c Hd) in Hc. discriminate.
Qed.

Lemma has_digit_tail (c : ascii) (s : string) :
  has_digit (String c s) = false -> has_digit s = false.
Proof.
  unfold has_digit. rewrite !negb_false_iff. cbn [string_forallb].
  intros H. now apply andb_true_iff in H as [_ H].
Qed.

Lemma py_float_money_no_digit (s : string) :
  has_digit s = false -> py_float_money s = None.
Proof.
  intros H. unfold py_float_money. destruct s as [|c s]; [reflexivity|].
  destruct (Ascii.eqb c minus).
  - rewrite scan_decimal_no_digit; [reflexivity | now apply has_digit_tail in H].
  - now rewrite scan_decimal_no_digit.
Qed.

(** X13: a price is NaN exactly when the cell is missing or [float]
    rejects what is left of its text, which is what the four texts the
    function tests for are cases of; in particular a text without any
    digit gives NaN, and the function raises nothing. *)
Theorem parse_money_to_float_nan_iff (x : pyval) :
  (B64.isna (parse_money_to_float x) = true <->
   x = PNone \/ py_float_money (money_text x) = None) /\
  (has_digit (py_str x) = false -> parse_money_to_float x = B64.nan).
Proof.
  assert (Hiff : B64.isna (parse_money_to_float x) = true <->
                 x = PNone \/ py_float_money (money_text x) = None).
  { rewrite parse_money_to_float_cases.
    destruct x; try (split; [now left | reflexivity]);
      (destruct (py_float_money (money_text _)) as [f|] eqn:Hf;
       [ rewrite (py_float_money_not_nan _ f Hf);
         split; [discriminate | intros [H | H]; discriminate]
       | split; [now right | reflexivity] ]). }
  split; [exact Hiff|].
  intros Hd. apply isna_nan. apply Hiff. right.
  apply py_float_money_no_digit. rewrite money_text_filter.
  rewrite has_digit_filter; [exact Hd | apply is_digit_money].
Qed.

Lemma parse_money_to_float_nan_iff_witness :
  parse_money_to_float (PStr "N/A") = B64.nan.
Proof.
  apply (parse_money_to_float_nan_iff (PStr "N/A")). reflexivity.
Defined.

(** *** Plain numbers *)







(** *** Listings without a price *)

Section RawFacts.
Variable polygon : Type.
Variable covers : polygon -> point -> bool.

Lemma rows_with_ward_skips (ward_polygons : list (ward_polygon polygon))
      (row : listing) (before after : list listing) :
  has_key_fields row = false ->
  rows_with_ward polygon covers (before ++ row :: after) ward_polygons =
  rows_with_ward polygon covers (before ++ after) ward_polygons.
Proof.
  intros Hk. unfold rows_with_ward, drop_missing_key_fields.
  rewrite !filter_app. cbn [filter]. now rewrite Hk.
Qed.
End RawFacts.

(** X15: a listing whose price cell is missing or does not parse is
    dropped before anything else is done with it: the two tables of
    [main] are those it produces without that row of the listings file. *)
Theorem unpriced_listing_is_dropped
        (polygon : Type) (covers : polygon -> point -> bool)
        (income_csv : list income_row) (before after : list raw_listing)
        (r : raw_listing) (has_style_column : bool)
        (ward_polygons : list (ward_polygon polygon)) :
  B64.isna (parse_money_to_float (raw_price r)) = true ->
  main_raw polygon covers income_csv (before ++ r :: after) has_style_column
           ward_polygons =
  main_raw polygon covers income_csv (before ++ after) has_style_column
           ward_polygons.
Proof.
  intros Hn. unfold main_raw. rewrite !main_tables, !map_app. cbn [map].
  rewrite (rows_with_ward_skips polygon covers ward_polygons (parse_price r));
    [reflexivity|].
  unfold has_key_fields. cbn [parse_price Price]. rewrite Hn.
  now rewrite andb_false_r.
Qed.

Lemma unpriced_listing_is_dropped_witness :
  main_raw box box_covers zero_income
           ([mk_raw 0 1 1 (PStr "500,000")] ++ mk_raw 1 2 2 (PStr "call us") :: [])
           false two_wards =
  main_raw box box_covers zero_income ([mk_raw 0 1 1 (PStr "500,000")] ++ [])
           false two_wards.
Proof.
  apply (unpriced_listing_is_dropped box box_covers). reflexivity.
Defined.

(** ** Labels *)

Lemma py_str_int_injective (z1 z2 : Z) :
  py_str (PInt z1) = py_str (PInt z2) -> z1 = z2.
Proof.
  intros H. pose proof (try_int_PInt z1) as H1. pose proof (try_int_PInt z2) as H2.
  unfold try_int in *. rewrite H in H1. congruence.
Qed.

(** X16: the ward label of a dashboard row, "Ward " followed by the ward
    number, names its ward: two rows with the same label are rows of the
    same ward. *)
Theorem ward_label_names_the_ward (d1 d2 : income_row * ward_agg_row) :
  Ward_Label (dashboard_row_of d1) = Ward_Label (dashboard_row_of d2) ->
  inc_Ward (fst d1) = inc_Ward (fst d2).
Proof.
  destruct d1 as [i1 a1], d2 as [i2 a2]. cbn [dashboard_row_of Ward_Label fst].
  intros H. apply py_str_int_injective.
  cbn [append] in H. now injection H.
Qed.

Lemma ward_label_names_the_ward_witness :
  inc_Ward (fst (hd ({| inc_Ward := 0; Average_Household_Income := B64.nan |},
                     empty_ward_row)
                    (merge_inner zero_income [scenario_ward_1]))) =
  inc_Ward (fst ({| inc_Ward := 1; Average_Household_Income := B64.of_Z 5 |},
                 empty_ward_row)).
Proof.
  apply ward_label_names_the_ward. reflexivity.
Defined.
(** ** The order of the listings file *)

Lemma filter_permutation {A : Type} (f : A -> bool) (l l' : list A) :
  Permutation l l' -> Permutation (filter f l) (filter f l').
Proof.
  induction 1 as [|x l l' _ IH|x y l|l l' l'' _ IH1 _ IH2]; cbn [filter].
  - constructor.
  - destruct (f x); [now constructor | assumption].
  - destruct (f x), (f y); try reflexivity. apply perm_swap.
  - now transitivity (filter f l').
Qed.

Section SortedUnique.
Context {A : Type}.
Variable le : A -> A -> bool.
Variable P : A -> Prop.
Hypothesis le_total : forall x y, P x -> P y -> le x y = false -> le y x = true.
Hypothesis le_trans :
  forall x y z, P x -> P y -> P z -> le x y = true -> le y z = true -> le x z = true.
Hypothesis le_antisym :
  forall x y, P x -> P y -> le x y = true -> le y x = true -> x = y.

Lemma sorted_head_least (x : A) (l : list A) :
  Forall P (x :: l) -> Sorted (le_prop le) (x :: l) ->
  forall y, In y l -> le x y = true.
Proof.
  revert x. induction l as [|z rest IH]; intros x HP Hs y Hin; [destruct Hin|].
  inversion HP as [|? ? Px HP']; subst. inversion HP' as [|? ? Pz HP'']; subst.
  inversion Hs as [|? ? Hs' Hhd]; subst. inversion Hhd as [|? ? Hxz]; subst.
  destruct Hin as [<- | Hin]; [exact Hxz|].
  apply (le_trans x z y); try assumption.
  - apply (proj1 (Forall_forall P rest) HP'' y Hin).
  - now apply IH.
Qed.

Lemma sorted_permutation_eq (l l' : list A) :
  Forall P l -> Sorted (le_prop le) l -> Sorted (le_prop le) l' ->
  Permutation l l' -> l = l'.
Proof.
  revert l'. induction l as [|x rest IH]; intros l' HP Hs Hs' Hperm.
  - now apply Permutation_nil in Hperm.
  - destruct l' as [|x' rest'].
    + symmetry in Hperm. now apply Permutation_nil in Hperm.
    + assert (HP' : Forall P (x' :: rest')).
      { apply Forall_forall. intros y Hy.
        apply (proj1 (Forall_forall P (x :: rest)) HP).
        apply (Permutation_in y (Permutation_sym Hperm) Hy). }
      assert (Px : P x) by now inversion HP.
      assert (Px' : P x') by now inversion HP'.
      assert (Hxx' : x = x').
      { assert (H1 : In x (x' :: rest'))
          by (apply (Permutation_in x Hperm); now left).
        assert (H2 : In x' (x :: rest))
          by (apply (Permutation_in x' (Permutation_sym Hperm)); now left).
        destruct H1 as [-> | H1]; [reflexivity|].
        destruct H2 as [<- | H2]; [reflexivity|].
        apply le_antisym; try assumption.
        - now apply (sorted_head_least x rest).
        - now apply (sorted_head_least x' rest'). }
      subst x'. f_equal. apply IH.
      * now inversion HP.
      * now inversion Hs.
      * now inversion Hs'.
      * now apply Permutation_cons_inv in Hperm.
Qed.

Lemma sort_by_permutation (l l' : list A) :
  Forall P l -> Permutation l l' -> sort_by le l = sort_by le l'.
Proof.
  intros HP Hperm.
  assert (HP' : Forall P l').
  { apply Forall_forall. intros y Hy.
    apply (proj1 (Forall_forall P l) HP).
    apply (Permutation_in y (Permutation_sym Hperm) Hy). }
  apply sorted_permutation_eq.
  - apply Forall_forall. intros y Hy.
    apply (proj1 (Forall_forall P l) HP). now apply (sort_by_In le l y).
  - now apply (sort_by_sorted le P le_total).
  - now apply (sort_by_sorted le P le_total).
  - rewrite (sort_by_perm le l), (sort_by_perm le l'). exact Hperm.
Qed.
End SortedUnique.

(** *** The order of numbers *)

Lemma leb_finite_pos (m1 m2 : positive) (e1 e2 : Z) :
  B64.leb (S754_finite false m1 e1) (S754_finite false m2 e2) = true <->
  e1 < e2 \/ (e1 = e2 /\ (m1 <= m2)%positive).
Proof.
  unfold B64.leb, SFleb, SFcompare.
  change (PosDef.Pos.compare_cont Eq m1 m2) with (Pos.compare m1 m2).
  destruct (Z.compare_spec e1 e2); destruct (Pos.compare_spec m1 m2);
    split; intros Hle; try reflexivity; try discriminate; lia.
Qed.

Lemma leb_finite_neg (m1 m2 : positive) (e1 e2 : Z) :
  B64.leb (S754_finite true m1 e1) (S754_finite true m2 e2) = true <->
  e2 < e1 \/ (e1 = e2 /\ (m2 <= m1)%positive).
Proof.
  unfold B64.leb, SFleb, SFcompare.
  change (PosDef.Pos.compare_cont Eq m1 m2) with (Pos.compare m1 m2).
  destruct (Z.compare_spec e1 e2); destruct (Pos.compare_spec m1 m2);
    cbn [CompOpp]; split; intros Hle; try reflexivity; try discriminate; lia.
Qed.

Lemma leb_trans (x y z : float) :
  B64.leb x y = true -> B64.leb y z = true -> B64.leb x z = true.
Proof.
  destruct x as [[|] | [|] | | [|] m1 e1]; destruct y as [[|] | [|] | | [|] m2 e2];
    destruct z as [[|] | [|] | | [|] m3 e3];
    first [ exact (fun _ _ => eq_refl)
          | intros H; discriminate H
          | intros _ H; discriminate H
          | rewrite !leb_finite_pos; lia
          | rewrite !leb_finite_neg; lia ].
Qed.

Lemma leb_antisym (x y : float) :
  x <> S754_zero true -> y <> S754_zero true ->
  B64.leb x y = true -> B64.leb y x = true -> x = y.
Proof.
  destruct x as [[|] | [|] | | [|] m1 e1]; destruct y as [[|] | [|] | | [|] m2 e2];
    intros Hx Hy;
    first [ reflexivity
          | now contradiction Hx
          | now contradiction Hy
          | intros H; discriminate H
          | intros _ H; discriminate H
          | rewrite !leb_finite_pos; intros H1 H2;
            assert (e1 = e2) by lia; assert (m1 = m2) by lia; now subst
          | rewrite !leb_finite_neg; intros H1 H2;
            assert (e1 = e2) by lia; assert (m1 = m2) by lia; now subst ].
Qed.

(** *** Group keys and statistics of a reordered column *)

Lemma nodup_permutation {A : Type} (dec : forall x y : A, {x = y} + {x <> y})
      (l l' : list A) :
  Permutation l l' -> Permutation (nodup dec l) (nodup dec l').
Proof.
  intros Hperm. apply NoDup_Permutation; try apply NoDup_nodup.
  intros x. rewrite !nodup_In. split; apply Permutation_in;
    [exact Hperm | now symmetry].
Qed.

Lemma ward_keys_permutation (ws ws' : list Z) :
  Permutation ws ws' -> ward_keys ws = ward_keys ws'.
Proof.
  intros Hperm. unfold ward_keys.
  apply (sort_by_permutation Z.leb (fun _ => True)).
  - intros x y _ _ H. apply Z.leb_gt in H. apply Z.leb_le. lia.
  - intros x y z _ _ _ H1 H2. apply Z.leb_le in H1, H2. apply Z.leb_le. lia.
  - intros x y _ _ H1 H2. apply Z.leb_le in H1, H2. lia.
  - apply Forall_forall. intros; exact I.
  - now apply nodup_permutation.
Qed.

Lemma string_leb_trans (s1 s2 s3 : string) :
  String.leb s1 s2 = true -> String.leb s2 s3 = true -> String.leb s1 s3 = true.
Proof.
  unfold String.leb. intros H1 H2.
  destruct (String.compare s1 s2) eqn:C12; try discriminate.
  - apply String.compare_eq_iff in C12. now subst.
  - destruct (String.compare s2 s3) eqn:C23; try discriminate.
    + apply String.compare_eq_iff in C23. subst. now rewrite C12.
    + assert (H : String.compare s1 s3 = Lt).
      { apply String_as_OT.cmp_lt.
        apply (String_as_OT.lt_trans s1 s2 s3); now apply String_as_OT.cmp_lt. }
      now rewrite H.
Qed.

Lemma style_keys_permutation (cs cs' : list string) :
  Permutation cs cs' -> style_keys cs = style_keys cs'.
Proof.
  intros Hperm. unfold style_keys.
  apply (sort_by_permutation String.leb (fun _ => True)).
  - intros x y _ _ H. destruct (String.leb_total x y) as [H' | H']; congruence.
  - intros x y z _ _ _. apply string_leb_trans.
  - intros x y _ _. apply String.leb_antisym.
  - apply Forall_forall. intros; exact I.
  - now apply nodup_permutation.
Qed.

Lemma pd_count_permutation (xs xs' : list float) :
  Permutation xs xs' -> pd_count xs = pd_count xs'.
Proof.
  intros Hperm. unfold pd_count, dropna_floats. f_equal.
  now apply Permutation_length, filter_permutation.
Qed.

Lemma pd_median_permutation (xs xs' : list float) :
  Forall not_negative_zero xs -> Permutation xs xs' ->
  pd_median xs = pd_median xs'.
Proof.
  intros Hnz Hperm. unfold pd_median. f_equal.
  apply (sort_by_permutation B64.leb
           (fun x => B64.isna x = false /\ not_negative_zero x)).
  - intros x y [Hx _] [Hy _]. now apply leb_total_not_nan.
  - intros x y z _ _ _. apply leb_trans.
  - intros x y [_ Hx] [_ Hy]. now apply leb_antisym.
  - apply Forall_forall. intros x Hin. unfold dropna_floats in Hin.
    apply filter_In in Hin as [Hin Hna]. split.
    + now apply negb_true_iff in Hna.
    + apply (proj1 (Forall_forall _ xs) Hnz x Hin).
  - now apply filter_permutation.
Qed.

(** *** The ward table of a reordered frame *)

Lemma ward_metrics_row_permutation (df df' : list assigned_listing) (w : Z) :
  Permutation df df' ->
  (forall r, In r df -> not_negative_zero (Price (base r)) /\
                        not_negative_zero (walkScore (base r))) ->
  order_free_cells (ward_metrics_row df w) =
  order_free_cells (ward_metrics_row df' w).
Proof.
  intros Hperm Hnz. unfold order_free_cells, ward_metrics_row.
  cbn [agg_Ward Listings Median_List_Price Median_WalkScore StyleShare].
  assert (Hg : Permutation (ward_group df w) (ward_group df' w))
    by now apply filter_permutation.
  assert (Hin : forall r, In r (ward_group df w) -> In r df).
  { intros r Hr. now apply filter_In in Hr as [Hr _]. }
  rewrite (pd_count_permutation (group_prices (ward_group df w))
             (group_prices (ward_group df' w))) by now apply Permutation_map.
  rewrite (pd_median_permutation (group_prices (ward_group df w))
             (group_prices (ward_group df' w))).
  - rewrite (pd_median_permutation (group_walk_scores (ward_group df w))
               (group_walk_scores (ward_group df' w))).
    + reflexivity.
    + apply Forall_forall. intros x Hx. apply in_map_iff in Hx as (r & <- & Hr).
      apply (Hnz r (Hin r Hr)).
    + now apply Permutation_map.
  - apply Forall_forall. intros x Hx. apply in_map_iff in Hx as (r & <- & Hr).
    apply (Hnz r (Hin r Hr)).
  - now apply Permutation_map.
Qed.

Lemma pair_count_permutation (df df' : list assigned_listing) (w : Z) (c : string) :
  Permutation df df' -> pair_count df w c = pair_count df' w c.
Proof.
  intros Hperm. unfold pair_count. f_equal.
  now apply Permutation_length, filter_permutation.
Qed.

Lemma style_counts_permutation (df df' : list assigned_listing) :
  Permutation df df' -> style_counts df = style_counts df'.
Proof.
  intros Hperm. unfold style_counts.
  rewrite (ward_keys_permutation (map Ward (styled df)) (map Ward (styled df')))
    by (apply Permutation_map; now apply filter_permutation).
  rewrite (style_keys_permutation (observed_styles df) (observed_styles df'))
    by (unfold observed_styles; now apply Permutation_flat_map).
  apply flat_map_ext. intros w. apply flat_map_ext. intros c.
  now rewrite (pair_count_permutation df df' w c Hperm).
Qed.

Lemma merge_style_pivot_cells (agg agg' : list ward_agg_row) (pv : pivot) :
  map order_free_cells agg = map order_free_cells agg' ->
  map order_free_cells (merge_style_pivot agg pv) =
  map order_free_cells (merge_style_pivot agg' pv).
Proof.
  unfold merge_style_pivot.
  set (names := map style_column_name (pv_columns pv)).
  revert agg'. induction agg as [|a rest IH]; intros [|a' rest'] H;
    try discriminate H; [reflexivity|].
  cbn [map] in H. unfold order_free_cells at 1 3 in H.
  injection H as Hw Hl Hm Hs _ Hrest.
  cbn [flat_map]. rewrite !map_app. f_equal; [|now apply IH].
  rewrite Hw.
  destruct (filter (fun r => fst r =? agg_Ward a') (pv_rows pv)) as [|r rs].
  - cbn [map]. unfold order_free_cells, set_StyleShare.
    cbn [agg_Ward Listings Median_List_Price Median_WalkScore StyleShare].
    now rewrite Hw, Hl, Hm, Hs.
  - rewrite !map_map. apply map_ext. intros r'.
    unfold order_free_cells, set_StyleShare.
    cbn [agg_Ward Listings Median_List_Price Median_WalkScore StyleShare].
    now rewrite Hw, Hl, Hm, Hs.
Qed.

Lemma ward_aggregate_permutation (has_style_column : bool)
      (df df' : list assigned_listing) :
  Permutation df df' ->
  (forall r, In r df -> not_negative_zero (Price (base r)) /\
                        not_negative_zero (walkScore (base r))) ->
  map order_free_cells (ward_aggregate has_style_column df) =
  map order_free_cells (ward_aggregate has_style_column df').
Proof.
  intros Hperm Hnz.
  assert (Hm : map order_free_cells (ward_metrics df) =
               map order_free_cells (ward_metrics df')).
  { unfold ward_metrics. rewrite !map_map.
    rewrite (ward_keys_permutation (map Ward df) (map Ward df'))
      by now apply Permutation_map.
    apply map_ext. intros w. now apply ward_metrics_row_permutation. }
  unfold ward_aggregate. destruct has_style_column; [|exact Hm].
  rewrite (style_counts_permutation df df' Hperm).
  now apply merge_style_pivot_cells.
Qed.

Lemma dashboard_cells (income : list income_row) (agg agg' : list ward_agg_row) :
  map order_free_cells agg = map order_free_cells agg' ->
  map dashboard_order_free_cells (dashboard income agg) =
  map dashboard_order_free_cells (dashboard income agg').
Proof.
  intros H. unfold dashboard, merge_inner.
  induction income as [|i rest IH]; [reflexivity|].
  cbn [flat_map]. rewrite !map_app. f_equal; [|exact IH].
  clear IH. revert agg' H.
  induction agg as [|a agg0 IHa]; intros [|a' agg0'] H; try discriminate H;
    [reflexivity|].
  cbn [map] in H. unfold order_free_cells at 1 3 in H.
  injection H as Hw Hl Hm Hs Hsh Hrest.
  assert (Ha : order_free_cells a = order_free_cells a')
    by (unfold order_free_cells; congruence).
  cbn [filter]. rewrite Hw. destruct (inc_Ward i =? agg_Ward a').
  - cbn [map]. f_equal; [|now apply IHa].
    unfold dashboard_order_free_cells, dashboard_row_of.
    cbn [dash_income dash_agg Affordability_Ratio Affordability_Band Ward_Label].
    now rewrite Ha, Hm.
  - now apply IHa.
Qed.

(** X17: the tables do not depend on the order of the rows of the
    listings file, the mean price apart (a sum of rounded additions): for
    listings whose prices and walk scores are not the negative zero, a
    reordered file gives the same wards in the same order with the same
    listing counts, median prices, median walk scores and style shares,
    and the same ratios, bands and labels in the dashboard. *)
Theorem tables_independent_of_listing_order
        (polygon : Type) (covers : polygon -> point -> bool)
        (income_csv : list income_row) (re_csv re_csv' : list listing)
        (has_style_column : bool)
        (ward_polygons : list (ward_polygon polygon)) :
  Permutation re_csv re_csv' ->
  (forall r, In r re_csv ->
     not_negative_zero (Price r) /\ not_negative_zero (walkScore r)) ->
  map order_free_cells
      (fst (main polygon covers income_csv re_csv has_style_column ward_polygons)) =
  map order_free_cells
      (fst (main polygon covers income_csv re_csv' has_style_column ward_polygons)) /\
  map dashboard_order_free_cells
      (snd (main polygon covers income_csv re_csv has_style_column ward_polygons)) =
  map dashboard_order_free_cells
      (snd (main polygon covers income_csv re_csv' has_style_column ward_polygons)).
Proof.
  intros Hperm Hnz. rewrite !main_tables. cbn [fst snd].
  assert (Hdf : Permutation (rows_with_ward polygon covers re_csv ward_polygons)
                            (rows_with_ward polygon covers re_csv' ward_polygons)).
  { unfold rows_with_ward.
    apply Permutation_flat_map. unfold drop_missing_key_fields.
    now apply filter_permutation. }
  assert (Hnz' : forall r, In r (rows_with_ward polygon covers re_csv ward_polygons) ->
                   not_negative_zero (Price (base r)) /\
                   not_negative_zero (walkScore (base r))).
  { intros r Hr. apply Hnz. now apply In_rows_with_ward in Hr as [Hr _]. }
  pose proof (ward_aggregate_permutation has_style_column _ _ Hdf Hnz') as Hagg.
  split; [exact Hagg | now apply dashboard_cells].
Qed.

Lemma tables_independent_of_listing_order_witness :
  map order_free_cells
      (fst (main box box_covers repeated_income styled_listings true two_wards)) =
  map order_free_cells
      (fst (main box box_covers repeated_income (rev styled_listings) true two_wards)).
Proof.
  apply (tables_independent_of_listing_order box box_covers repeated_income
           styled_listings (rev styled_listings) true two_wards).
  - apply Permutation_rev.
  - intros r Hr. cbn in Hr.
    destruct Hr as [<- | [<- | [<- | []]]]; split; discriminate.
Defined.

(** ** Rows that are never missing *)

Lemma binary_normalize_not_nan (m e : Z) (szero : bool) :
  B64.isna (binary_normalize B64.prec B64.emax m e szero) = false.
Proof.
  destruct m as [|p|p]; cbn [binary_normalize]; [reflexivity| |];
    unfold binary_round;
    destruct (shl_align p e _) as [mz ez];
    apply binary_round_aux_not_nan; lia.
Qed.

Lemma add_not_nan (x y : float) :
  B64.is_finite x = true -> B64.is_finite y = true ->
  B64.isna (B64.add x y) = false.
Proof.
  destruct x as [[|] | sx | | sx mx ex]; destruct y as [[|] | sy | | sy my ey];
    try discriminate; intros _ _; try reflexivity.
  unfold B64.add. cbn [SFadd]. apply binary_normalize_not_nan.
Qed.

Lemma halve_not_nan (x : float) :
  B64.isna x = false -> B64.isna (B64.div x (B64.of_Z 2)) = false.
Proof.
  intros Hx. destruct (B64.isna (B64.div x (B64.of_Z 2))) eqn:Hd; [|reflexivity].
  apply div_isna in Hd as [H | [H | [[_ H] | [_ H]]]];
    [congruence | discriminate H | discriminate H | discriminate H].
Qed.

Lemma middle_of_sorted_not_nan (s : list float) :
  s <> [] -> Forall (fun x => B64.is_finite x = true) s ->
  B64.isna (middle_of_sorted s) = false.
Proof.
  intros Hne Hfin.
  assert (Hnth : forall k, (k < List.length s)%nat ->
                           B64.is_finite (nth k s B64.nan) = true).
  { intros k Hk. apply (proj1 (Forall_forall _ s) Hfin). now apply nth_In. }
  unfold middle_of_sorted.
  destruct (List.length s) as [|n] eqn:Hlen.
  - destruct s; [contradiction | discriminate].
  - assert (Hhalf : (S n / 2 < S n)%nat) by (apply Nat.div_lt; lia).
    destruct (Nat.odd (S n)).
    + specialize (Hnth (S n / 2)%nat Hhalf).
      destruct (nth (S n / 2) s B64.nan); try discriminate; reflexivity.
    + apply halve_not_nan. apply add_not_nan; apply Hnth; lia.
Qed.

Lemma pd_median_not_nan (xs : list float) :
  xs <> [] ->
  Forall (fun x => B64.is_finite x = true) xs ->
  B64.isna (pd_median xs) = false.
Proof.
  intros Hne Hfin. unfold pd_median.
  assert (Hid : dropna_floats xs = xs).
  { apply dropna_floats_id. apply Forall_forall. intros x Hx.
    pose proof (proj1 (Forall_forall _ xs) Hfin x Hx) as H.
    destruct x; try discriminate; reflexivity. }
  rewrite Hid. apply middle_of_sorted_not_nan.
  - intros He. apply Hne. apply Permutation_nil.
    rewrite <- He. apply sort_by_perm.
  - apply Forall_forall. intros x Hx. apply (sort_by_In B64.leb xs x) in Hx.
    apply (proj1 (Forall_forall _ xs) Hfin x Hx).
Qed.

Section PopulatedRows.
Variable polygon : Type.
Variable covers : polygon -> point -> bool.

Lemma main_ward_rows (income_csv : list income_row) (re_csv : list listing)
      (has_style_column : bool) (ward_polygons : list (ward_polygon polygon))
      (a : ward_agg_row) :
  In a (fst (main polygon covers income_csv re_csv has_style_column ward_polygons)) ->
  1 <= Listings a /\
  ((forall r, In r re_csv -> is_inf (Price r) = false) ->
   B64.isna (Median_List_Price a) = false).
Proof.
  intros Ha. rewrite main_tables in Ha. cbn [fst] in Ha.
  set (df := rows_with_ward polygon covers re_csv ward_polygons) in *.
  apply (in_map (fun a => (Listings a, Median_List_Price a))) in Ha.
  rewrite ward_aggregate_map in Ha by reflexivity.
  apply in_map_iff in Ha as (w & Hrow & Hw).
  injection Hrow as Hl Hm. rewrite <- Hl, <- Hm. clear Hl Hm.
  cbn [ward_metrics_row Listings Median_List_Price].
  apply (proj1 (ward_keys_In _ w)) in Hw.
  pose proof (ward_group_nonempty df w Hw) as Hne.
  pose proof (rows_group_prices_not_nan polygon covers re_csv ward_polygons w) as Hnn.
  fold df in Hnn.
  assert (Hprices : group_prices (ward_group df w) <> []).
  { unfold group_prices. destruct (ward_group df w); [contradiction | discriminate]. }
  split.
  - unfold pd_count. rewrite (dropna_floats_id _ Hnn).
    destruct (group_prices (ward_group df w)); [contradiction|].
    cbn [List.length]. lia.
  - intros Hfin. apply pd_median_not_nan; [assumption|].
    apply Forall_forall. intros x Hx.
    pose proof (proj1 (Forall_forall _ _) Hnn x Hx) as Hna.
    assert (Hi : is_inf x = false).
    { unfold group_prices in Hx. apply in_map_iff in Hx as (r & <- & Hr).
      apply filter_In in Hr as [Hr _]. apply Hfin.
      unfold df in Hr. now apply In_rows_with_ward in Hr as [Hr _]. }
    destruct x; try discriminate; reflexivity.
Qed.
End PopulatedRows.

(** X18: a row of the ward table always stands for listings: its count
    is at least one, whatever the listings file holds; and, when no price
    of the listings file is infinite, its median price is a number, never
    a missing value. *)
Theorem ward_rows_are_populated
        (polygon : Type) (covers : polygon -> point -> bool)
        (income_csv : list income_row) (re_csv : list listing)
        (has_style_column : bool) (ward_polygons : list (ward_polygon polygon))
        (a : ward_agg_row) :
  In a (fst (main polygon covers income_csv re_csv has_style_column ward_polygons)) ->
  1 <= Listings a /\
  ((forall r, In r re_csv -> is_inf (Price r) = false) ->
   B64.isna (Median_List_Price a) = false).
Proof. apply main_ward_rows. Qed.

Lemma ward_rows_are_populated_witness :
  1 <= Listings scenario_ward_1 /\
  B64.isna (Median_List_Price scenario_ward_1) = false.
Proof.
  destruct (ward_rows_are_populated box box_covers [] scenario_listings false
              two_wards scenario_ward_1) as [Hcount Hmedian].
  - left. reflexivity.
  - split; [exact Hcount|]. apply Hmedian. intros r Hr. cbn in Hr.
    destruct Hr as [<- | [<- | [<- | [<- | [<- | [<- | []]]]]]]; reflexivity.
Defined.

(** X19: in the dashboard that [main] writes, with no infinite price in
    the listings file, neither the median price nor the income of a row
    is missing, so the band "Unknown" stands for one thing only: a ratio
    of zero over zero or of infinity over infinity. *)
Theorem dashboard_unknown_band
        (polygon : Type) (covers : polygon -> point -> bool)
        (income_csv : list income_row) (re_csv : list listing)
        (has_style_column : bool) (ward_polygons : list (ward_polygon polygon))
        (d : dashboard_row) :
  (forall r, In r re_csv -> is_inf (Price r) = false) ->
  In d (snd (main polygon covers income_csv re_csv has_style_column ward_polygons)) ->
  B64.isna (Median_List_Price (dash_agg d)) = false /\
  B64.isna (Average_Household_Income (dash_income d)) = false /\
  (Affordability_Band d = band_unknown <->
   (B64.is_zero (Median_List_Price (dash_agg d)) = true /\
    B64.is_zero (Average_Household_Income (dash_income d)) = true) \/
   (is_inf (Median_List_Price (dash_agg d)) = true /\
    is_inf (Average_Household_Income (dash_income d)) = true)).
Proof.
  intros Hfin Hd.
  pose proof (main_ward_rows polygon covers income_csv re_csv has_style_column
                ward_polygons) as Hrows.
  unfold main in Hd, Hrows. cbn [fst snd] in Hd, Hrows.
  unfold dashboard in Hd. apply in_map_iff in Hd as ([i a] & <- & Hia).
  apply In_merge_inner in Hia as (Hi & Ha & _).
  destruct (Hrows a Ha) as [_ Hm]. specialize (Hm Hfin).
  assert (Hinc : B64.isna (Average_Household_Income i) = false).
  { unfold clean_income in Hi. apply filter_In in Hi as [_ Hi].
    now apply negb_true_iff in Hi. }
  cbn [dashboard_row_of dash_agg dash_income Affordability_Band].
  split; [exact Hm|]. split; [exact Hinc|].
  rewrite band_unknown_iff, div_isna. rewrite Hm, Hinc.
  split.
  - intros [H | [H | H]]; [discriminate | discriminate | exact H].
  - intros H. right. right. exact H.
Qed.

Lemma dashboard_unknown_band_witness :
  B64.isna (Median_List_Price (dash_agg scenario_dashboard_row)) = false /\
  Affordability_Band scenario_dashboard_row <> band_unknown.
Proof.
  destruct (dashboard_unknown_band box box_covers zero_income scenario_listings
              false two_wards scenario_dashboard_row) as (Hm & _ & Hiff).
  - intros r Hr. cbn in Hr.
    destruct Hr as [<- | [<- | [<- | [<- | [<- | [<- | []]]]]]]; reflexivity.
  - left. reflexivity.
  - split; [exact Hm|]. intros Hb. apply Hiff in Hb.
    destruct Hb as [[Hz _] | [Hi _]]; discriminate.
Defined.

(** ** Frames with a repeated index label *)

Section RepeatedLabels.
Variable polygon : Type.
Variable covers : polygon -> point -> bool.

Lemma In_keep_assigned (cells : list (listing * option Z)) (a : assigned_listing) :
  In a (keep_assigned cells) <-> In (base a, Some (Ward a)) cells.
Proof.
  unfold keep_assigned. rewrite in_flat_map. split.
  - intros ([r c] & Hin & Ha). cbn [fst snd] in Ha.
    destruct c as [w|]; [|contradiction].
    destruct Ha as [<- | []]. exact Hin.
  - intros Hin. exists (base a, Some (Ward a)). split; [exact Hin|].
    cbn [fst snd]. left. now destruct a.
Qed.

Lemma In_assign_by_label (listings_df : list listing)
      (ward_polygons : list (ward_polygon polygon)) (a : assigned_listing) :
  In a (assign_ward_to_points polygon covers listings_df ward_polygons) <->
  In (base a) listings_df /\
  cell_after polygon covers (wards_of polygon ward_polygons) listings_df
             (row_id (base a)) None = Some (Ward a).
Proof.
  unfold assign_ward_to_points. rewrite In_keep_assigned, assign_loop, map_map.
  cbn [fst snd]. rewrite in_map_iff. split.
  - intros (r & Heq & Hin). injection Heq as Hr Hc. subst r. now split.
  - intros [Hin Hc]. exists (base a). split; [now rewrite Hc | exact Hin].
Qed.

Lemma cell_after_app (wards : list (Z * polygon)) (rows rows' : list listing)
      (i : Z) (cell : option Z) :
  cell_after polygon covers wards (rows ++ rows') i cell =
  cell_after polygon covers wards rows' i (cell_after polygon covers wards rows i cell).
Proof. unfold cell_after. apply fold_left_app. Qed.

Lemma cell_after_inert (wards : list (Z * polygon)) (rows : list listing)
      (i : Z) (cell : option Z) :
  (forall r, In r rows -> row_id r = i -> bad_coordinates r = true) ->
  cell_after polygon covers wards rows i cell = cell.
Proof.
  revert cell. induction rows as [|row rest IH]; intros cell H; [reflexivity|].
  rewrite cell_after_cons.
  assert (Hrest : forall r, In r rest -> row_id r = i -> bad_coordinates r = true)
    by (intros r Hr; apply H; now right).
  destruct (bad_coordinates row) eqn:Hbad; [now apply IH|].
  destruct (row_id row =? i) eqn:Hi; [|now apply IH].
  apply Z.eqb_eq in Hi. rewrite (H row (or_introl eq_refl) Hi) in Hbad.
  discriminate.
Qed.
End RepeatedLabels.

(** X20: the ward is written at the index label of a row, so in a frame
    that repeats a label the last row of the label that has both
    coordinates decides for every row of the label: each of them is kept,
    with the ward found for that last row, exactly when a polygon covers
    the point of that last row, whatever its own point is. *)
Theorem repeated_label_last_row_decides
        (polygon : Type) (covers : polygon -> point -> bool)
        (before after : list listing) (row r : listing)
        (ward_polygons : list (ward_polygon polygon)) (w : Z) :
  bad_coordinates row = false ->
  (forall r', In r' after -> row_id r' = row_id row -> bad_coordinates r' = true) ->
  In r (before ++ row :: after) ->
  row_id r = row_id row ->
  (In {| base := r; Ward := w |}
      (assign_ward_to_points polygon covers (before ++ row :: after) ward_polygons) <->
   fst (first_covering polygon covers (wards_of polygon ward_polygons)
                       (listing_point row)) = Some w).
Proof.
  intros Hgood Hafter Hin Hlabel.
  rewrite In_assign_by_label. cbn [base Ward]. rewrite Hlabel.
  rewrite cell_after_app, cell_after_cons, Hgood, Z.eqb_refl.
  rewrite cell_after_inert by assumption.
  split; [now intros [_ H] | now split].
Qed.

Lemma repeated_label_last_row_decides_witness :
  In {| base := uncovered_row_0; Ward := 1 |}
     (assign_ward_to_points box box_covers ([uncovered_row_0] ++ covered_row_0 :: [])
                            two_wards).
Proof.
  apply (repeated_label_last_row_decides box box_covers [uncovered_row_0] []
           covered_row_0 uncovered_row_0 two_wards 1).
  - reflexivity.
  - intros r' [].
  - left. reflexivity.
  - reflexivity.
  - reflexivity.
Defined.
